(** * serenity-js.org documentation tooling: changelog plugin and API index

    A shallow embedding of

    - [src/plugins/changelog/index.js]: the changelog-to-blog-post plugin
      ([processSection], [loadContent], the list pages of the posts);
    - [docusaurus-plugin-typedoc-api/components/ApiIndex.tsx]: the redirect
      logic of the API index ([addVersionToUrl] and the [useEffect] body)
      and [headingId].

    JavaScript strings are sequences of UTF-16 code units; they are modelled
    as lists of code units ([N]).  The regular expressions of the source are
    kept as syntax trees and run by a backtracking matcher that follows the
    ECMAScript semantics of the constructs the source uses (literals, [.],
    character classes, greedy and lazy quantifiers, optional groups, named
    groups, lookahead). *)

From Stdlib Require Import NArith ZArith Ascii String List Lia Sorted.
From stdpp Require Import gmap strings list pretty.

Local Open Scope N_scope.
Local Open Scope list_scope.

(** ** Strings *)

Abbreviation char := N.
Abbreviation str := (list N).

(** The code units of a literal of the source. *)
Fixpoint lit (s : string) : str :=
  match s with
  | EmptyString => []
  | String a s' => N_of_ascii a :: lit s'
  end.

Definition nl : char := 10.
Definition NL : str := [nl].

(** ECMAScript LineTerminator: LF, CR, LS, PS. *)
Definition isLineTerminator (c : char) : bool :=
  (c =? 10) || (c =? 13) || (c =? 8232) || (c =? 8233).

(** ECMAScript WhiteSpace or LineTerminator, what [String.prototype.trim]
    strips. *)
Definition isWhiteSpace (c : char) : bool :=
  (c =? 9) || (c =? 11) || (c =? 12) || (c =? 32) || (c =? 160) ||
  (c =? 5760) || ((8192 <=? c) && (c <=? 8202)) || (c =? 8239) ||
  (c =? 8287) || (c =? 12288) || (c =? 65279) || isLineTerminator c.

Definition isEmpty (s : str) : bool :=
  match s with [] => true | _ => false end.

Fixpoint dropWhile (p : char → bool) (s : str) : str :=
  match s with
  | [] => []
  | x :: s' => if p x then dropWhile p s' else s
  end.

(** [s.trim()] *)
Definition trim (s : str) : str :=
  rev (dropWhile isWhiteSpace (rev (dropWhile isWhiteSpace s))).

(** [stripPrefix p s] is the rest of [s] after [p] when [s] starts with [p]. *)
Fixpoint stripPrefix (p s : str) : option str :=
  match p with
  | [] => Some s
  | a :: p' =>
      match s with
      | [] => None
      | x :: s' => if x =? a then stripPrefix p' s' else None
      end
  end.

(** The first occurrence of [pat] in [s]: what precedes it and what
    follows it. *)
Fixpoint findSub (pat s : str) : option (str * str) :=
  match stripPrefix pat s with
  | Some rest => Some ([], rest)
  | None =>
      match s with
      | [] => None
      | x :: s' =>
          match findSub pat s' with
          | Some (b, a) => Some (x :: b, a)
          | None => None
          end
      end
  end.

(** [s.includes(pat)] *)
Definition includes (pat s : str) : bool :=
  match findSub pat s with Some _ => true | None => false end.

(** [s.endsWith(suf)] *)
Definition endsWith (suf s : str) : bool :=
  match stripPrefix (rev suf) (rev s) with Some _ => true | None => false end.

(** ECMAScript GetSubstitution for a string pattern (no capture groups):
    in the replacement text [$$] is a dollar sign, [$&] the matched text,
    [$`] what precedes the match and [$'] what follows it; any other
    character, a dollar sign included, stands for itself. *)
Fixpoint getSubstitution (matched before after repl : str) : str :=
  match repl with
  | [] => []
  | x :: r =>
      if x =? 36 then
        match r with
        | y :: r' =>
            if y =? 36 then 36 :: getSubstitution matched before after r'
            else if y =? 38 then matched ++ getSubstitution matched before after r'
            else if y =? 96 then before ++ getSubstitution matched before after r'
            else if y =? 39 then after ++ getSubstitution matched before after r'
            else x :: getSubstitution matched before after r
        | [] => [x]
        end
      else x :: getSubstitution matched before after r
  end.

(** [s.replace(pat, repl)] for a string [pat]: the first occurrence only. *)
Definition replaceStr (pat repl s : str) : str :=
  match findSub pat s with
  | None => s
  | Some (b, a) => b ++ getSubstitution pat b a repl ++ a
  end.

(** [parts.join(sep)] *)
Fixpoint join (sep : str) (parts : list str) : str :=
  match parts with
  | [] => []
  | [p] => p
  | p :: ps => p ++ sep ++ join sep ps
  end.

(** [`${n}`] for an integral number. *)
Definition showZ (n : Z) : str := lit (pretty n).

(** ** Regular expressions *)

Module Regex.

Inductive regex : Type :=
| Eps                                   (* the empty pattern *)
| Chr (c : char)                        (* a literal character *)
| Cls (p : char → bool)                 (* one character of a class *)
| Rep (p : char → bool) (lo : nat) (hi : option nat) (greedy : bool)
                                        (* class{lo,hi}, class*, class*? *)
| Seq (r1 r2 : regex)
| Opt (r : regex)                       (* r? (greedy) *)
| Grp (name : string) (r : regex)       (* (?<name>r) *)
| Ahead (r : regex).                    (* (?=r) *)

(** A literal string, and a sequence of patterns. *)
Fixpoint Str (s : string) : regex :=
  match s with
  | EmptyString => Eps
  | String a s' => Seq (Chr (N_of_ascii a)) (Str s')
  end.

Definition cat (rs : list regex) : regex := foldr Seq Eps rs.

(** Character classes. *)
Definition dot (c : char) : bool := negb (isLineTerminator c).   (* .  *)
Definition dotAll (c : char) : bool := true.                     (* . with flag s *)
Definition digit (c : char) : bool := (48 <=? c) && (c <=? 57).  (* \d *)
Definition isChr (a : char) (c : char) : bool := c =? a.

(** Captures: the groups that took part in the match, latest first. *)
Definition caps := list (string * str).
Definition kont := str → caps → option (str * caps).

Definition group (name : string) (c : caps) : option str :=
  snd <$> List.find (λ e, bool_decide (fst e = name)) c.

Definition more (hi : option nat) : bool :=
  match hi with Some O => false | _ => true end.
Definition less (hi : option nat) : option nat := Nat.pred <$> hi.

(** Exactly [n] characters of class [p]. *)
Fixpoint repExact (p : char → bool) (n : nat) (k : kont)
    (inp : str) (c : caps) {struct n} : option (str * caps) :=
  match n with
  | O => k inp c
  | S n' =>
      match inp with
      | x :: xs => if p x then repExact p n' k xs c else None
      | [] => None
      end
  end.

(** At most [hi] characters of class [p], as many as possible first. *)
Fixpoint repGreedy (p : char → bool) (hi : option nat) (k : kont)
    (inp : str) (c : caps) {struct inp} : option (str * caps) :=
  match inp with
  | x :: xs =>
      if more hi && p x then
        match repGreedy p (less hi) k xs c with
        | Some r => Some r
        | None => k inp c
        end
      else k inp c
  | [] => k inp c
  end.

(** At most [hi] characters of class [p], as few as possible first. *)
Fixpoint repLazy (p : char → bool) (hi : option nat) (k : kont)
    (inp : str) (c : caps) {struct inp} : option (str * caps) :=
  match k inp c with
  | Some r => Some r
  | None =>
      match inp with
      | x :: xs => if more hi && p x then repLazy p (less hi) k xs c else None
      | [] => None
      end
  end.

(** The continuation at the end of a pattern: the match is found. *)
Definition accept : kont := λ rest c, Some (rest, c).

(** The backtracking matcher, in continuation-passing style: [m r k inp c]
    matches [r] at the start of [inp] and hands the rest of the input and
    the captures to [k]; when [k] fails, the next alternative of [r] is
    tried. *)
Fixpoint m (r : regex) (k : kont) (inp : str) (c : caps)
    {struct r} : option (str * caps) :=
  match r with
  | Eps => k inp c
  | Chr a =>
      match inp with
      | x :: xs => if x =? a then k xs c else None
      | [] => None
      end
  | Cls p =>
      match inp with
      | x :: xs => if p x then k xs c else None
      | [] => None
      end
  | Rep p lo hi greedy =>
      repExact p lo
        ((if greedy then repGreedy else repLazy) p
           ((λ h, h - lo)%nat <$> hi) k) inp c
  | Seq r1 r2 => m r1 (m r2 k) inp c
  | Opt r' =>
      (* an iteration that matches the empty string is rejected *)
      match m r' (λ rest c',
               if bool_decide (length rest = length inp) then None
               else k rest c') inp c with
      | Some res => Some res
      | None => k inp c
      end
  | Grp name r' =>
      m r' (λ rest c',
            k rest ((name, take (length inp - length rest) inp) :: c')) inp c
  | Ahead r' =>
      match m r' accept inp c with
      | Some (_, c') => k inp c'
      | None => None
      end
  end.

(** A match of [r] at the start of [inp]: the matched text and the
    captures. *)
Definition exec (r : regex) (inp : str) : option (str * caps) :=
  match m r accept inp [] with
  | Some (rest, c) => Some (take (length inp - length rest) inp, c)
  | None => None
  end.

(** [s.match(r)] for a regular expression without flag [g]: the leftmost
    match, or [None] for [null]. *)
Record MatchResult := { matched : str; groups : caps; index : nat }.

Fixpoint searchFrom (r : regex) (i : nat) (s : str) : option MatchResult :=
  match exec r s with
  | Some (m0, c) => Some {| matched := m0; groups := c; index := i |}
  | None =>
      match s with
      | [] => None
      | _ :: s' => searchFrom r (S i) s'
      end
  end.

Definition search (r : regex) (s : str) : option MatchResult :=
  searchFrom r 0 s.

(** [s.match(r)] with flag [g]: the matched texts from left to right,
    each search starting where the previous match ended (one further
    after an empty match); the empty list stands for [null].  [skip]
    counts the characters of the previous match still to be passed. *)
Fixpoint matchAllFrom (r : regex) (skip : nat) (s : str) : list str :=
  match s with
  | [] =>
      match skip, exec r [] with
      | O, Some (m0, _) => [m0]
      | _, _ => []
      end
  | _ :: s' =>
      match skip with
      | S n => matchAllFrom r n s'
      | O =>
          match exec r s with
          | Some (m0, _) => m0 :: matchAllFrom r (length m0 - 1) s'
          | None => matchAllFrom r 0 s'
          end
      end
  end.

Definition matchAll (r : regex) (s : str) : option (list str) :=
  match matchAllFrom r 0 s with
  | [] => None
  | ms => Some ms
  end.

(** [s.replace(r, repl)] with flag [g], for a replacement text without
    dollar signs (the replacement texts of the source are ['&lt;'],
    ['&gt;'] and ['##']). *)
Fixpoint replaceAllFrom (r : regex) (repl : str) (skip : nat) (s : str) : str :=
  match s with
  | [] =>
      match skip, exec r [] with
      | O, Some _ => repl
      | _, _ => []
      end
  | x :: s' =>
      match skip with
      | S n => replaceAllFrom r repl n s'
      | O =>
          match exec r s with
          | Some (m0, _) =>
              repl ++
              (if isEmpty m0 then x :: replaceAllFrom r repl 0 s'
               else replaceAllFrom r repl (length m0 - 1) s')
          | None => x :: replaceAllFrom r repl 0 s'
          end
      end
  end.

Definition replaceAll (r : regex) (repl : str) (s : str) : str :=
  replaceAllFrom r repl 0 s.

(** [s.split(r)] for a pattern without capture groups.  [cur] holds, in
    reverse, the characters of the piece being collected (from index [p]
    to index [q] of the ECMAScript algorithm).  A match at [q] that ends
    at [p] (an empty match right where the piece starts) does not split. *)
Fixpoint splitFrom (r : regex) (cur : str) (skip : nat) (s : str) : list str :=
  match s with
  | [] => [rev cur]
  | x :: s' =>
      match skip with
      | S n => splitFrom r [] n s'
      | O =>
          match exec r s with
          | Some (m0, _) =>
              if isEmpty m0 then
                if isEmpty cur then splitFrom r [x] 0 s'
                else rev cur :: splitFrom r [x] 0 s'
              else rev cur :: splitFrom r [] (length m0 - 1) s'
          | None => splitFrom r (x :: cur) 0 s'
          end
      end
  end.

Definition split (r : regex) (s : str) : list str :=
  match s with
  | [] => match exec r [] with Some _ => [] | None => [[]] end
  | _ => splitFrom r [] 0 s
  end.

End Regex.

(** ** The changelog plugin ([plugins/changelog/index.js]) *)

Module Changelog.
Import Regex.

(** An entry of [authorsMap]. *)
Record Committer := {
  name : str;
  alias : str;
  url : str;
  imageURL : str
}.

(** [String.prototype.localeCompare] depends on the host's collation; it
    is an interface of the model. *)
Class Collation := localeCompare : str → str → comparison.

(** The module-level state: the set [publishTimes] and the own enumerable
    properties of the object [authorsMap]. *)
Record State := {
  publishTimes : gset str;
  authorsMap : gmap str Committer
}.

Definition initial : State := {| publishTimes := ∅; authorsMap := ∅ |}.

(** A call either returns, raises a [TypeError], or (in the model only)
    exhausts the fuel of a loop. *)
Inductive outcome (A : Type) : Type :=
| Ok (a : A)
| TypeError
| OutOfFuel.
Arguments Ok {A} a.
Arguments TypeError {A}.
Arguments OutOfFuel {A}.

(** Computations over the module-level state.  The state survives an
    exception: what was written before it stays written. *)
Definition M (A : Type) : Type := State → outcome A * State.

Definition ret {A} (a : A) : M A := λ st, (Ok a, st).
Definition raise {A} : M A := λ st, (TypeError, st).
Definition bind {A B} (c : M A) (f : A → M B) : M B :=
  λ st,
    match c st with
    | (Ok a, st') => f a st'
    | (TypeError, st') => (TypeError, st')
    | (OutOfFuel, st') => (OutOfFuel, st')
    end.

#[global] Instance M_ret : MRet M := @ret.
#[global] Instance M_bind : MBind M := λ A B f c, bind c f.

(** One to three [#]. *)
Definition hashesPattern : regex := Rep (isChr 35) 1 (Some 3%nat) true.

(** [sectionLimitPattern] (line 24): a lookahead for a line feed, one to
    three [#], [ [], any text, [](], any text, [) (], any text (lazy), [)].
    [titlePattern] (line 25): the same heading without the line feed, its
    three texts lazy and named [version], [compare_link], [release_date].
    "Any text" is a run of [.], which stops at a line terminator. *)
Definition sectionLimitPattern : regex :=
  Ahead (cat [ Chr nl; hashesPattern; Str " [";
               Rep dot 0 None true; Str "](";
               Rep dot 0 None true; Str ") (";
               Rep dot 0 None false; Str ")" ]).

Definition titlePattern : regex :=
  cat [ hashesPattern; Str " [";
        Grp "version" (Rep dot 0 None false); Str "](";
        Grp "compare_link" (Rep dot 0 None false); Str ") (";
        Grp "release_date" (Rep dot 0 None false); Str ")" ].

(** Line 46: [## Committers: ], a digit, then everything (flag [s]).
    Line 49: [- ] and the rest of the line (flag [g]).
    Line 53: [- ], optionally a lazy text [name] followed by [ (], then
    [[@], a greedy text [alias], [](], a lazy text [url], [)], and
    optionally one more [)]. *)
Definition committersPattern : regex :=
  cat [ Str "## Committers: "; Cls digit; Rep dotAll 0 None true ].

Definition bulletPattern : regex :=
  cat [ Str "- "; Rep dot 0 None true ].

Definition committerPattern : regex :=
  cat [ Str "- ";
        Opt (cat [ Grp "name" (Rep dot 0 None false); Str " (" ]);
        Str "[@"; Grp "alias" (Rep dot 0 None true); Str "](";
        Grp "url" (Rep dot 0 None false); Str ")";
        Opt (Chr 41) ].

(** Line 89: three [#] and optionally a fourth (flag [g]). *)
Definition subHeadingPattern : regex :=
  cat [ Str "###"; Opt (Chr 35) ].

(** A named group of a match; a group that took no part reads as the
    empty text here (the groups read this way take part in every match
    of their pattern). *)
Definition groupOf (r : MatchResult) (n : string) : str :=
  default [] (group n (groups r)).

(** One line of the committers block: [line.match(...).groups] mapped to
    the author object.  [None] when the line does not match, where the
    source reads [.groups] of [null] and raises. *)
Definition parseCommitter (line : str) : option Committer :=
  match search committerPattern line with
  | None => None
  | Some r =>
      Some {| name := match group "name" (groups r) with
                      | Some n => n
                      | None => groupOf r "alias"
                      end;
              alias := groupOf r "alias";
              url := groupOf r "url";
              imageURL := lit "https://github.com/" ++ groupOf r "alias" ++ lit ".png" |}
  end.

(** [authors.sort((a, b) => a.url.localeCompare(b.url))]: the sort is
    stable. *)
Fixpoint insertBy `{Collation} (x : Committer) (l : list Committer) : list Committer :=
  match l with
  | [] => [x]
  | y :: l' =>
      match localeCompare (url x) (url y) with
      | Gt => y :: insertBy x l'
      | _ => x :: l
      end
  end.

Definition sortByUrl `{Collation} (l : list Committer) : list Committer :=
  foldr insertBy [] l.

(** Lines 46 to 61: the committers of a section, [None] when the section
    has no committers block. *)
Definition parseAuthors `{Collation} (content : str) : outcome (option (list Committer)) :=
  match search committersPattern content with
  | None => Ok None
  | Some block =>
      match matchAll bulletPattern (matched block) with
      | None => TypeError                      (* null.map *)
      | Some lines =>
          match mapM parseCommitter lines with
          | None => TypeError                  (* null.groups *)
          | Some cs => Ok (Some (sortByUrl cs))
          end
      end
  end.

(** [authorsMap[k] = v] on an ordinary object: the key [__proto__] is the
    accessor of [Object.prototype], which sets the prototype and creates
    no own property. *)
Definition protoKey : str := lit "__proto__".

Definition setProp (o : gmap str Committer) (k : str) (v : Committer)
    : gmap str Committer :=
  if bool_decide (k = protoKey) then o else <[k := v]> o.

(** Lines 63 to 65: [authors.forEach(...)], when there are authors. *)
Definition registered (o : gmap str Committer)
    (authors : option (list Committer)) : gmap str Committer :=
  foldl (λ o author, setProp o (alias author) author) o (default [] authors).

Definition registerAuthors (authors : option (list Committer)) : M unit :=
  λ st,
    (Ok (),
     {| publishTimes := publishTimes st;
        authorsMap := registered (authorsMap st) authors |}).

(** [`${date}T${hour}:00`] *)
Definition stamp (date : str) (hour : Z) : str :=
  date ++ lit "T" ++ showZ hour ++ lit ":00".

(** Lines 69 to 71: the [while] loop, with fuel. *)
Fixpoint findHour (fuel : nat) (times : gset str) (date : str) (hour : Z)
    : option Z :=
  match fuel with
  | O => None
  | S fuel' =>
      if bool_decide (stamp date hour ∈ times)
      then findHour fuel' times date (hour - 1)
      else Some hour
  end.

(** Lines 67 to 72.  The loop leaves after at most [size publishTimes]
    steps (lemma [findHour_total]). *)
Definition assignHour (date : str) : M Z :=
  λ st,
    match findHour (S (size (publishTimes st))) (publishTimes st) date 20 with
    | None => (OutOfFuel, st)
    | Some hour =>
        (Ok hour,
         {| publishTimes := {[ stamp date hour ]} ∪ publishTimes st;
            authorsMap := authorsMap st |})
    end.

(** The local variables of [processSection] at its [return]. *)
Record Locals := {
  title : str;
  diffLink : str;
  content : str;
  authors : option (list Committer);
  hour : Z;
  date : str
}.

(** The object [{title, content}] that [processSection] returns. *)
Record Doc := { docTitle : str; docContent : str }.

Definition authorsMarkdown (authors : option (list Committer)) : str :=
  match authors with
  | None => []
  | Some l =>
      lit "authors:" ++ NL ++
      join NL (map (λ author, lit "  - '" ++ alias author ++ lit "'") l)
  end.

(** Lines 74 to 91 *)
Definition render (v : Locals) : Doc :=
  {| docTitle := title v;
     docContent :=
       join NL
         (List.filter (λ s, negb (isEmpty s))
            [ lit "---";
              lit "date: " ++ date v ++ lit "T" ++ showZ (hour v) ++ lit ":00";
              lit "title: " ++ title v;
              authorsMarkdown (authors v);
              lit "---";
              lit "# " ++ title v;
              lit "<!-- truncate -->";
              lit "[code diff](" ++ diffLink v ++ lit ")";
              replaceAll subHeadingPattern (lit "##") (content v) ]) |}.

(** [processSection] up to its [return]: [None] stands for [null]. *)
Definition processLocals `{Collation} (section : str) : M (option Locals) :=
  match search (Seq (Chr nl) titlePattern) section with
  | None => ret None
  | Some titleLineMatch =>
      if isEmpty (matched titleLineMatch) then ret None
      else
        let title := groupOf titleLineMatch "version" in
        let diffLink := groupOf titleLineMatch "compare_link" in
        let content := trim (replaceStr (matched titleLineMatch) [] section) in
        match parseAuthors content with
        | Ok authors =>
            _ ← registerAuthors authors;
            let date := groupOf titleLineMatch "release_date" in
            hour ← assignHour date;
            ret (Some {| title := title; diffLink := diffLink;
                         content := content; authors := authors;
                         hour := hour; date := date |})
        | _ => raise
        end
  end.

Definition processSection `{Collation} (section : str) : M (option Doc) :=
  v ← processLocals section; ret (render <$> v).

(** [sections.map(f)]: the calls in order, stopping at the first
    exception. *)
Fixpoint mapM_ {A B} (f : A → M B) (l : list A) : M (list B) :=
  match l with
  | [] => ret []
  | x :: l' => y ← f x; ys ← mapM_ f l'; ret (y :: ys)
  end.

(** Lines 113 to 117 *)
Definition sanitise (fileContent : str) : str :=
  replaceStr (lit "@serenity-js/") (lit "@serenity-js/")
    (replaceAll (Chr 62) (lit "&gt;")
       (replaceAll (Chr 60) (lit "&lt;") fileContent)).

(** What one call of [loadContent] writes: one file per section, named
    after its title, and [authors.json]. *)
Record Output := {
  sections : list Doc;
  authorsJson : gmap str Committer
}.

(** Lines 112 to 132, on the text read from [CHANGELOG.md] *)
Definition loadLocals `{Collation} (fileContent : str) : M (list Locals) :=
  vs ← mapM_ processLocals (split sectionLimitPattern (sanitise fileContent));
  ret (omap id vs).

Definition loadContent `{Collation} (fileContent : str) : M Output :=
  docs ← mapM_ processSection (split sectionLimitPattern (sanitise fileContent));
  (λ st, (Ok {| sections := omap id docs; authorsJson := authorsMap st |}, st)) : M Output.

(** *** Vocabulary of the statements below *)

(** The time stamp of a section, and "the committers block of the section
    names the alias". *)
Definition stampOf (v : Locals) : str := stamp (date v) (hour v).

Definition names (a : str) (v : Locals) : Prop :=
  ∃ c, c ∈ default [] (authors v) ∧ alias c = a.

(** A committer line without and with a display name, in the format that
    the pattern of line 53 reads, and the author object made from it. *)
Definition bareLine (a u : str) : str :=
  lit "- [@" ++ a ++ lit "](" ++ u ++ lit ")".

Definition namedLine (n a u : str) : str :=
  lit "- " ++ n ++ lit " ([@" ++ a ++ lit "](" ++ u ++ lit "))".

Definition committer (n a u : str) : Committer :=
  {| name := n; alias := a; url := u;
     imageURL := lit "https://github.com/" ++ a ++ lit ".png" |}.

(** A text without line terminators and without parentheses. *)
Definition plain (s : str) : bool :=
  forallb (λ c, dot c && negb (c =? 40) && negb (c =? 41)) s.

(** A committer line of the format, and the author object it stands for. *)
Inductive lineOf : str → Committer → Prop :=
| lineOf_bare a u :
    plain a = true → plain u = true →
    lineOf (bareLine a u) (committer a a u)
| lineOf_named n a u :
    plain n = true → plain a = true → plain u = true →
    lineOf (namedLine n a u) (committer n a u).

(** A committers block: its heading with the first digit of the count,
    and its lines. *)
Definition committersBlock (d : char) (ls : list str) : str :=
  lit "## Committers: " ++ d :: concat ((λ l, nl :: l) <$> ls).

(** A release section as the changelog writes it: a line feed, the heading
    (one to three [#], the version, the compare link and the release date),
    and the text up to the next release. *)
Record Release := {
  level : nat;
  version : str;
  link : str;
  released : str;
  body : str
}.

Definition hashes (n : nat) : str := repeat 35 n.

Definition headingOf (n : nat) (v l d : str) : str :=
  hashes n ++ lit " [" ++ v ++ lit "](" ++ l ++ lit ") (" ++ d ++ lit ")".

Definition heading (r : Release) : str :=
  headingOf (level r) (version r) (link r) (released r).

Definition sectionText (r : Release) : str := nl :: heading r ++ body r.

(** A text of a heading: no line terminator, no closing bracket or
    parenthesis, no angle bracket. *)
Definition field (s : str) : bool :=
  forallb (λ c, dot c && negb (c =? 93) && negb (c =? 41)
                && negb (c =? 60) && negb (c =? 62)) s.

(** The text begins like a release heading: one to three [#], a space and
    an opening bracket. *)
Definition headingStart (t : str) : bool :=
  bool_decide (is_Some (stripPrefix (lit "# [") t))
  || bool_decide (is_Some (stripPrefix (lit "## [") t))
  || bool_decide (is_Some (stripPrefix (lit "### [") t)).

(** No line feed of the text is followed by the beginning of a release
    heading. *)
Fixpoint quiet (s : str) : bool :=
  match s with
  | [] => true
  | x :: s' => (negb (x =? nl) || negb (headingStart s')) && quiet s'
  end.

(** The text is empty, or does not begin with a line feed, or what follows
    the line feed does not begin like a release heading. *)
Definition silent (t : str) : bool :=
  match t with
  | [] => true
  | x :: t' => negb (x =? nl) || negb (headingStart t')
  end.

(** A piece of the split: after a line feed where the section limit is
    found, quiet text up to the next piece. *)
Definition piece (T : str) : Prop :=
  quiet T = true
  ∧ ∀ rest, ∃ c, exec sectionLimitPattern (nl :: T ++ rest) = Some ([], c).

(** What [sanitise] does to a text: the angle brackets become entities. *)
Definition escape (s : str) : str :=
  flat_map (λ c, if c =? 60 then lit "&lt;"
                 else if c =? 62 then lit "&gt;" else [c]) s.

(** The fields of a release are those of the heading pattern, and its body
    brings no further heading. *)
Definition headed (r : Release) : Prop :=
  (1 ≤ level r ≤ 3)%nat
  ∧ field (version r) = true ∧ field (link r) = true
  ∧ field (released r) = true ∧ quiet (body r) = true.

(** Moreover the committers block of the body, if there is one, has lines
    of the format of line 53. *)
Definition wellFormed `{Collation} (r : Release) : Prop :=
  headed r ∧ parseAuthors (trim (escape (body r))) ≠ TypeError.

(** The correspondence between a release of the changelog and the locals
    of [processSection] on its section. *)
Definition reads (r : Release) (w : Locals) : Prop :=
  title w = version r ∧ diffLink w = link r ∧ date w = released r
  ∧ content w = trim (escape (body r)).

(** A collation for the examples: the order of the code units. *)
Fixpoint compareStr (a b : str) : comparison :=
  match a, b with
  | [], [] => Eq
  | [], _ :: _ => Lt
  | _ :: _, [] => Gt
  | x :: a', y :: b' =>
      match x ?= y with
      | Eq => compareStr a' b'
      | o => o
      end
  end.

Definition codeUnitOrder : Collation := compareStr.

(** A text given by its lines, each one after a line feed. *)
Definition lines (ls : list string) : str :=
  concat (map (λ l, nl :: lit l) ls).

(** Changelogs for the examples. *)
Definition changelogAlice : str :=
  lines [ "## [1.0.0](https://x/compare/a...b) (2020-01-01)"; EmptyString;
          "#### Committers: 1"; "- [@alice](https://github.com/alice)" ].

Definition changelogNotes : str :=
  lines [ "## [2.0.0](https://x/compare/b...c) (2021-01-01)"; EmptyString;
          "notes" ].

Definition changelogProto : str :=
  lines [ "## [1.0.1](https://x/compare/b...c) (2020-01-02)"; EmptyString;
          "#### Committers: 1"; "- [@__proto__](https://github.com/__proto__)";
          "## [1.0.0](https://x/compare/a...b) (2020-01-01)"; EmptyString;
          "#### Committers: 1"; "- [@__proto__](https://github.com/__proto__)" ].

(** A release whose committers block has the two lines of the format;
    one whose lines are as the specification writes them (no [@], no
    parentheses around the link); one whose block has no line at all. *)
Definition changelogCommitters : str :=
  lines [ "## [1.0.0](https://x/compare/a...b) (2020-01-01)"; EmptyString;
          "#### Committers: 2";
          "- Bob Builder ([@bob](https://github.com/bob))";
          "- [@alice](https://github.com/alice)" ].

Definition changelogNoAt : str :=
  lines [ "## [1.0.0](https://x/compare/a...b) (2020-01-01)"; EmptyString;
          "#### Committers: 1"; "- [alice](https://github.com/alice)" ].

Definition changelogNoParens : str :=
  lines [ "## [1.0.0](https://x/compare/a...b) (2020-01-01)"; EmptyString;
          "#### Committers: 1"; "- Alice [@alice](https://github.com/alice)" ].

Definition changelogNoLines : str :=
  lines [ "## [1.0.0](https://x/compare/a...b) (2020-01-01)"; EmptyString;
          "#### Committers: 0" ].

(** Two releases, the second with a committers block, and the text of a
    changelog that begins with a heading right away. *)
Definition releaseB : Release :=
  {| level := 2; version := lit "1.0.1";
     link := lit "https://x/compare/b...c"; released := lit "2020-01-02";
     body := lines [ EmptyString; "### Bug Fixes"; EmptyString; "* a <fix>" ] |}.

Definition releaseA : Release :=
  {| level := 1; version := lit "1.0.0";
     link := lit "https://x/compare/a...b"; released := lit "2020-01-01";
     body := lines [ EmptyString; "#### Committers: 1";
                     "- [@alice](https://github.com/alice)" ] |}.

Definition changelogNoLineFeed : str :=
  lit "## [1.0.1](https://x/compare/b...c) (2020-01-02)"
  ++ lines [ "fix"; "## [1.0.0](https://x/compare/a...b) (2020-01-01)"; "first" ].

Definition changelogTwice : str :=
  lines [ "## [1.0.0](https://x/compare/b...c) (2020-01-02)"; "again";
          "## [1.0.0](https://x/compare/a...b) (2020-01-01)"; "first" ].

(** The example of the specification, and a changelog in which two
    sections name the same alias. *)
Definition changelogExample : str :=
  lines [ "## [1.0.1](https://x/compare/a...b) (2020-01-01)"; EmptyString;
          "some notes"; EmptyString ].

Definition changelogAliceTwice : str :=
  lines [ "## [1.0.1](https://x/compare/b...c) (2020-01-02)"; EmptyString;
          "#### Committers: 1"; "- Alice A ([@alice](https://github.com/alice))";
          "## [1.0.0](https://x/compare/a...b) (2020-01-01)"; EmptyString;
          "#### Committers: 1"; "- [@alice](https://github.com/alice)" ].

Definition changelogSameDay : str :=
  lines [ "## [1.0.2](https://x/compare/c...d) (2020-01-01)"; "fix";
          "## [1.0.1](https://x/compare/b...c) (2020-01-01)"; "fix";
          "## [1.0.0](https://x/compare/a...b) (2020-01-01)"; "first" ].

(** *** The list pages (lines 134 to 141) *)

(** [options.postsPerPage]: a number of posts, or the text ['ALL']. *)
Inductive PostsPerPage := Count (n : N) | All.

(** The values of [Math.floor(index / options.postsPerPage)] for the index
    of an array element: the integral quotient for a positive number of
    posts (the division of two integers below 2^32 is exact up to its
    floor), [Infinity] or [NaN] for zero, [NaN] for the text. *)
Inductive number := Finite (n : N) | Infinity | NaN.

Definition pageIndex (index : N) (postsPerPage : PostsPerPage) : number :=
  match postsPerPage with
  | Count n =>
      if n =? 0 then (if index =? 0 then NaN else Infinity)
      else Finite (index / n)
  | All => NaN
  end.

(** Line 139, the last part of the link of a post to its list page:
    [pageIndex === 0 ? '/' : `/page/${pageIndex + 1}`]. *)
Definition listPagePath (index : N) (postsPerPage : PostsPerPage) : str :=
  match pageIndex index postsPerPage with
  | Finite 0 => lit "/"
  | Finite k => lit "/page/" ++ showZ (Z.of_N (k + 1))
  | Infinity => lit "/page/Infinity"
  | NaN => lit "/page/NaN"
  end.

(** *** Further vocabulary *)

(** The module-level state after a series of calls of [loadContent] in
    one process, each returning or raising. *)
Definition calls `{Collation} (files : list str) (st : State) : State :=
  foldl (λ st file, (loadContent file st).2) st files.

(** The committers block of the section names the alias, and: some
    section of the changelog does. *)
Definition sectionNames `{Collation} (a : str) (section : str) : Prop :=
  ∃ st v st', processLocals section st = (Ok (Some v), st') ∧ names a v.

Definition mentions `{Collation} (a : str) (fileContent : str) : Prop :=
  ∃ section, section ∈ split sectionLimitPattern (sanitise fileContent)
    ∧ sectionNames a section.

(** A release of the same day as [releaseA]. *)
Definition releaseSameDay : Release :=
  {| level := 2; version := lit "1.0.1";
     link := lit "https://x/compare/b...c"; released := lit "2020-01-01";
     body := lines [ "fix" ] |}.

(** A bullet line: [- ] and a text without line terminators. *)
Definition bullet (l : str) : Prop :=
  ∃ t, l = lit "- " ++ t ∧ forallb dot t = true.

(** The entries of the registry stand under their alias and carry the
    picture of that alias. *)
Definition keyed (o : gmap str Committer) : Prop :=
  ∀ k c, o !! k = Some c →
    alias c = k ∧ imageURL c = lit "https://github.com/" ++ k ++ lit ".png".

(** What line 89 leaves of a run of [n] hash signs: two for every four of
    them, two for three that remain, and one or two that remain as they
    are. *)
Definition demoted (n : nat) : nat :=
  (2 * (n / 4) + (if (n mod 4 =? 3)%nat then 2 else n mod 4))%nat.

End Changelog.

(** ** The API index ([components/ApiIndex.tsx]) *)

Module ApiIndex.
Import Regex.

(** The fields read of [PropVersionMetadata] and [GlobalVersion]. *)
Record PropVersionMetadata := { version : str }.
Record GlobalVersion := { name : str }.

(** Line 33: [api/] followed by one or more digits or dots (a group). *)
Definition versionedPattern : regex :=
  cat [ Str "api/";
        Grp "1" (Rep (λ c, digit c || isChr 46 c) 1 None true) ].

(** Lines 27 to 48.  [preferredVersion] is an object, [null] or
    [undefined]; [None] stands for the last two. *)
Definition addVersionToUrl (url : str) (latestVersion : PropVersionMetadata)
    (preferredVersion : option GlobalVersion) : str :=
  match preferredVersion with
  | Some preferred =>
      if negb (bool_decide (is_Some (search versionedPattern url)))
         && negb (includes (lit "api/next") url)
         && negb (bool_decide (name preferred = version latestVersion))
      then
        let version :=
          if bool_decide (name preferred = lit "current") then lit "next"
          else name preferred in
        if endsWith (lit "/api") url then url ++ lit "/" ++ version
        else replaceStr (lit "/api/") (lit "/api/" ++ version ++ lit "/") url
      else url
  | None => url
  end.

(** The part of [packages] that the effect reads. *)
Record Reflection := { permalink : str }.
Record EntryPoint := { reflection : Reflection }.
Record PackageReflectionGroup := { entryPoints : list EntryPoint }.

(** [history]: the current path, the paths [history.replace] was called
    with, in order, and the router behind it.  [history.replace] is the
    router's function: what it makes of the current path is not decided
    by the source, so it is a field of the object, [moved current path]. *)
Record History := {
  pathname : str;
  replaced : list str;
  moved : str → str → str
}.

Definition replace (path : str) (history : History) : History :=
  {| pathname := moved history (pathname history) path;
     replaced := replaced history ++ [path];
     moved := moved history |}.

(** Lines 58 to 73, the body of the effect: [None] when it raises
    (reading [.reflection] of a missing first entry point). *)
Definition effect (packages : list PackageReflectionGroup)
    (latestVersion : PropVersionMetadata)
    (preferredVersion : option GlobalVersion)
    (history : History) : option History :=
  match packages with
  | [pkg] =>
      match entryPoints pkg with
      | entryPoint :: _ =>
          Some (replace
                  (addVersionToUrl (permalink (reflection entryPoint))
                     latestVersion preferredVersion)
                  history)
      | [] => None
      end
  | _ =>
      match preferredVersion with
      | Some _ =>
          Some (replace
                  (addVersionToUrl (pathname history)
                     latestVersion preferredVersion)
                  history)
      | None => Some history
      end
  end.

(** Vocabulary of the statements below: the path segment that stands for a
    preferred version (line 38), and the first two tests of the guard of
    [addVersionToUrl] (lines 33 and 34): the address already names a
    version. *)
Definition segment (preferred : GlobalVersion) : str :=
  if bool_decide (name preferred = lit "current") then lit "next"
  else name preferred.

Definition versioned (url : str) : bool :=
  bool_decide (is_Some (search versionedPattern url))
  || includes (lit "api/next") url.

Definition digitOrDot (c : char) : bool := digit c || isChr 46 c.

(** A segment that the guard recognises once it stands after [api/]: it
    begins with a digit or a dot, or with [next]. *)
Definition recognised (v : str) : bool :=
  match v with c :: _ => digitOrDot c | [] => false end
  || bool_decide (is_Some (stripPrefix (lit "next") v)).

Definition recognisable (preferred : option GlobalVersion) : bool :=
  match preferred with
  | Some p => recognised (segment p)
  | None => true
  end.

(** *** Heading identifiers (lines 50 to 52) *)

(** [String.prototype.toLocaleLowerCase] depends on the host's locale and
    on the case tables of Unicode; it is an interface of the model. *)
Class Casing := toLocaleLowerCase : str → str.

(** Line 51: one or more white space characters (flag [g]); the class [\s]
    is WhiteSpace or LineTerminator. *)
Definition whiteSpacePattern : regex := Rep isWhiteSpace 1 None true.

Definition headingId `{Casing} (text : str) : str :=
  replaceAll whiteSpacePattern (lit "-") (toLocaleLowerCase text).

(** Vocabulary: the text with every run of white space turned into one
    dash; [inRun] tells that the previous character was white space. *)
Fixpoint dashed (inRun : bool) (s : str) : str :=
  match s with
  | [] => []
  | x :: s' =>
      if isWhiteSpace x then
        if inRun then dashed true s' else 45 :: dashed true s'
      else x :: dashed false s'
  end.

(** A casing for the examples: the letters A to Z to lower case. *)
Definition asciiLowerCase : Casing :=
  map (λ c, if (65 <=? c) && (c <=? 90) then c + 32 else c).

End ApiIndex.

(** * Properties *)

(** ** Strings *)

(** Literals of the source, as their code units. *)
Ltac lits :=
  repeat match goal with
  | |- context [lit ?s] =>
      let v := eval vm_compute in (lit s) in change (lit s) with v
  | H : context [lit ?s] |- _ =>
      let v := eval vm_compute in (lit s) in change (lit s) with v in H
  end.

#[local] Arguments N.eqb : simpl nomatch.

Module StringFacts.

Lemma lit_app s1 s2 : lit (s1 +:+ s2) = lit s1 ++ lit s2.
Proof. induction s1 as [|a s1 IH]; simpl; [done | by rewrite IH]. Qed.

Lemma lit_inj s1 s2 : lit s1 = lit s2 → s1 = s2.
Proof.
  revert s2. induction s1 as [|a s1 IH]; intros [|b s2]; simpl; try done.
  intros [= Hab Hs]. f_equal; [|by apply IH].
  by rewrite <- (ascii_N_embedding a), <- (ascii_N_embedding b), Hab.
Qed.

Lemma stripPrefix_Some p s r : stripPrefix p s = Some r ↔ s = p ++ r.
Proof.
  revert s. induction p as [|a p IH]; intros s; simpl.
  - split; [intros [= ->]; done | intros ->; done].
  - destruct s as [|x s]; [split; [done | intros [=]]|].
    destruct (N.eqb_spec x a) as [->|Hne].
    + rewrite IH. split; [intros ->; done | intros [= ->]; done].
    + split; [done | intros [= ? ?]; done].
Qed.

Lemma stripPrefix_app p r : stripPrefix p (p ++ r) = Some r.
Proof. by apply stripPrefix_Some. Qed.

Lemma findSub_Some pat s b a : findSub pat s = Some (b, a) → s = b ++ pat ++ a.
Proof.
  revert b a. induction s as [|x s IH]; intros b a; simpl.
  - destruct (stripPrefix pat []) eqn:E; [|done].
    intros [= <- <-]. by apply stripPrefix_Some in E.
  - destruct (stripPrefix pat (x :: s)) eqn:E.
    + intros [= <- <-]. by apply stripPrefix_Some in E.
    + destruct (findSub pat s) as [[b' a']|] eqn:F; [|done].
      intros [= <- <-]. by rewrite (IH b' a' eq_refl).
Qed.

(** [findSub] finds the first occurrence: the pattern does not start
    anywhere inside of what precedes it. *)
Lemma findSub_first pat s b a :
  findSub pat s = Some (b, a) →
  ∀ b1 b2, b = b1 ++ b2 → b2 ≠ [] → stripPrefix pat (b2 ++ pat ++ a) = None.
Proof.
  revert b a. induction s as [|x s IH]; intros b a; simpl.
  - destruct (stripPrefix pat []) eqn:E; [|done].
    intros [= <- <-] b1 b2 Hb. by destruct b1, b2.
  - destruct (stripPrefix pat (x :: s)) eqn:E.
    { intros [= <- <-] b1 b2 Hb. by destruct b1, b2. }
    destruct (findSub pat s) as [[b' a']|] eqn:F; [|done].
    intros [= <- <-] b1 b2 Hb Hne.
    destruct b1 as [|y b1]; simpl in Hb.
    + subst b2. simpl. by rewrite <- (findSub_Some _ _ _ _ F).
    + injection Hb as -> Hb. by eapply IH.
Qed.

Lemma findSub_app pat b a : is_Some (findSub pat (b ++ pat ++ a)).
Proof.
  induction b as [|x b IH]; simpl.
  - destruct (pat ++ a) eqn:E; simpl; rewrite <- ?E, stripPrefix_app; eauto.
  - destruct (stripPrefix pat (x :: b ++ pat ++ a)); [eauto|].
    destruct IH as [[b' a'] ->]. eauto.
Qed.

Lemma includes_app pat b a : includes pat (b ++ pat ++ a) = true.
Proof. unfold includes. by destruct (findSub_app pat b a) as [? ->]. Qed.

Lemma endsWith_true suf s : endsWith suf s = true ↔ ∃ w, s = w ++ suf.
Proof.
  unfold endsWith. split.
  - destruct (stripPrefix (rev suf) (rev s)) as [r|] eqn:E; [|done].
    intros _. apply stripPrefix_Some in E. exists (rev r).
    apply (f_equal (@rev N)) in E.
    by rewrite rev_involutive, rev_app_distr, rev_involutive in E.
  - intros [w ->]. by rewrite rev_app_distr, stripPrefix_app.
Qed.

(** A replacement text without dollar signs is inserted as it is. *)
Lemma getSubstitution_plain matched before after repl :
  Forall (λ x, x ≠ 36) repl →
  getSubstitution matched before after repl = repl.
Proof.
  induction 1 as [|x r Hx _ IH]; simpl; [done|].
  destruct (N.eqb_spec x 36); [done | by rewrite IH].
Qed.

Lemma getSubstitution_app_plain matched before after r1 r2 :
  Forall (λ x, x ≠ 36) r1 →
  getSubstitution matched before after (r1 ++ r2)
  = r1 ++ getSubstitution matched before after r2.
Proof.
  induction 1 as [|x r Hx _ IH]; simpl; [done|].
  destruct (N.eqb_spec x 36); [done | by rewrite IH].
Qed.

Lemma findSub_None pat s :
  findSub pat s = None ↔ ∀ pre suf, s = pre ++ suf → stripPrefix pat suf = None.
Proof.
  induction s as [|x s IH]; simpl.
  - destruct (stripPrefix pat []) eqn:E.
    + split; [done|]. intros Hs. by rewrite (Hs [] []) in E.
    + split; [|done]. intros _ pre suf Hs. symmetry in Hs.
      by apply app_eq_nil in Hs as [-> ->].
  - destruct (stripPrefix pat (x :: s)) eqn:E.
    + split; [done|]. intros Hs. by rewrite (Hs [] (x :: s)) in E.
    + destruct (findSub pat s) as [[b a]|] eqn:F.
      * split; [done|]. intros Hs. destruct IH as [_ IH].
        assert (Some (b, a) = None) as Hbad; [|done].
        apply IH. intros pre suf ->. by apply (Hs (x :: pre)).
      * split; [|done]. intros _ [|y pre] suf Hs; simpl in Hs; [by subst|].
        injection Hs as -> ->. destruct IH as [IH _]. by eapply IH.
Qed.

(** Two characters [d1 d2] do not occur in [a ++ t] when [d2] is not in [a],
    [t] does not begin with [d2], and they do not occur in [t]. *)
Lemma findSub_pair_app d1 d2 a t :
  (∀ x, x ∈ a → x ≠ d2) → head t ≠ Some d2 →
  findSub [d1; d2] t = None → findSub [d1; d2] (a ++ t) = None.
Proof.
  intros Ha Ht Hf. induction a as [|x a IH]; [done|].
  simpl. rewrite IH by (intros y Hy; apply Ha; by right).
  destruct (x =? d1); [|done].
  destruct (a ++ t) as [|y r] eqn:E; [done|].
  destruct (N.eqb_spec y d2) as [->|]; [|done]. exfalso.
  destruct a as [|y' a]; simpl in E.
  - subst t. by apply Ht.
  - injection E as -> _. apply (Ha d2); [by right; left | done].
Qed.

End StringFacts.

(** ** The matcher *)

Module RegexFacts.
Import Regex StringFacts.

Lemma searchFrom_index r i j s :
  is_Some (searchFrom r i s) → is_Some (searchFrom r j s).
Proof.
  revert i j. induction s as [|x s IH]; intros i j; simpl;
    destruct (exec r _) as [[m0 c]|]; eauto.
Qed.

Lemma searchFrom_None r i s :
  searchFrom r i s = None ↔ ∀ pre suf, s = pre ++ suf → exec r suf = None.
Proof.
  revert i. induction s as [|x s IH]; intros i; simpl.
  - destruct (exec r []) as [[m0 c]|] eqn:E.
    + split; [done | intros H; by rewrite (H [] []) in E].
    + split; [|done]. intros _ pre suf Hs.
      symmetry in Hs. by apply app_eq_nil in Hs as [-> ->].
  - destruct (exec r (x :: s)) as [[m0 c]|] eqn:E.
    + split; [done | intros H; by rewrite (H [] (x :: s)) in E].
    + rewrite IH. split.
      * intros H [|y pre] suf Hs; simpl in Hs; [by subst|].
        injection Hs as -> ->. by eapply H.
      * intros H pre suf ->. by apply (H (x :: pre)).
Qed.

Lemma search_None r s :
  search r s = None ↔ ∀ pre suf, s = pre ++ suf → exec r suf = None.
Proof. apply searchFrom_None. Qed.

(** A match somewhere in the text makes the search succeed. *)
Lemma search_app r pre s : is_Some (exec r s) → is_Some (search r (pre ++ s)).
Proof.
  intros [x Hx]. destruct (search r (pre ++ s)) eqn:E; [eauto|].
  rewrite search_None in E. by rewrite (E pre s) in Hx.
Qed.

(** The search returns the match at the first index where there is one. *)
Lemma search_here r s m0 c :
  exec r s = Some (m0, c) →
  search r s = Some {| matched := m0; groups := c; index := 0 |}.
Proof. unfold search. destruct s; simpl; by intros ->. Qed.

Lemma repGreedy_total p hi k inp c :
  (∀ inp' c', is_Some (k inp' c')) → is_Some (repGreedy p hi k inp c).
Proof.
  intros Hk. revert hi. induction inp as [|x xs IH]; intros hi; simpl; [done|].
  destruct (more hi && p x); [|done].
  destruct (repGreedy p (less hi) k xs c); eauto.
Qed.

Lemma m_Str s k inp c :
  m (Str s) k inp c =
  match stripPrefix (lit s) inp with Some rest => k rest c | None => None end.
Proof.
  revert inp. induction s as [|a s IH]; intros inp; simpl; [done|].
  destruct inp as [|x inp]; [done|]. destruct (x =? N_of_ascii a); [apply IH | done].
Qed.

Lemma m_Str_app s k rest c : m (Str s) k (lit s ++ rest) c = k rest c.
Proof. by rewrite m_Str, stripPrefix_app. Qed.

Lemma m_cat_cons r rs k inp c : m (cat (r :: rs)) k inp c = m r (m (cat rs) k) inp c.
Proof. done. Qed.

Lemma m_cat_nil k inp c : m (cat []) k inp c = k inp c.
Proof. done. Qed.

Lemma m_cat_Str_None s rs k inp c :
  stripPrefix (lit s) inp = None → m (cat (Str s :: rs)) k inp c = None.
Proof. intros Hs. by rewrite m_cat_cons, m_Str, Hs. Qed.

Lemma m_star p g k inp c :
  m (Rep p 0 None g) k inp c = (if g then repGreedy else repLazy) p None k inp c.
Proof. done. Qed.

Lemma repLazy_stop p k a rest c res :
  forallb p a = true → k rest c = Some res →
  (∀ a1 x a2, a = a1 ++ x :: a2 → k (x :: a2 ++ rest) c = None) →
  repLazy p None k (a ++ rest) c = Some res.
Proof.
  induction a as [|x a IH]; intros Ha Hk Hfail; simpl.
  - destruct rest; simpl; by rewrite Hk.
  - apply andb_true_iff in Ha as [Hx Ha].
    rewrite (Hfail [] x a eq_refl), Hx. simpl. apply IH; [done..|].
    intros a1 y a2 ->. by apply (Hfail (x :: a1)).
Qed.

Lemma repGreedy_fallback p hi k inp c :
  (∀ e r', inp = e ++ r' → e ≠ [] → forallb p e = true → k r' c = None) →
  repGreedy p hi k inp c = k inp c.
Proof.
  revert hi. induction inp as [|x inp IH]; intros hi Hfail; simpl; [done|].
  destruct (more hi && p x) eqn:Hx; [|done].
  apply andb_true_iff in Hx as [_ Hx].
  assert (forallb p [x] = true) as Hx1 by (simpl; by rewrite Hx).
  rewrite IH.
  - by rewrite (Hfail [x] inp eq_refl).
  - intros e r' -> He Hp. apply (Hfail (x :: e)); [done..|]. simpl. by rewrite Hx.
Qed.

Lemma repGreedy_stop p k a rest c res :
  forallb p a = true → k rest c = Some res →
  (∀ e r', rest = e ++ r' → e ≠ [] → forallb p e = true → k r' c = None) →
  repGreedy p None k (a ++ rest) c = Some res.
Proof.
  induction a as [|x a IH]; intros Ha Hk Hfail; simpl.
  - by rewrite repGreedy_fallback.
  - apply andb_true_iff in Ha as [Hx Ha]. rewrite Hx. simpl.
    by rewrite IH.
Qed.

Lemma repGreedy_Some p hi k inp c :
  is_Some (k inp c) → is_Some (repGreedy p hi k inp c).
Proof.
  intros Hk. destruct inp as [|x inp]; simpl; [done|].
  destruct (more hi && p x); [|done]. by destruct (repGreedy p (less hi) k inp c).
Qed.

Lemma repGreedy_reach p k a rest c :
  forallb p a = true → is_Some (k rest c) →
  is_Some (repGreedy p None k (a ++ rest) c).
Proof.
  induction a as [|x a IH]; intros Ha Hk; simpl.
  - by apply repGreedy_Some.
  - apply andb_true_iff in Ha as [Hx Ha]. rewrite Hx. simpl.
    by destruct (IH Ha Hk) as [r ->].
Qed.

Lemma repLazy_reach p k a rest c :
  forallb p a = true → is_Some (k rest c) →
  is_Some (repLazy p None k (a ++ rest) c).
Proof.
  induction a as [|x a IH]; intros Ha Hk; simpl.
  - destruct Hk as [r Hr]. destruct rest; simpl; by rewrite Hr.
  - apply andb_true_iff in Ha as [Hx Ha]. rewrite Hx. simpl.
    destruct (k (x :: a ++ rest) c); [done | by apply IH].
Qed.

Lemma repLazy_None p hi k inp c :
  (∀ pre suf, inp = pre ++ suf → k suf c = None) →
  repLazy p hi k inp c = None.
Proof.
  revert hi. induction inp as [|x inp IH]; intros hi Hfail; simpl.
  - by rewrite (Hfail [] []).
  - rewrite (Hfail [] (x :: inp) eq_refl). destruct (more hi && p x); [|done].
    apply IH. intros pre suf ->. by apply (Hfail (x :: pre)).
Qed.

Lemma take_app_length' (a rest : str) :
  take (length (a ++ rest) - length rest) (a ++ rest) = a.
Proof.
  rewrite length_app. replace (length a + length rest - length rest)%nat
    with (length a) by lia. by rewrite take_app_length.
Qed.

(** A lazy named group stops at the first place where the rest of the
    pattern matches. *)
Lemma m_Grp_lazy name p k a rest c res :
  forallb p a = true → k rest ((name, a) :: c) = Some res →
  (∀ a1 x a2 c', a = a1 ++ x :: a2 → k (x :: a2 ++ rest) c' = None) →
  m (Grp name (Rep p 0 None false)) k (a ++ rest) c = Some res.
Proof.
  intros Ha Hk Hfail. cbn [m]. change (repExact p 0 ?k) with k. cbn [fmap option_fmap option_map].
  apply repLazy_stop; [done | by rewrite take_app_length' |].
  intros a1 x a2 Heq. by eapply Hfail.
Qed.

(** A greedy named group stops at the last such place. *)
Lemma m_Grp_greedy name p k a rest c res :
  forallb p a = true → k rest ((name, a) :: c) = Some res →
  (∀ e r' c', rest = e ++ r' → e ≠ [] → forallb p e = true → k r' c' = None) →
  m (Grp name (Rep p 0 None true)) k (a ++ rest) c = Some res.
Proof.
  intros Ha Hk Hfail. cbn [m]. change (repExact p 0 ?k) with k. cbn [fmap option_fmap option_map].
  apply repGreedy_stop; [done | by rewrite take_app_length' |].
  intros e r' Heq He Hp. by eapply Hfail.
Qed.

Lemma m_Opt r k inp c :
  m (Opt r) k inp c =
  match m r (λ rest c', if bool_decide (length rest = length inp) then None
                        else k rest c') inp c with
  | Some res => Some res
  | None => k inp c
  end.
Proof. done. Qed.

Lemma m_Grp_lazy_None name p k inp c :
  (∀ pre suf c', inp = pre ++ suf → k suf c' = None) →
  m (Grp name (Rep p 0 None false)) k inp c = None.
Proof.
  intros Hfail. cbn [m]. change (repExact p 0 ?k) with k.
  apply repLazy_None. intros pre suf Heq. by eapply Hfail.
Qed.

(** A match that takes the whole input. *)
Lemma exec_whole r inp c :
  m r accept inp [] = Some ([], c) → exec r inp = Some (inp, c).
Proof.
  unfold exec. intros ->. simpl. by rewrite Nat.sub_0_r, firstn_all.
Qed.

End RegexFacts.

(** ** The changelog plugin: the module-level state *)

Module ChangelogState.
Import Regex Changelog StringFacts RegexFacts.
Local Open Scope Z_scope.

Lemma stamp_inj date h1 h2 : stamp date h1 = stamp date h2 → h1 = h2.
Proof.
  unfold stamp, showZ. intros H.
  apply app_inv_head, app_inv_head, app_inv_tail in H.
  apply lit_inj in H. by apply (inj pretty) in H.
Qed.

Lemma findHour_Some fuel times date h0 h :
  findHour fuel times date h0 = Some h →
  h ≤ h0 ∧ (stamp date h ∉ times) ∧ (∀ h', h < h' ≤ h0 → stamp date h' ∈ times).
Proof.
  revert h0. induction fuel as [|fuel IH]; intros h0; simpl; [done|].
  case_bool_decide as Hin.
  - intros Hf. destruct (IH _ Hf) as (Hle & Hnot & Hall).
    split; [lia|]. split; [done|]. intros h' Hh'.
    destruct (decide (h' = h0)) as [->|]; [done|]. apply Hall. lia.
  - intros [= ->]. split; [lia|]. split; [done|]. intros h' Hh'. lia.
Qed.

Lemma findHour_None fuel times date h0 :
  findHour fuel times date h0 = None →
  ∀ i, (i < fuel)%nat → stamp date (h0 - Z.of_nat i) ∈ times.
Proof.
  revert h0. induction fuel as [|fuel IH]; intros h0; simpl; [lia|].
  case_bool_decide as Hin; [|done]. intros Hf [|i] Hi.
  - by rewrite Z.sub_0_r.
  - replace (h0 - Z.of_nat (S i)) with (h0 - 1 - Z.of_nat i) by lia.
    apply IH; [done | lia].
Qed.

Lemma findHour_total times date h0 :
  is_Some (findHour (S (size times)) times date h0).
Proof.
  destruct (findHour (S (size times)) times date h0) eqn:E; [eauto|].
  exfalso.
  pose proof (findHour_None _ _ _ _ E) as Hall.
  set (l := (λ i, stamp date (h0 - Z.of_nat i)) <$> seq 0 (S (size times))).
  assert (NoDup l) as Hnd.
  { apply NoDup_fmap_2; [|apply NoDup_seq].
    intros i j Hij. apply stamp_inj in Hij. lia. }
  assert (list_to_set (C:=gset str) l ⊆ times) as Hsub.
  { intros x Hx. apply elem_of_list_to_set, list_elem_of_fmap in Hx as (i & -> & Hi).
    apply Hall. apply elem_of_seq in Hi. lia. }
  apply subseteq_size in Hsub. rewrite size_list_to_set in Hsub by done.
  unfold l in Hsub. rewrite length_fmap, length_seq in Hsub. lia.
Qed.

Lemma bind_Ok {A B} (c : M A) (f : A → M B) st b st' :
  (c ≫= f) st = (Ok b, st') ↔ ∃ a st1, c st = (Ok a, st1) ∧ f a st1 = (Ok b, st').
Proof.
  unfold mbind, M_bind, bind. destruct (c st) as [[a| |] st1].
  - split; [eauto|]. by intros (a' & st1' & [= <- <-] & ?).
  - split; [done|]. by intros (? & ? & [=] & _).
  - split; [done|]. by intros (? & ? & [=] & _).
Qed.

Lemma assignHour_Ok date st h st' :
  assignHour date st = (Ok h, st') →
  findHour (S (size (publishTimes st))) (publishTimes st) date 20 = Some h
  ∧ st' = {| publishTimes := {[ stamp date h ]} ∪ publishTimes st;
             authorsMap := authorsMap st |}.
Proof.
  unfold assignHour.
  destruct (findHour (S (size (publishTimes st))) (publishTimes st) date 20)
    as [h'|]; [|done].
  by intros [= -> <-].
Qed.

Lemma processLocals_Some `{Collation} s st v st' :
  processLocals s st = (Ok (Some v), st') →
  ∃ tm, search (Seq (Chr nl) titlePattern) s = Some tm
    ∧ title v = groupOf tm "version"
    ∧ diffLink v = groupOf tm "compare_link"
    ∧ date v = groupOf tm "release_date"
    ∧ content v = trim (replaceStr (matched tm) [] s)
    ∧ parseAuthors (content v) = Ok (authors v)
    ∧ findHour (S (size (publishTimes st))) (publishTimes st) (date v) 20 = Some (hour v)
    ∧ publishTimes st' = {[ stamp (date v) (hour v) ]} ∪ publishTimes st
    ∧ authorsMap st' = registered (authorsMap st) (authors v).
Proof.
  unfold processLocals. destruct (search _ s) as [tm|]; [|done].
  destruct (isEmpty (matched tm)); [done|].
  destruct (parseAuthors _) as [au| |] eqn:Hau; [|(by unfold raise)..].
  intros (u & st1 & Hreg & (h & st2 & Hh & Hret)%bind_Ok)%bind_Ok.
  injection Hreg as Hst1. subst st1. injection Hret as <- <-.
  apply assignHour_Ok in Hh as [Hf ->]. exists tm. by repeat split.
Qed.

Lemma processLocals_None `{Collation} s st st' :
  processLocals s st = (Ok None, st') → st' = st.
Proof.
  unfold processLocals. destruct (search _ s) as [tm|]; [|by intros [=]].
  destruct (isEmpty (matched tm)); [by intros [=]|].
  destruct (parseAuthors _) as [au| |] eqn:Hau; [|(by unfold raise)..].
  intros (u & st1 & _ & (h & st2 & Hh & [=])%bind_Ok)%bind_Ok.
Qed.

Lemma processLocals_fuel `{Collation} s st : (processLocals s st).1 ≠ OutOfFuel.
Proof.
  unfold processLocals. destruct (search _ s) as [tm|]; [|done].
  destruct (isEmpty (matched tm)); [done|].
  destruct (parseAuthors _) as [au| |] eqn:Hau; [|(by unfold raise)..].
  unfold mbind, M_bind, bind, registerAuthors, assignHour.
  cbn [publishTimes authorsMap].
  by destruct (findHour_total (publishTimes st) (groupOf tm "release_date") 20)
    as [h ->].
Qed.

Lemma mapM__cons_Ok {A B} (f : A → M B) x l st ys st' :
  mapM_ f (x :: l) st = (Ok ys, st') →
  ∃ y ys' st1, f x st = (Ok y, st1) ∧ mapM_ f l st1 = (Ok ys', st') ∧ ys = y :: ys'.
Proof.
  simpl. intros (y & st1 & Hy & (ys' & st2 & Hys & [= <- <-])%bind_Ok)%bind_Ok.
  eauto 10.
Qed.

Lemma mapM__fuel {A B} (f : A → M B) l st :
  (∀ x st, (f x st).1 ≠ OutOfFuel) → (mapM_ f l st).1 ≠ OutOfFuel.
Proof.
  intros Hf. revert st. induction l as [|x l IH]; intros st; simpl; [done|].
  unfold mbind, M_bind, bind. specialize (Hf x st).
  destruct (f x st) as [[y| |] st1]; simpl in *; try done.
  specialize (IH st1). by destruct (mapM_ f l st1) as [[ys| |] st2].
Qed.

Lemma mapM__cons {A B} (f : A → M B) x l st :
  mapM_ f (x :: l) st =
  match f x st with
  | (Ok y, st1) =>
      match mapM_ f l st1 with
      | (Ok ys, st2) => (Ok (y :: ys), st2)
      | (TypeError, st2) => (TypeError, st2)
      | (OutOfFuel, st2) => (OutOfFuel, st2)
      end
  | (TypeError, st1) => (TypeError, st1)
  | (OutOfFuel, st1) => (OutOfFuel, st1)
  end.
Proof.
  simpl. unfold mbind, M_bind, bind. by destruct (f x st) as [[y| |] st1].
Qed.

Lemma processSection_eq `{Collation} s st :
  processSection s st =
  match processLocals s st with
  | (Ok v, st') => (Ok (render <$> v), st')
  | (TypeError, st') => (TypeError, st')
  | (OutOfFuel, st') => (OutOfFuel, st')
  end.
Proof.
  unfold processSection, mbind, M_bind, bind.
  by destruct (processLocals s st) as [[v| |] st1].
Qed.

(** What [processSection] returns is the rendering of its locals. *)
Lemma mapM__processSection `{Collation} secs st :
  mapM_ processSection secs st =
  match mapM_ processLocals secs st with
  | (Ok vs, st') => (Ok ((λ v : option Locals, render <$> v) <$> vs), st')
  | (TypeError, st') => (TypeError, st')
  | (OutOfFuel, st') => (OutOfFuel, st')
  end.
Proof.
  revert st. induction secs as [|s secs IH]; intros st; [done|].
  rewrite !mapM__cons, processSection_eq.
  destruct (processLocals s st) as [[v| |] st1]; try done.
  rewrite IH. by destruct (mapM_ processLocals secs st1) as [[vs| |] st2].
Qed.

Lemma omap_render (vs : list (option Locals)) :
  omap id ((λ v : option Locals, render <$> v) <$> vs) = render <$> omap id vs.
Proof. induction vs as [|[v|] vs IH]; csimpl; [done | by f_equal | done]. Qed.

Lemma loadContent_loadLocals `{Collation} fileContent st :
  loadContent fileContent st =
  match loadLocals fileContent st with
  | (Ok vs, st') =>
      (Ok {| sections := render <$> vs; authorsJson := authorsMap st' |}, st')
  | (TypeError, st') => (TypeError, st')
  | (OutOfFuel, st') => (OutOfFuel, st')
  end.
Proof.
  unfold loadContent, loadLocals, mbind, M_bind, bind. rewrite mapM__processSection.
  destruct (mapM_ processLocals _ st) as [[vs| |] st']; try done.
  by rewrite omap_render.
Qed.

Lemma run_hours `{Collation} secs st rs st' :
  mapM_ processLocals secs st = (Ok rs, st') →
  publishTimes st ⊆ publishTimes st'
  ∧ (∀ v, v ∈ omap id rs →
       hour v ≤ 20 ∧ (stampOf v ∉ publishTimes st) ∧ (stampOf v ∈ publishTimes st'))
  ∧ (∀ i j v w, (i < j)%nat →
       omap id rs !! i = Some v → omap id rs !! j = Some w →
       (stampOf v ≠ stampOf w) ∧ (date v = date w → hour w + 1 ≤ hour v)).
Proof.
  revert st rs. induction secs as [|s secs IH]; intros st rs.
  { intros [= <- <-]. split; [done|]. split; [by intros v ?%elem_of_nil|].
    by intros i j v w _ ?. }
  intros (y & rs' & st1 & Hy & Hrest & ->)%mapM__cons_Ok.
  destruct (IH _ _ Hrest) as (Hsub & Hin & Hord). destruct y as [v0|]; simpl.
  - apply processLocals_Some in Hy
      as (tm & _ & _ & _ & _ & _ & _ & Hf & Hpt & _).
    apply findHour_Some in Hf as (Hle & Hnot & Hall).
    assert (publishTimes st ⊆ publishTimes st1) as Hsub1.
    { rewrite Hpt. apply union_subseteq_r. }
    assert (stampOf v0 ∈ publishTimes st1) as Hv0.
    { rewrite Hpt. apply elem_of_union_l. by apply elem_of_singleton. }
    split; [by etrans|]. split.
    + intros v [->|Hv]%elem_of_cons; [by auto|].
      destruct (Hin v Hv) as (? & Hn & ?). split; [done|]. split; [|done].
      intros Hv'. apply Hn. by apply Hsub1.
    + intros [|i] [|j] v w Hij Hv Hw; simpl in *; try lia.
      * injection Hv as <-. apply list_elem_of_lookup_2 in Hw.
        destruct (Hin w Hw) as (Hw20 & Hwn & _).
        split; [intros Heq; rewrite <- Heq in Hwn; done|].
        intros Hd. destruct (decide (hour w ≤ hour v0 - 1)); [lia|].
        destruct (decide (hour w = hour v0)) as [Hh|Hh].
        { exfalso. apply Hwn. unfold stampOf in *. by rewrite <- Hd, Hh. }
        exfalso. apply Hwn. apply Hsub1. unfold stampOf. rewrite <- Hd.
        apply Hall. lia.
      * apply (Hord i j); [lia | done..].
  - apply processLocals_None in Hy as ->. done.
Qed.

Lemma setProp_lookup o k v a :
  setProp o k v !! a =
  if bool_decide (k = protoKey) then o !! a
  else if bool_decide (k = a) then Some v else o !! a.
Proof.
  unfold setProp. case_bool_decide; [done|].
  case_bool_decide as Hk; [subst; apply lookup_insert_eq | by apply lookup_insert_ne].
Qed.

Lemma registered_other o authors a :
  (∀ c, c ∈ default [] authors → alias c ≠ a) →
  registered o authors !! a = o !! a.
Proof.
  unfold registered. generalize (default [] authors). intros l. revert o.
  induction l as [|c l IH]; intros o Hl; simpl; [done|].
  rewrite IH by (intros c' Hc'; apply Hl; by right).
  rewrite setProp_lookup. case_bool_decide; [done|].
  rewrite bool_decide_eq_false_2; [done|]. apply Hl. by left.
Qed.

Lemma registered_proto o authors :
  registered o authors !! protoKey = o !! protoKey.
Proof.
  unfold registered. generalize (default [] authors). intros l. revert o.
  induction l as [|c l IH]; intros o; simpl; [done|].
  rewrite IH, setProp_lookup. by case_bool_decide.
Qed.

Lemma registered_named o authors a :
  a ≠ protoKey →
  (∃ c, c ∈ default [] authors ∧ alias c = a) →
  ∃ c, registered o authors !! a = Some c ∧ c ∈ default [] authors ∧ alias c = a.
Proof.
  intros Ha. unfold registered. generalize (default [] authors). intros l. revert o.
  induction l as [|c l IH]; intros o (c0 & Hc0 & Hal); [by apply elem_of_nil in Hc0|].
  simpl. destruct (decide (Exists (λ c', alias c' = a) l)) as [Hl|Hl];
    rewrite Exists_exists in Hl.
  - destruct (IH (setProp o (alias c) c) Hl) as (c' & Hlk & Hin & Hal').
    exists c'. split; [done|]. split; [by right | done].
  - assert (alias c = a) as Hc.
    { apply elem_of_cons in Hc0 as [->|Hc0]; [done|]. destruct Hl. eauto. }
    exists c. split; [|split; [by left | done]].
    change (registered (setProp o (alias c) c) (Some l) !! a = Some c).
    rewrite registered_other.
    + rewrite setProp_lookup, Hc. rewrite bool_decide_eq_false_2 by done.
      by rewrite bool_decide_eq_true_2.
    + intros c' Hc' Hal'. apply Hl. eauto.
Qed.

Lemma registered_dom o authors : dom o ⊆ dom (registered o authors).
Proof.
  unfold registered. generalize (default [] authors). intros l. revert o.
  induction l as [|c l IH]; intros o; simpl; [done|].
  etrans; [|apply IH]. unfold setProp. case_bool_decide; [done|].
  rewrite dom_insert. apply union_subseteq_r.
Qed.

(** The registry after a run: the committers of each section with a title,
    in turn. *)
Lemma run_registry `{Collation} secs st rs st' :
  mapM_ processLocals secs st = (Ok rs, st') →
  authorsMap st' =
  foldl (λ o v, registered o (authors v)) (authorsMap st) (omap id rs).
Proof.
  revert st rs. induction secs as [|s secs IH]; intros st rs.
  { by intros [= <- <-]. }
  intros (y & rs' & st1 & Hy & Hrest & ->)%mapM__cons_Ok.
  rewrite (IH _ _ Hrest). destruct y as [v|]; simpl.
  - by apply processLocals_Some in Hy as (tm & _ & _ & _ & _ & _ & _ & _ & _ & ->).
  - by apply processLocals_None in Hy as ->.
Qed.

Lemma registry_fold_other o vs a :
  (∀ v, v ∈ vs → ¬ names a v) →
  foldl (λ o v, registered o (authors v)) o vs !! a = o !! a.
Proof.
  revert o. induction vs as [|v vs IH]; intros o Hvs; simpl; [done|].
  rewrite IH by (intros w Hw; apply Hvs; by right).
  apply registered_other. intros c Hc Hal. apply (Hvs v); [by left|].
  by exists c.
Qed.

Lemma registry_fold_dom o vs :
  dom o ⊆ dom (foldl (λ o v, registered o (authors v)) o vs).
Proof.
  revert o. induction vs as [|v vs IH]; intros o; simpl; [done|].
  etrans; [apply (registered_dom o (authors v)) | apply IH].
Qed.

Lemma registry_fold_last o vs1 v vs2 a :
  a ≠ protoKey → names a v → (∀ w, w ∈ vs2 → ¬ names a w) →
  ∃ c, foldl (λ o v, registered o (authors v)) o (vs1 ++ v :: vs2) !! a = Some c
    ∧ c ∈ default [] (authors v) ∧ alias c = a.
Proof.
  intros Ha Hv Hvs2. rewrite foldl_app. simpl.
  rewrite registry_fold_other by done. by apply registered_named.
Qed.

Lemma loadLocals_fuel `{Collation} fileContent st :
  (loadLocals fileContent st).1 ≠ OutOfFuel.
Proof.
  unfold loadLocals, mbind, M_bind, bind.
  pose proof (mapM__fuel processLocals
                (split sectionLimitPattern (sanitise fileContent)) st
                processLocals_fuel) as Hf.
  by destruct (mapM_ processLocals _ st) as [[vs| |] st'].
Qed.

Lemma loadLocals_run `{Collation} fileContent st vs st' :
  loadLocals fileContent st = (Ok vs, st') →
  ∃ rs, mapM_ processLocals (split sectionLimitPattern (sanitise fileContent)) st
        = (Ok rs, st') ∧ vs = omap id rs.
Proof.
  unfold loadLocals. intros (rs & st1 & Hrs & [= <- <-])%bind_Ok. eauto.
Qed.

(** The second line of a document carries the time stamp of its section. *)
Lemma render_stamp v :
  ∃ rest, docContent (render v)
          = lit "---" ++ NL ++ lit "date: " ++ stampOf v ++ NL ++ rest.
Proof.
  unfold render, stampOf, stamp. cbn [docContent]. eexists.
  cbn [List.filter isEmpty negb lit app].
  destruct (date v); cbn [join app]; rewrite <- ?app_assoc; reflexivity.
Qed.

(** Three releases of one day get the hours 20, 19 and 18, from the top. *)
Example same_day_hours_example :
  ∃ vs st, loadLocals (H:=codeUnitOrder) changelogSameDay initial = (Ok vs, st)
    ∧ title <$> vs = [lit "1.0.2"; lit "1.0.1"; lit "1.0.0"]
    ∧ hour <$> vs = [20; 19; 18].
Proof. eexists _, _. split; [vm_compute; reflexivity|]. by split. Qed.

(** C5, at the alias [__proto__]: both sections name it, and the registry
    written at the end has no entry for it. *)
Example registry_misses_proto :
  ∃ out st, loadContent (H:=codeUnitOrder) changelogProto initial = (Ok out, st)
    ∧ docTitle <$> sections out = [lit "1.0.1"; lit "1.0.0"]
    ∧ authorsJson out = ∅.
Proof. eexists _, _. split; [vm_compute; reflexivity|]. by split. Qed.

(** No call ever gives the key [__proto__] an entry. *)
Lemma registry_proto_unchanged `{Collation} fileContent st out st' :
  loadContent fileContent st = (Ok out, st') →
  authorsJson out !! protoKey = authorsMap st !! protoKey.
Proof.
  rewrite loadContent_loadLocals.
  destruct (loadLocals fileContent st) as [[vs| |] st1] eqn:Hrun; [|done..].
  intros [= <- <-]. cbn [authorsJson].
  apply loadLocals_run in Hrun as (rs & Hrs & ->).
  rewrite (run_registry _ _ _ _ Hrs). generalize (omap id rs). intros l.
  generalize (authorsMap st). induction l as [|v l IH]; intros o; simpl; [done|].
  by rewrite IH, registered_proto.
Qed.

(** For every other alias the last section that names it wins: the entry
    of the alias is one of the committers parsed from that section. *)
Lemma registry_last_write `{Collation} fileContent st out st' vs1 v vs2 a :
  loadContent fileContent st = (Ok out, st') →
  loadLocals fileContent st = (Ok (vs1 ++ v :: vs2), st') →
  a ≠ protoKey → names a v → (∀ w, w ∈ vs2 → ¬ names a w) →
  ∃ c, authorsJson out !! a = Some c
    ∧ c ∈ default [] (authors v) ∧ alias c = a.
Proof.
  rewrite loadContent_loadLocals. intros Hout Hrun Ha Hv Hvs2.
  rewrite Hrun in Hout. injection Hout as <-. cbn [authorsJson].
  apply loadLocals_run in Hrun as (rs & Hrs & Hvs).
  rewrite (run_registry _ _ _ _ Hrs), <- Hvs.
  by apply registry_fold_last.
Qed.

Lemma registry_last_write_witness :
  ∃ out st c,
    loadContent (H:=codeUnitOrder) changelogAliceTwice initial = (Ok out, st)
    ∧ authorsJson out !! lit "alice" = Some c
    ∧ name c = lit "alice".
Proof.
  let r := eval vm_compute in
             (loadLocals (H:=codeUnitOrder) changelogAliceTwice initial) in
  match r with
  | (Ok [?v1; ?v2], ?st) =>
      destruct (registry_last_write (H:=codeUnitOrder) changelogAliceTwice
                  initial
                  {| sections := render <$> [v1; v2];
                     authorsJson := authorsMap st |}
                  st [v1] v2 [] (lit "alice"))
        as (c & Hc & Hin & Hal)
  end.
  - vm_compute. reflexivity.
  - vm_compute. reflexivity.
  - intros Heq. vm_compute in Heq. discriminate Heq.
  - eexists. split; [left | reflexivity].
  - intros w Hw. by apply elem_of_nil in Hw.
  - eexists _, _, c. split; [vm_compute; reflexivity|]. split; [exact Hc|].
    apply list_elem_of_singleton in Hin. by rewrite Hin.
Defined.

(** The loop of lines 69 to 71 ends: it finds the highest hour, not above
    20, whose time stamp for the date is not yet taken. *)
Theorem hour_loop_ends times date :
  ∃ h, findHour (S (size times)) times date 20 = Some h
    ∧ h ≤ 20 ∧ (stamp date h ∉ times)
    ∧ (∀ h', h < h' ≤ 20 → stamp date h' ∈ times).
Proof.
  destruct (findHour_total times date 20) as [h Hh]. exists h.
  split; [done|]. by apply findHour_Some in Hh.
Qed.

(** The example of the specification: one document, titled [1.0.1], with
    the date line [2020-01-01T20:00] and the link to the code diff. *)
Example end_to_end :
  (loadContent (H:=codeUnitOrder) changelogExample initial).1
  = Ok {| sections :=
            [ {| docTitle := lit "1.0.1";
                 docContent :=
                   lit "---" ++ lines [ "date: 2020-01-01T20:00";
                                        "title: 1.0.1"; "---"; "# 1.0.1";
                                        "<!-- truncate -->";
                                        "[code diff](https://x/compare/a...b)";
                                        "some notes" ] |} ];
          authorsJson := ∅ |}.
Proof. vm_compute. reflexivity. Qed.

(** C6 as stated fails: the second call persists the entry that the first
    call made for [alice], though its changelog names no committer. *)
Example registry_leaks :
  ∃ out1 st1 out2 st2,
    loadContent (H:=codeUnitOrder) changelogAlice initial = (Ok out1, st1)
    ∧ loadContent (H:=codeUnitOrder) changelogNotes st1 = (Ok out2, st2)
    ∧ url <$> (authorsJson out2 !! lit "alice")
      = Some (lit "https://github.com/alice").
Proof.
  eexists _, _, _, _. split; [vm_compute; reflexivity|].
  split; [vm_compute; reflexivity|]. vm_compute. reflexivity.
Qed.

End ChangelogState.

(** ** The changelog plugin: committer lines *)

Module CommitterLines.
Import Regex Changelog StringFacts RegexFacts.

Lemma plain_dot s : plain s = true → forallb dot s = true.
Proof.
  unfold plain. rewrite !forallb_forall. intros Hs x Hx.
  specialize (Hs x Hx). by apply andb_true_iff in Hs as [[? _]%andb_true_iff _].
Qed.

Lemma plain_elem s x : plain s = true → x ∈ s → x ≠ 40 ∧ x ≠ 41.
Proof.
  unfold plain. rewrite forallb_forall. intros Hs Hx%list_elem_of_In.
  specialize (Hs x Hx). apply andb_true_iff in Hs as [[_ H40]%andb_true_iff H41].
  apply negb_true_iff in H40, H41. by apply N.eqb_neq in H40, H41.
Qed.

(** After the alias: [](], the address, [)] and what is left of the line,
    which is nothing or one more [)]. *)
Lemma committer_tail U tail c :
  plain U = true → tail = [] ∨ tail = [41] →
  m (cat [Str "]("; Grp "url" (Rep dot 0 None false); Str ")"; Opt (Chr 41)])
    accept (lit "](" ++ U ++ lit ")" ++ tail) c
  = Some ([], ("url", U) :: c).
Proof.
  intros HU Htail. rewrite m_cat_cons, m_Str_app, m_cat_cons.
  apply m_Grp_lazy; [by apply plain_dot| |].
  - rewrite m_cat_cons, m_Str_app. destruct Htail as [-> | ->]; reflexivity.
  - intros a1 x a2 c' ->. apply m_cat_Str_None. lits. simpl.
    destruct (N.eqb_spec x 41) as [->|]; [|done].
    destruct (plain_elem _ 41 HU) as [_ ?]; [|done].
    apply elem_of_app. right. by left.
Qed.

Lemma committer_tail_later U tail e r' c :
  plain U = true → tail = [] ∨ tail = [41] →
  lit "](" ++ U ++ lit ")" ++ tail = e ++ r' → e ≠ [] →
  m (cat [Str "]("; Grp "url" (Rep dot 0 None false); Str ")"; Opt (Chr 41)])
    accept r' c = None.
Proof.
  intros HU Htail Heq He. apply m_cat_Str_None.
  destruct (stripPrefix (lit "](") r') as [z|] eqn:Hz; [|done]. exfalso.
  apply stripPrefix_Some in Hz as ->.
  assert (∀ x, x ∈ U ++ 41 :: tail → x ≠ 40) as Hno.
  { intros x [Hx|Hx]%elem_of_app; [by apply (plain_elem U)|].
    destruct Htail as [-> | ->]; repeat (apply elem_of_cons in Hx as [->|Hx]; [done|]);
      by apply elem_of_nil in Hx. }
  lits. destruct e as [|x e]; [done|]. injection Heq as <- Heq.
  destruct e as [|y e]; [done|]. injection Heq as <- Heq.
  apply (Hno 40); [|done]. rewrite Heq. apply elem_of_app. right.
  right. by left.
Qed.

Lemma committer_alias A U tail c :
  forallb dot A = true → plain U = true → tail = [] ∨ tail = [41] →
  m (cat [Str "[@"; Grp "alias" (Rep dot 0 None true); Str "](";
          Grp "url" (Rep dot 0 None false); Str ")"; Opt (Chr 41)])
    accept (lit "[@" ++ A ++ lit "](" ++ U ++ lit ")" ++ tail) c
  = Some ([], ("url", U) :: ("alias", A) :: c).
Proof.
  intros HA HU Htail. rewrite m_cat_cons, m_Str_app, m_cat_cons.
  apply m_Grp_greedy; [done | by apply committer_tail |].
  intros e r' c' Heq He _. by eapply committer_tail_later.
Qed.

(** A committer line without a display name. *)
Lemma exec_committer_bare A U :
  plain A = true → plain U = true →
  exec committerPattern (lit "- " ++ lit "[@" ++ A ++ lit "](" ++ U ++ lit ")")
  = Some (lit "- " ++ lit "[@" ++ A ++ lit "](" ++ U ++ lit ")",
          [("url", U); ("alias", A)]).
Proof.
  intros HA HU. apply exec_whole. unfold committerPattern.
  rewrite m_cat_cons, m_Str_app, m_cat_cons, m_Opt.
  rewrite m_cat_cons, m_Grp_lazy_None.
  - rewrite <- (app_nil_r (lit ")")).
    apply committer_alias; [by apply plain_dot | done | by left].
  - intros pre suf c' Heq. apply m_cat_Str_None.
    assert (findSub (lit " (") (lit "[@" ++ A ++ lit "](" ++ U ++ lit ")") = None)
      as Hnone; [|by eapply findSub_None].
    lits. simpl.
    rewrite findSub_pair_app;
      [done | by intros x Hx; destruct (plain_elem A x HA Hx) | done |].
    simpl. by rewrite findSub_pair_app;
      [| intros x Hx; destruct (plain_elem U x HU Hx) | |].
Qed.

(** A committer line with a display name. *)
Lemma exec_committer_named N A U :
  plain N = true → plain A = true → plain U = true →
  exec committerPattern
    (lit "- " ++ N ++ lit " (" ++ lit "[@" ++ A ++ lit "](" ++ U ++ lit ")" ++ [41])
  = Some (lit "- " ++ N ++ lit " (" ++ lit "[@" ++ A ++ lit "](" ++ U ++ lit ")" ++ [41],
          [("url", U); ("alias", A); ("name", N)]).
Proof.
  intros HN HA HU. apply exec_whole. unfold committerPattern.
  rewrite m_cat_cons, m_Str_app, m_cat_cons, m_Opt.
  rewrite m_cat_cons.
  erewrite m_Grp_lazy; [done | by apply plain_dot | |].
  - rewrite m_cat_cons, m_Str_app, m_cat_nil.
    rewrite bool_decide_eq_false_2 by (rewrite !length_app; simpl; lia).
    apply committer_alias; [by apply plain_dot | done | by right].
  - intros a1 x a2 c' ->. apply m_cat_Str_None. lits. simpl.
    destruct (N.eqb_spec x 32) as [->|]; [|done].
    destruct a2 as [|y a2]; [done|]. simpl.
    destruct (N.eqb_spec y 40) as [->|]; [|done].
    destruct (plain_elem _ 40 HN) as [? _]; [|done].
    apply elem_of_app. right. right. by left.
Qed.

Lemma parseCommitter_lineOf l c : lineOf l c → parseCommitter l = Some c.
Proof.
  intros [a u Ha Hu | n a u Hn Ha Hu]; unfold parseCommitter.
  - change (bareLine a u)
      with (lit "- " ++ lit "[@" ++ a ++ lit "](" ++ u ++ lit ")").
    by rewrite (search_here _ _ _ _ (exec_committer_bare a u Ha Hu)).
  - change (namedLine n a u)
      with (lit "- " ++ n ++ lit " (" ++ lit "[@" ++ a ++ lit "](" ++ u
            ++ lit ")" ++ [41]).
    by rewrite (search_here _ _ _ _ (exec_committer_named n a u Hn Ha Hu)).
Qed.

(** C4 as stated fails: the two lines as the claim writes them do not
    match the pattern of line 53 (it asks for [[@] and, after a display
    name, for [ (]), so [line.match(...)] is [null] and [processSection]
    raises on them. *)
Example committer_lines_of_claim :
  parseCommitter (lit "- [alice](https://github.com/alice)") = None
  ∧ parseCommitter (lit "- Alice [@alice](https://github.com/alice)") = None
  ∧ (processSection (H:=codeUnitOrder) changelogNoAt initial).1 = TypeError
  ∧ (processSection (H:=codeUnitOrder) changelogNoParens initial).1 = TypeError.
Proof. repeat split; vm_compute; reflexivity. Qed.

(** C4, amended: a line [- [@Alias](url)] gives a committer whose name is
    the alias, and a line [- Name ([@Alias](url))] gives one whose name is
    [Name]; in both the alias, the address and the picture address are
    those of the line.  The three texts have no line terminator and no
    parenthesis. *)
Theorem parseCommitter_lines n a u :
  plain n = true → plain a = true → plain u = true →
  parseCommitter (bareLine a u) = Some (committer a a u)
  ∧ parseCommitter (namedLine n a u) = Some (committer n a u).
Proof.
  intros Hn Ha Hu. split.
  - by apply parseCommitter_lineOf, lineOf_bare.
  - by apply parseCommitter_lineOf, lineOf_named.
Qed.

Lemma parseCommitter_lines_witness :
  parseCommitter (lit "- [@bob](https://github.com/bob)")
  = Some (committer (lit "bob") (lit "bob") (lit "https://github.com/bob"))
  ∧ parseCommitter (lit "- Bob Builder ([@bob](https://github.com/bob))")
    = Some (committer (lit "Bob Builder") (lit "bob") (lit "https://github.com/bob")).
Proof.
  apply (parseCommitter_lines (lit "Bob Builder") (lit "bob")
           (lit "https://github.com/bob")); reflexivity.
Defined.

(** The two lines of the format inside a committers block, through
    [processSection]: the authors are sorted by their address and entered
    in the registry. *)
Example committers_block :
  ∃ v st, processLocals (H:=codeUnitOrder) changelogCommitters initial
          = (Ok (Some v), st)
    ∧ authors v
      = Some [ committer (lit "alice") (lit "alice") (lit "https://github.com/alice");
               committer (lit "Bob Builder") (lit "bob") (lit "https://github.com/bob") ]
    ∧ name <$> authorsMap st !! lit "bob" = Some (lit "Bob Builder").
Proof. eexists _, _. split; [vm_compute; reflexivity|]. by split. Qed.

Lemma repGreedy_all p k inp c :
  forallb p inp = true → is_Some (k [] c) → repGreedy p None k inp c = k [] c.
Proof.
  intros Hp Hk. rewrite <- (app_nil_r inp) at 1. destruct Hk as [res Hres].
  rewrite Hres. apply repGreedy_stop; [done..|]. intros e r' He. by destruct e.
Qed.

Lemma matchAllFrom_skip r a s :
  matchAllFrom r (length a) (a ++ s) = matchAllFrom r 0 s.
Proof. induction a as [|x a IH]; [done|]. simpl. apply IH. Qed.

(** A line that is [- ] and a text without line terminators, before the
    end of the text or a line feed: the pattern of line 49 matches it
    whole. *)
Lemma exec_bullet t rest :
  forallb dot t = true → rest = [] ∨ (∃ y, rest = nl :: y) →
  exec bulletPattern (lit "- " ++ t ++ rest) = Some (lit "- " ++ t, []).
Proof.
  intros Ht Hrest. unfold exec, bulletPattern.
  rewrite m_cat_cons, m_Str_app, m_cat_cons, m_star.
  rewrite (repGreedy_stop dot _ t rest [] (rest, [])); [|done..|].
  - by rewrite app_assoc, take_app_length'.
  - intros e r' -> He Hdot. exfalso. destruct e as [|x e]; [done|].
    destruct Hrest as [[=]|[y [= -> _]]]. done.
Qed.

Lemma lineOf_bullet l c :
  lineOf l c → ∃ t, l = lit "- " ++ t ∧ forallb dot t = true.
Proof.
  intros [a u Ha Hu | n a u Hn Ha Hu].
  - exists (lit "[@" ++ a ++ lit "](" ++ u ++ lit ")"). split; [done|].
    rewrite !forallb_app. by rewrite (plain_dot a), (plain_dot u).
  - exists (n ++ lit " ([@" ++ a ++ lit "](" ++ u ++ lit "))"). split; [done|].
    rewrite !forallb_app. by rewrite (plain_dot n), (plain_dot a), (plain_dot u).
Qed.

Lemma matchAllFrom_lines ls :
  Forall (λ l, ∃ t, l = lit "- " ++ t ∧ forallb dot t = true) ls →
  matchAllFrom bulletPattern 0 (concat ((λ l, nl :: l) <$> ls)) = ls.
Proof.
  induction 1 as [|l ls (t & -> & Ht) _ IH]; [done|].
  cbn [fmap list_fmap concat app]. cbn [matchAllFrom].
  assert (exec bulletPattern (nl :: (lit "- " ++ t) ++ concat ((λ l, nl :: l) <$> ls)) = None) as -> by done.
  rewrite <- app_assoc.
  assert (rest_ok : concat ((λ l, nl :: l) <$> ls) = [] ∨ ∃ y, concat ((λ l, nl :: l) <$> ls) = nl :: y).
  { destruct ls; [by left | right; simpl; eauto]. }
  pose proof (exec_bullet t _ Ht rest_ok) as He.
  lits. cbn [app] in *. cbn [matchAllFrom]. rewrite He. f_equal.
  cbn [length]. rewrite Nat.sub_succ, Nat.sub_0_r.
  change (32 :: t ++ ?r) with ((32 :: t) ++ r). by rewrite matchAllFrom_skip.
Qed.

(** The pattern of line 46 at a committers heading takes the rest of the
    text. *)
Lemma exec_committers d rest :
  digit d = true →
  exec committersPattern (lit "## Committers: " ++ d :: rest)
  = Some (lit "## Committers: " ++ d :: rest, []).
Proof.
  intros Hd. apply exec_whole. unfold committersPattern.
  rewrite m_cat_cons, m_Str_app, m_cat_cons. cbn [m]. rewrite Hd.
  rewrite m_cat_cons, m_star.
  rewrite repGreedy_all; [done | by apply forallb_forall | done].
Qed.

Lemma exec_bullet_other x s : x ≠ 45 → exec bulletPattern (x :: s) = None.
Proof.
  intros Hx. unfold exec, bulletPattern. cbn [cat foldr Str m].
  apply N.eqb_neq in Hx. change (N_of_ascii "-") with 45. by rewrite Hx.
Qed.

Lemma matchAllFrom_other pre s :
  Forall (λ x, x ≠ 45) pre →
  matchAllFrom bulletPattern 0 (pre ++ s) = matchAllFrom bulletPattern 0 s.
Proof.
  induction 1 as [|x pre Hx _ IH]; [done|].
  cbn [app matchAllFrom]. by rewrite (exec_bullet_other x _ Hx).
Qed.

Lemma matchAll_block d ls :
  digit d = true → ls ≠ [] →
  Forall (λ l, ∃ t, l = lit "- " ++ t ∧ forallb dot t = true) ls →
  matchAll bulletPattern (committersBlock d ls) = Some ls.
Proof.
  intros Hd Hne Hls. unfold matchAll, committersBlock.
  assert (matchAllFrom bulletPattern 0
            (lit "## Committers: " ++ d :: concat ((λ l, nl :: l) <$> ls))
          = ls) as ->; [|by destruct ls].
  rewrite <- (matchAllFrom_lines ls Hls) at 2.
  change (?a ++ d :: ?b) with (a ++ [d] ++ b).
  rewrite !matchAllFrom_other; [done| |].
  - apply Forall_singleton. intros ->. done.
  - lits. by repeat constructor.
Qed.

(** The committers of a block whose lines are of the format: those of the
    lines, sorted by their address. *)
Theorem parseAuthors_block `{Collation} d ls cs :
  digit d = true → ls ≠ [] → Forall2 lineOf ls cs →
  parseAuthors (committersBlock d ls) = Ok (Some (sortByUrl cs)).
Proof.
  intros Hd Hne Hls. unfold parseAuthors.
  unfold committersBlock at 1.
  rewrite (search_here _ _ _ _ (exec_committers d _ Hd)). cbn [matched].
  fold (committersBlock d ls). rewrite matchAll_block; [|done..|].
  - assert (mapM parseCommitter ls = Some cs) as ->; [|done].
    apply mapM_Some. eapply Forall2_impl; [exact Hls|].
    intros l c. apply parseCommitter_lineOf.
  - eapply Forall2_Forall_l; [exact Hls|]. apply Forall_true.
    intros l c. apply lineOf_bullet.
Qed.

Lemma parseAuthors_block_witness :
  parseAuthors (H:=codeUnitOrder)
    (committersBlock 50
       [ lit "- Bob Builder ([@bob](https://github.com/bob))";
         lit "- [@alice](https://github.com/alice)" ])
  = Ok (Some [ committer (lit "alice") (lit "alice") (lit "https://github.com/alice");
               committer (lit "Bob Builder") (lit "bob") (lit "https://github.com/bob") ]).
Proof.
  apply (parseAuthors_block (H:=codeUnitOrder) 50 _
           [ committer (lit "Bob Builder") (lit "bob") (lit "https://github.com/bob");
             committer (lit "alice") (lit "alice") (lit "https://github.com/alice") ]).
  - reflexivity.
  - discriminate.
  - repeat constructor.
    + by apply (lineOf_named (lit "Bob Builder") (lit "bob") (lit "https://github.com/bob")).
    + by apply (lineOf_bare (lit "alice") (lit "https://github.com/alice")).
Defined.

(** C3, at a section with a committers heading and no committer line:
    [authors[0].match(...)] is [null], and reading [.map] of it raises. *)
Example processSection_raises :
  processSection (H:=codeUnitOrder) changelogNoLines initial = (TypeError, initial).
Proof. vm_compute. reflexivity. Qed.

End CommitterLines.

(** ** The changelog plugin: splitting the changelog into sections *)

Module ChangelogSections.
Import Regex Changelog StringFacts RegexFacts ChangelogState.

(** One to three [#] before a space: the quantifier takes them all. *)
Lemma m_hashes n k rest c res :
  (1 ≤ n ≤ 3)%nat → k (lit " [" ++ rest) c = Some res →
  m hashesPattern k (hashes n ++ lit " [" ++ rest) c = Some res.
Proof.
  intros Hn Hk. lits.
  destruct n as [|[|[|[|n]]]]; try lia; simpl; simpl in Hk; by rewrite Hk.
Qed.

(** Where no run of one to three [#] is followed by what [k] accepts, the
    quantifier fails. *)
Lemma m_hashes_None k t c :
  (∀ n u, (1 ≤ n ≤ 3)%nat → t = hashes n ++ u → k u c = None) →
  m hashesPattern k t c = None.
Proof.
  intros Hk. unfold hashesPattern. cbn [m repExact fmap option_fmap option_map].
  destruct t as [|x t]; [done|]. unfold isChr at 1.
  destruct (N.eqb_spec x 35) as [->|]; [|done].
  pose proof (Hk 1%nat t ltac:(lia) eq_refl) as H1.
  destruct t as [|y t]; simpl; [done|]. unfold isChr at 1.
  destruct (N.eqb_spec y 35) as [->|]; [|done].
  pose proof (Hk 2%nat t ltac:(lia) eq_refl) as H2.
  destruct t as [|z t]; simpl; [by rewrite H2|]. unfold isChr at 1.
  destruct (N.eqb_spec z 35) as [->|]; simpl; [|by rewrite H2].
  pose proof (Hk 3%nat t ltac:(lia) eq_refl) as H3.
  destruct t as [|w t]; simpl; by rewrite H3, H2.
Qed.

Lemma headingStart_hashes n z :
  (1 ≤ n ≤ 3)%nat → headingStart (hashes n ++ lit " [" ++ z) = true.
Proof. intros Hn. by destruct n as [|[|[|[|n]]]]; try lia. Qed.

Lemma headingStart_false t n u :
  headingStart t = false → (1 ≤ n ≤ 3)%nat → t = hashes n ++ u →
  stripPrefix (lit " [") u = None.
Proof.
  intros Ht Hn ->. destruct (stripPrefix (lit " [") u) as [z|] eqn:Hz; [|done].
  apply stripPrefix_Some in Hz as ->. by rewrite headingStart_hashes in Ht.
Qed.

(** A line that does not begin like a release heading matches no pattern
    made of the hashes, [ []] and more. *)
Lemma m_heading_None rs k t c :
  headingStart t = false →
  m (cat (hashesPattern :: Str " [" :: rs)) k t c = None.
Proof.
  intros Ht. rewrite m_cat_cons. apply m_hashes_None. intros n u Hn Hu.
  apply m_cat_Str_None. by eapply headingStart_false.
Qed.

Lemma field_dot s : field s = true → forallb dot s = true.
Proof.
  unfold field. rewrite !forallb_forall. intros Hs x Hx.
  specialize (Hs x Hx). by repeat apply andb_true_iff in Hs as [Hs _].
Qed.

Lemma field_elem s x :
  field s = true → x ∈ s → x ≠ 93 ∧ x ≠ 41 ∧ x ≠ 60 ∧ x ≠ 62 ∧ x ≠ nl.
Proof.
  unfold field. rewrite forallb_forall. intros Hs Hx%list_elem_of_In.
  specialize (Hs x Hx).
  apply andb_true_iff in Hs as [[[[Hd H93]%andb_true_iff H41]%andb_true_iff
                                   H60]%andb_true_iff H62].
  apply negb_true_iff in H93, H41, H60, H62.
  apply N.eqb_neq in H93, H41, H60, H62. repeat split; try done.
  intros ->. done.
Qed.

(** A heading text stops a lazy group at a pattern that begins with a
    closing bracket or parenthesis. *)
Lemma field_stops s d p rs k a1 x a2 rest c :
  d = 93 ∨ d = 41 → lit s = d :: p →
  field (a1 ++ x :: a2) = true →
  m (cat (Str s :: rs)) k (x :: a2 ++ rest) c = None.
Proof.
  intros Hd Hs Hf. apply m_cat_Str_None. rewrite Hs. simpl.
  destruct (N.eqb_spec x d) as [->|]; [|done].
  destruct (field_elem _ d Hf) as (? & ? & _);
    [apply elem_of_app; right; by left|]. by destruct Hd.
Qed.

(** The title pattern on a well-formed heading: the match is the heading,
    and the groups are its three texts. *)
Lemma m_title n v l d rest :
  (1 ≤ n ≤ 3)%nat → field v = true → field l = true → field d = true →
  m titlePattern accept (headingOf n v l d ++ rest) []
  = Some (rest, [("release_date", d); ("compare_link", l); ("version", v)]).
Proof.
  intros Hn Hv Hl Hd. unfold titlePattern, headingOf. rewrite <- !app_assoc.
  rewrite m_cat_cons. apply (m_hashes n); [done|].
  rewrite m_cat_cons, m_Str_app, m_cat_cons.
  apply m_Grp_lazy; [by apply field_dot | |].
  2: { intros a1 x a2 c' ->. eapply field_stops; [by left | reflexivity | done]. }
  rewrite m_cat_cons, m_Str_app, m_cat_cons.
  apply m_Grp_lazy; [by apply field_dot | |].
  2: { intros a1 x a2 c' ->. eapply field_stops; [by right | reflexivity | done]. }
  rewrite m_cat_cons, m_Str_app, m_cat_cons.
  apply m_Grp_lazy; [by apply field_dot | |].
  2: { intros a1 x a2 c' ->. eapply field_stops; [by right | reflexivity | done]. }
  by rewrite m_cat_cons, m_Str_app.
Qed.

Lemma exec_title n v l d rest :
  (1 ≤ n ≤ 3)%nat → field v = true → field l = true → field d = true →
  exec (Seq (Chr nl) titlePattern) (nl :: headingOf n v l d ++ rest)
  = Some (nl :: headingOf n v l d,
          [("release_date", d); ("compare_link", l); ("version", v)]).
Proof.
  intros Hn Hv Hl Hd. unfold exec. cbn [m]. rewrite N.eqb_refl.
  rewrite m_title by done. f_equal. f_equal.
  change (nl :: headingOf n v l d ++ rest) with ((nl :: headingOf n v l d) ++ rest).
  apply take_app_length'.
Qed.

(** The section limit is found before a well-formed heading. *)
Lemma exec_limit n v l d rest :
  (1 ≤ n ≤ 3)%nat → field v = true → field l = true → field d = true →
  ∃ c, exec sectionLimitPattern (nl :: headingOf n v l d ++ rest) = Some ([], c).
Proof.
  intros Hn Hv Hl Hd. unfold exec, sectionLimitPattern. cbn [m].
  match goal with |- context [m ?r accept ?i []] =>
    assert (is_Some (m r accept i [])) as [[r' c'] ->] end.
  2: { eexists. unfold accept at 1. by rewrite Nat.sub_diag. }
  rewrite m_cat_cons. cbn [m]. rewrite N.eqb_refl.
  unfold headingOf. rewrite <- !app_assoc, m_cat_cons.
  match goal with |- is_Some (m _ ?k _ _) =>
    assert (is_Some (k (lit " [" ++ v ++ lit "](" ++ l ++ lit ") ("
                        ++ d ++ lit ")" ++ rest) [])) as [res Hres] end.
  2: { erewrite (m_hashes n); [done | done | exact Hres]. }
  rewrite m_cat_cons, m_Str_app, m_cat_cons, m_star.
  apply repGreedy_reach; [by apply field_dot|].
  rewrite m_cat_cons, m_Str_app, m_cat_cons, m_star.
  apply repGreedy_reach; [by apply field_dot|].
  rewrite m_cat_cons, m_Str_app, m_cat_cons, m_star.
  apply repLazy_reach; [by apply field_dot|].
  by rewrite m_cat_cons, m_Str_app.
Qed.

Lemma quiet_cons x s : quiet (x :: s) = silent (x :: s) && quiet s.
Proof. done. Qed.

Lemma quiet_suffix pre suf : quiet (pre ++ suf) = true → quiet suf = true.
Proof.
  induction pre as [|x pre IH]; [done|]. simpl.
  intros [_ Hq]%andb_true_iff. by apply IH.
Qed.

Lemma quiet_silent s : quiet s = true → silent s = true.
Proof. destruct s as [|x s]; [done|]. by intros [? _]%andb_true_iff. Qed.

Lemma quiet_app a b :
  (∀ x, x ∈ a → x ≠ nl) → quiet b = true → quiet (a ++ b) = true.
Proof.
  intros Ha Hb. induction a as [|x a IH]; [done|]. simpl.
  rewrite IH by (intros y Hy; apply Ha; by right).
  assert (x ≠ nl) as Hx by (apply Ha; by left).
  apply N.eqb_neq in Hx. by rewrite Hx.
Qed.

Lemma stripPrefix_line p t y :
  nl ∉ p → is_Some (stripPrefix p (t ++ nl :: y)) ↔ is_Some (stripPrefix p t).
Proof.
  revert t. induction p as [|a p IH]; intros t Hp; simpl; [done|].
  assert (a ≠ nl) as Ha by (intros ->; apply Hp; by left).
  assert (nl ∉ p) as Hp' by (intros ?; apply Hp; by right).
  destruct t as [|x t]; simpl.
  - destruct (N.eqb_spec nl a) as [<-|]; [done|]. split; by intros [? [=]].
  - destruct (x =? a); [by apply IH | done].
Qed.

(** Whether a line begins like a release heading is decided before its
    end. *)
Lemma headingStart_line t rest :
  rest = [] ∨ (∃ y, rest = nl :: y) →
  headingStart (t ++ rest) = headingStart t.
Proof.
  intros [->|[y ->]]; [by rewrite app_nil_r|]. unfold headingStart.
  f_equal; [f_equal|]; apply bool_decide_ext, stripPrefix_line; lits;
    intros Hin; repeat (apply elem_of_cons in Hin as [[=]|Hin]);
    by apply elem_of_nil in Hin.
Qed.

Lemma silent_line suf rest :
  suf ≠ [] → rest = [] ∨ (∃ y, rest = nl :: y) →
  silent (suf ++ rest) = silent suf.
Proof.
  intros Hsuf Hrest. destruct suf as [|x suf]; [done|]. simpl.
  by rewrite headingStart_line.
Qed.

(** No section limit and no title where the text is silent. *)
Lemma exec_limit_None t : silent t = true → exec sectionLimitPattern t = None.
Proof.
  intros Ht. unfold exec, sectionLimitPattern. cbn [m].
  rewrite m_cat_cons. cbn [m]. destruct t as [|x t]; [done|].
  destruct (N.eqb_spec x nl) as [->|]; [|done]. simpl in Ht.
  apply negb_true_iff in Ht.
  by rewrite (m_heading_None _ _ _ _ Ht).
Qed.

Lemma exec_title_None t :
  silent t = true → exec (Seq (Chr nl) titlePattern) t = None.
Proof.
  intros Ht. unfold exec, titlePattern. cbn [m].
  destruct t as [|x t]; [done|].
  destruct (N.eqb_spec x nl) as [->|]; [|done]. simpl in Ht.
  apply negb_true_iff in Ht.
  by rewrite (m_heading_None _ _ _ _ Ht).
Qed.

Lemma splitFrom_plain cur x s :
  exec sectionLimitPattern (x :: s) = None →
  splitFrom sectionLimitPattern cur 0 (x :: s) = splitFrom sectionLimitPattern (x :: cur) 0 s.
Proof. intros He. cbn [splitFrom]. by rewrite He. Qed.

Lemma splitFrom_limit cur x s c :
  exec sectionLimitPattern (x :: s) = Some ([], c) →
  splitFrom sectionLimitPattern cur 0 (x :: s)
  = (if isEmpty cur then [] else [rev cur]) ++ splitFrom sectionLimitPattern [x] 0 s.
Proof. intros He. cbn [splitFrom]. rewrite He. by destruct cur. Qed.

(** A quiet stretch of text goes to the piece being collected. *)
Lemma splitFrom_quiet t rest cur :
  quiet t = true → rest = [] ∨ (∃ y, rest = nl :: y) →
  splitFrom sectionLimitPattern cur 0 (t ++ rest) = splitFrom sectionLimitPattern (rev t ++ cur) 0 rest.
Proof.
  intros Ht Hrest. revert cur. induction t as [|x t IH]; intros cur; [done|].
  rewrite quiet_cons in Ht. apply andb_true_iff in Ht as [Hs Ht].
  change ((x :: t) ++ rest) with (x :: t ++ rest).
  rewrite splitFrom_plain.
  - rewrite IH by done. simpl. by rewrite <- app_assoc.
  - apply exec_limit_None.
    change (x :: t ++ rest) with ((x :: t) ++ rest). by rewrite silent_line.
Qed.

Lemma concat_pieces_line (Ts : list str) :
  concat ((λ T, nl :: T) <$> Ts) = []
  ∨ ∃ y, concat ((λ T, nl :: T) <$> Ts) = nl :: y.
Proof. destruct Ts as [|T Ts]; [by left | right]. simpl. eauto. Qed.

Lemma splitFrom_pieces Ts cur :
  Forall piece Ts →
  splitFrom sectionLimitPattern cur 0 (concat ((λ T, nl :: T) <$> Ts))
  = match Ts with
    | [] => [rev cur]
    | _ => (if isEmpty cur then [] else [rev cur]) ++ ((λ T, nl :: T) <$> Ts)
    end.
Proof.
  intros HTs. revert cur. induction HTs as [|T Ts [Hq Hl] _ IH]; intros cur; [done|].
  cbn [fmap list_fmap concat]. cbn [app].
  destruct (Hl (concat ((λ T, nl :: T) <$> Ts))) as [c Hc].
  rewrite (splitFrom_limit _ _ _ _ Hc). f_equal.
  rewrite splitFrom_quiet by (done || apply concat_pieces_line).
  rewrite IH. rewrite rev_app_distr, rev_involutive. simpl.
  destruct Ts; [done|]. by destruct (rev T).
Qed.

Lemma split_pieces P Ts :
  quiet P = true → Forall piece Ts →
  split sectionLimitPattern (P ++ concat ((λ T, nl :: T) <$> Ts))
  = match Ts with
    | [] => [P]
    | _ => (if isEmpty P then [] else [P]) ++ ((λ T, nl :: T) <$> Ts)
    end.
Proof.
  intros HP HTs. unfold split.
  destruct (P ++ concat ((λ T, nl :: T) <$> Ts)) as [|x s] eqn:E.
  { apply app_eq_nil in E as [-> E]. destruct Ts; [|done].
    by rewrite exec_limit_None. }
  rewrite <- E. rewrite splitFrom_quiet by (done || apply concat_pieces_line).
  rewrite splitFrom_pieces by done. rewrite app_nil_r, rev_involutive.
  destruct Ts; [done|]. destruct P; [done|]. simpl.
  by destruct (rev P ++ [n]) eqn:E'; [apply app_eq_nil in E' as [_ [=]]|].
Qed.

(** Replacing every occurrence of one character. *)
Lemma replaceAll_Chr a repl s :
  replaceAll (Chr a) repl s = flat_map (λ c, if c =? a then repl else [c]) s.
Proof.
  unfold replaceAll. induction s as [|x s IH]; [done|].
  cbn [replaceAllFrom flat_map]. unfold exec at 1. cbn [m].
  destruct (x =? a); [|by rewrite <- IH].
  unfold accept. cbn [length]. rewrite Nat.sub_succ_l, Nat.sub_diag by done.
  cbn [take isEmpty length]. by rewrite <- IH.
Qed.

Lemma findSub_prefix pat b : findSub pat (pat ++ b) = Some ([], b).
Proof. destruct (pat ++ b) eqn:E; simpl; by rewrite <- ?E, stripPrefix_app. Qed.

(** Replacing a text by itself changes nothing (line 116: the escape in
    ['\@serenity-js/'] stands for the character itself). *)
Lemma replaceStr_same pat s :
  Forall (λ x, x ≠ 36) pat → replaceStr pat pat s = s.
Proof.
  intros Hpat. unfold replaceStr.
  destruct (findSub pat s) as [[b a]|] eqn:E; [|done].
  rewrite getSubstitution_plain by done. by apply findSub_Some in E.
Qed.

Lemma replaceStr_prefix pat b : replaceStr pat [] (pat ++ b) = b.
Proof. unfold replaceStr. by rewrite findSub_prefix. Qed.

Lemma sanitise_escape s : sanitise s = escape s.
Proof.
  unfold sanitise. rewrite replaceStr_same by (lits; by repeat constructor).
  rewrite !replaceAll_Chr. unfold escape. lits.
  induction s as [|x s IH]; [done|]. cbn [flat_map]. rewrite flat_map_app, IH.
  destruct (N.eqb_spec x 60) as [->|]; [done|]. simpl.
  by destruct (x =? 62).
Qed.

Lemma escape_app a b : escape (a ++ b) = escape a ++ escape b.
Proof. apply flat_map_app. Qed.

Lemma escape_plain s : (∀ x, x ∈ s → x ≠ 60 ∧ x ≠ 62) → escape s = s.
Proof.
  intros Hs. induction s as [|x s IH]; [done|]. unfold escape. cbn [flat_map].
  destruct (Hs x) as [H60 H62]; [by left|].
  apply N.eqb_neq in H60, H62. rewrite H60, H62. simpl. f_equal.
  apply IH. intros y Hy. apply Hs. by right.
Qed.

Lemma escape_field s : field s = true → escape s = s.
Proof.
  intros Hs. apply escape_plain. intros x Hx.
  by destruct (field_elem s x Hs Hx) as (_ & _ & ? & ? & _).
Qed.

Lemma escape_hashes n : escape (hashes n) = hashes n.
Proof.
  apply escape_plain. intros x Hx. unfold hashes in Hx.
  by apply list_elem_of_In, repeat_spec in Hx as ->.
Qed.

Lemma stripPrefix_escape p t :
  (∀ x, x ∈ p → x ≠ 60 ∧ x ≠ 62 ∧ x ≠ 38) →
  is_Some (stripPrefix p (escape t)) ↔ is_Some (stripPrefix p t).
Proof.
  revert t. induction p as [|a p IH]; intros t Hp; simpl; [done|].
  destruct (Hp a) as (H60 & H62 & H38); [by left|].
  assert (∀ x, x ∈ p → x ≠ 60 ∧ x ≠ 62 ∧ x ≠ 38) as Hp'
    by (intros y Hy; apply Hp; by right).
  destruct t as [|x t]; [done|]. unfold escape. cbn [flat_map]. fold (escape t).
  destruct (N.eqb_spec x 60) as [->|].
  { lits. simpl. destruct (N.eqb_spec 38 a) as [<-|]; [done|].
    destruct (N.eqb_spec 60 a) as [<-|]; [done|]. done. }
  destruct (N.eqb_spec x 62) as [->|].
  { lits. simpl. destruct (N.eqb_spec 38 a) as [<-|]; [done|].
    destruct (N.eqb_spec 62 a) as [<-|]; [done|]. done. }
  simpl. destruct (x =? a); [by apply IH | done].
Qed.

Lemma headingStart_escape t : headingStart (escape t) = headingStart t.
Proof.
  unfold headingStart.
  f_equal; [f_equal|]; apply bool_decide_ext, stripPrefix_escape; lits;
    intros x Hin; repeat (apply elem_of_cons in Hin as [->|Hin]; [done|]);
    by apply elem_of_nil in Hin.
Qed.

Lemma quiet_escape s : quiet s = true → quiet (escape s) = true.
Proof.
  induction s as [|x s IH]; [done|]. rewrite quiet_cons.
  intros [Hs Hq]%andb_true_iff. specialize (IH Hq).
  unfold escape. cbn [flat_map]. fold (escape s).
  destruct (N.eqb_spec x 60) as [->|]; [lits; simpl; by rewrite IH|].
  destruct (N.eqb_spec x 62) as [->|]; [lits; simpl; by rewrite IH|].
  simpl. simpl in Hs. by rewrite headingStart_escape, Hs, IH.
Qed.

Lemma parseAuthors_fuel `{Collation} c : parseAuthors c ≠ OutOfFuel.
Proof.
  unfold parseAuthors. destruct (search committersPattern c); [|done].
  destruct (matchAll bulletPattern _); [|done]. by destruct (mapM parseCommitter _).
Qed.

(** A section without a title after a line feed: [processSection] returns
    [null] and leaves the state as it is. *)
Lemma processLocals_untitled `{Collation} s st :
  (∀ pre suf, s = pre ++ suf → exec (Seq (Chr nl) titlePattern) suf = None) →
  processLocals s st = (Ok None, st).
Proof.
  intros Hs. unfold processLocals.
  by rewrite (proj2 (search_None _ _) Hs).
Qed.

Lemma processLocals_quiet `{Collation} s st :
  quiet s = true → processLocals s st = (Ok None, st).
Proof.
  intros Hq. apply processLocals_untitled. intros pre suf ->.
  apply exec_title_None, quiet_silent. by eapply quiet_suffix.
Qed.

(** A section that begins with a line feed and a well-formed heading. *)
Lemma processLocals_section `{Collation} n v l d b st :
  (1 ≤ n ≤ 3)%nat → field v = true → field l = true → field d = true →
  parseAuthors (trim b) ≠ TypeError →
  ∃ w st', processLocals (nl :: headingOf n v l d ++ b) st = (Ok (Some w), st')
    ∧ title w = v ∧ diffLink w = l ∧ date w = d ∧ content w = trim b.
Proof.
  intros Hn Hv Hl Hd Hau. unfold processLocals.
  rewrite (search_here _ _ _ _ (exec_title n v l d b Hn Hv Hl Hd)).
  cbn [matched isEmpty].
  change (nl :: headingOf n v l d ++ b) with ((nl :: headingOf n v l d) ++ b).
  rewrite replaceStr_prefix.
  pose proof (parseAuthors_fuel (trim b)) as Hfuel.
  destruct (parseAuthors (trim b)) as [au| |]; [|done..].
  unfold mbind, M_bind, bind, registerAuthors, assignHour, ret.
  cbn [publishTimes authorsMap].
  destruct (findHour_total (publishTimes st) (groupOf {| matched := nl :: headingOf n v l d; groups := [("release_date", d); ("compare_link", l); ("version", v)]; index := 0 |} "release_date") 20) as [h ->].
  eexists _, _. split; [reflexivity|]. done.
Qed.

Lemma wellFormed_headed `{Collation} r : wellFormed r → headed r.
Proof. by intros [? _]. Qed.

Lemma heading_line r x : headed r → x ∈ heading r → x ≠ nl ∧ x ≠ 60 ∧ x ≠ 62.
Proof.
  intros (_ & Hv & Hl & Hd & _). unfold heading, headingOf. lits.
  rewrite !elem_of_app. intros [Hx|[Hx|[Hx|[Hx|[Hx|[Hx|[Hx|Hx]]]]]]].
  - by apply list_elem_of_In, repeat_spec in Hx as ->.
  - repeat (apply elem_of_cons in Hx as [->|Hx]; [done|]). by apply elem_of_nil in Hx.
  - by destruct (field_elem _ _ Hv Hx) as (_ & _ & ? & ? & ?).
  - repeat (apply elem_of_cons in Hx as [->|Hx]; [done|]). by apply elem_of_nil in Hx.
  - by destruct (field_elem _ _ Hl Hx) as (_ & _ & ? & ? & ?).
  - repeat (apply elem_of_cons in Hx as [->|Hx]; [done|]). by apply elem_of_nil in Hx.
  - by destruct (field_elem _ _ Hd Hx) as (_ & _ & ? & ? & ?).
  - repeat (apply elem_of_cons in Hx as [->|Hx]; [done|]). by apply elem_of_nil in Hx.
Qed.

Lemma escape_heading r : headed r → escape (heading r) = heading r.
Proof.
  intros Hr. apply escape_plain. intros x Hx.
  by destruct (heading_line r x Hr Hx) as (_ & ? & ?).
Qed.

Lemma escape_sectionText r :
  headed r → escape (sectionText r) = nl :: heading r ++ escape (body r).
Proof.
  intros Hr. unfold sectionText.
  change (nl :: heading r ++ body r) with ([nl] ++ heading r ++ body r).
  by rewrite !escape_app, escape_heading.
Qed.

Lemma quiet_headed r b :
  headed r → quiet b = true → quiet (heading r ++ b) = true.
Proof.
  intros Hr Hb. apply quiet_app; [|done]. intros x Hx.
  by destruct (heading_line r x Hr Hx).
Qed.

Lemma piece_release r : headed r → piece (heading r ++ escape (body r)).
Proof.
  intros Hr. split.
  - apply quiet_headed; [done|]. apply quiet_escape. by destruct Hr as (_ & _ & _ & _ & ?).
  - intros rest. destruct Hr as (Hn & Hv & Hl & Hd & _).
    rewrite <- app_assoc. by apply exec_limit.
Qed.

Lemma run_releases `{Collation} rs st :
  Forall wellFormed rs →
  ∃ ws st',
    mapM_ processLocals ((λ r, nl :: heading r ++ escape (body r)) <$> rs) st
    = (Ok (Some <$> ws), st')
    ∧ Forall2 reads rs ws.
Proof.
  intros Hrs. revert st. induction Hrs as [|r rs Hr _ IH]; intros st.
  { exists [], st. by split. }
  destruct Hr as ((Hn & Hv & Hl & Hd & Hb) & Hau).
  destruct (processLocals_section (level r) (version r) (link r) (released r)
              (escape (body r)) st Hn Hv Hl Hd Hau)
    as (w & st1 & Hw & Ht & Hdl & Hdt & Hc).
  destruct (IH st1) as (ws & st2 & Hws & Hall).
  exists (w :: ws), st2. split; [|by constructor].
  change (headingOf (level r) (version r) (link r) (released r))
    with (heading r) in Hw.
  cbn [fmap list_fmap]. by rewrite mapM__cons, Hw, Hws.
Qed.

Lemma loadLocals_eq `{Collation} fileContent st :
  loadLocals fileContent st =
  match mapM_ processLocals (split sectionLimitPattern (sanitise fileContent)) st with
  | (Ok vs, st') => (Ok (omap id vs), st')
  | (TypeError, st') => (TypeError, st')
  | (OutOfFuel, st') => (OutOfFuel, st')
  end.
Proof.
  unfold loadLocals, mbind, M_bind, bind.
  by destruct (mapM_ processLocals _ st) as [[vs| |] st'].
Qed.

Lemma omap_Some {A} (l : list A) : omap id (Some <$> l) = l.
Proof. induction l as [|x l IH]; csimpl; [done | by f_equal]. Qed.

(** The sections of a changelog made of a quiet preamble and well-formed
    releases: one per release, in order. *)
Lemma loadLocals_releases `{Collation} P rs st :
  quiet P = true → Forall wellFormed rs →
  ∃ ws st', loadLocals (P ++ concat (sectionText <$> rs)) st = (Ok ws, st')
    ∧ Forall2 reads rs ws.
Proof.
  intros HP Hrs. rewrite loadLocals_eq, sanitise_escape, escape_app.
  assert (escape (concat (sectionText <$> rs))
          = concat ((λ T, nl :: T) <$> ((λ r, heading r ++ escape (body r)) <$> rs)))
    as ->.
  { induction Hrs as [|r rs Hr _ IH]; [done|]. cbn [fmap list_fmap concat].
    rewrite escape_app, IH, escape_sectionText by (by eapply wellFormed_headed).
    done. }
  rewrite split_pieces.
  2: by apply quiet_escape.
  2: { apply Forall_fmap. eapply Forall_impl; [exact Hrs|].
       intros r Hr. apply piece_release. by eapply wellFormed_headed. }
  rewrite <- list_fmap_compose.
  destruct (run_releases rs st Hrs) as (ws & st' & Hrun & Hall).
  exists ws, st'. split; [|done].
  unfold compose. destruct rs as [|r rs]; cbn [fmap list_fmap] in *; cbv beta.
  - apply Forall2_nil_inv_l in Hall as ->.
    rewrite mapM__cons, processLocals_quiet by (by apply quiet_escape).
    simpl in Hrun. injection Hrun as <-. done.
  - destruct (escape P) as [|x P'] eqn:HP'; cbn [isEmpty app].
    + rewrite Hrun. by rewrite omap_Some.
    + rewrite (mapM__cons _ (x :: P')), processLocals_quiet
        by (rewrite <- HP'; by apply quiet_escape).
      rewrite Hrun. csimpl. by rewrite omap_Some.
Qed.

Lemma titles_read rs ws : Forall2 reads rs ws → title <$> ws = version <$> rs.
Proof. induction 1 as [|r w rs ws (Ht & _) _ IH]; csimpl; [done | by f_equal]. Qed.

(** What [sanitise] does: the angle brackets become entities and nothing
    else changes (the replacement of line 116 puts the text it finds back). *)
Theorem sanitise_entities s :
  sanitise s
  = flat_map (λ c, if c =? 60 then lit "&lt;"
                   else if c =? 62 then lit "&gt;" else [c]) s.
Proof. apply sanitise_escape. Qed.

(** An empty changelog gives no document and leaves the registry as it
    is. *)
Theorem loadContent_empty `{Collation} st :
  loadContent [] st
  = (Ok {| sections := []; authorsJson := authorsMap st |}, st).
Proof. reflexivity. Qed.

(** The documents of a changelog made of a quiet preamble and well-formed
    releases: their titles are the versions, in order. *)
Lemma loadContent_titles `{Collation} P rs st :
  quiet P = true → Forall wellFormed rs →
  ∃ out st', loadContent (P ++ concat (sectionText <$> rs)) st = (Ok out, st')
    ∧ docTitle <$> sections out = version <$> rs.
Proof.
  intros HP Hrs.
  destruct (loadLocals_releases P rs st HP Hrs) as (ws & st' & Hrun & Hall).
  rewrite loadContent_loadLocals, Hrun. eexists _, _. split; [done|].
  cbn [sections]. rewrite <- list_fmap_compose.
  change (docTitle ∘ render) with title. by rewrite (titles_read rs ws Hall).
Qed.

(** C1 as stated fails: a changelog that is one well-formed heading, with
    no line feed before it, gives no document; and two releases with the
    same version give two documents with the same title. *)
Example titles_of_claim :
  (∃ out st,
     loadContent (H:=codeUnitOrder)
       (lit "## [1.0.0](https://x/compare/a...b) (2020-01-01)") initial
     = (Ok out, st) ∧ sections out = [])
  ∧ (∃ out st,
       loadContent (H:=codeUnitOrder) changelogTwice initial = (Ok out, st)
       ∧ docTitle <$> sections out = [lit "1.0.0"; lit "1.0.0"]).
Proof.
  split; eexists _, _; (split; [vm_compute; reflexivity | reflexivity]).
Qed.

(** C1, amended: a changelog made of a preamble without headings (it may
    be empty) and of N release sections, each a line feed, a well-formed
    heading and a body without further headings, gives exactly N documents,
    in the order of the changelog; the title of each is the version of its
    section, so the titles are distinct exactly when the versions are. *)
Theorem loadContent_releases `{Collation} P rs st :
  quiet P = true → Forall wellFormed rs →
  ∃ out st', loadContent (P ++ concat (sectionText <$> rs)) st = (Ok out, st')
    ∧ length (sections out) = length rs
    ∧ docTitle <$> sections out = version <$> rs
    ∧ (NoDup (docTitle <$> sections out) ↔ NoDup (version <$> rs)).
Proof.
  intros HP Hrs.
  destruct (loadContent_titles P rs st HP Hrs) as (out & st' & Hout & Htitles).
  exists out, st'. split; [done|]. split; [|split; [done | by rewrite Htitles]].
  by rewrite <- (length_fmap docTitle), Htitles, length_fmap.
Qed.

Lemma wellFormed_releaseA : wellFormed (H:=codeUnitOrder) releaseA.
Proof.
  split; [by repeat split; try reflexivity; repeat constructor|].
  intros Heq. vm_compute in Heq. discriminate Heq.
Defined.

Lemma wellFormed_releaseB : wellFormed (H:=codeUnitOrder) releaseB.
Proof.
  split; [by repeat split; try reflexivity; repeat constructor|].
  intros Heq. vm_compute in Heq. discriminate Heq.
Defined.

Lemma loadContent_releases_witness :
  ∃ out st',
    loadContent (H:=codeUnitOrder)
      (lit "Changelog" ++ concat (sectionText <$> [releaseB; releaseA])) initial
    = (Ok out, st')
    ∧ length (sections out) = 2%nat
    ∧ docTitle <$> sections out = version <$> [releaseB; releaseA]
    ∧ (NoDup (docTitle <$> sections out) ↔ NoDup (version <$> [releaseB; releaseA])).
Proof.
  apply (loadContent_releases (H:=codeUnitOrder) (lit "Changelog")
           [releaseB; releaseA] initial); [reflexivity|].
  repeat constructor; [apply wellFormed_releaseB | apply wellFormed_releaseA].
Defined.

Lemma exec_after_line_feed r x s :
  (x = nl → exec r s = None) → exec (Seq (Chr nl) r) (x :: s) = None.
Proof.
  unfold exec. cbn [m]. destruct (N.eqb_spec x nl) as [->|]; [|done].
  intros Hr. specialize (Hr eq_refl). by destruct (m r accept s []) as [[??]|].
Qed.

(** The heading is missed already at the very beginning of a changelog. *)
Example first_heading_dropped :
  ∃ out st,
    loadContent (H:=codeUnitOrder) changelogNoLineFeed initial = (Ok out, st)
    ∧ docTitle <$> sections out = [lit "1.0.0"].
Proof. eexists _, _. split; [vm_compute; reflexivity | reflexivity]. Qed.

(** C10: [processSection] returns [null] for every section in which no
    line feed is followed by a match of the title pattern, so also for a
    section that begins with a well-formed heading right away; a changelog
    whose first character begins a release heading gives no document for
    that release, and one for each release after it. *)
Theorem title_needs_line_feed `{Collation} :
  (∀ s st,
     (∀ pre suf, s = pre ++ nl :: suf → exec titlePattern suf = None) →
     processSection s st = (Ok None, st))
  ∧ (∀ r rs st,
       headed r → Forall wellFormed rs →
       processSection (heading r ++ body r) st = (Ok None, st)
       ∧ ∃ out st',
           loadContent (heading r ++ body r ++ concat (sectionText <$> rs)) st
           = (Ok out, st')
           ∧ docTitle <$> sections out = version <$> rs).
Proof.
  split.
  - intros s st Hs. rewrite processSection_eq, processLocals_untitled; [done|].
    intros pre [|x suf] ->; [done|]. apply exec_after_line_feed.
    intros ->. by eapply Hs.
  - intros r rs st Hr Hrs.
    assert (quiet (heading r ++ body r) = true) as Hq.
    { apply quiet_headed; [done|]. by destruct Hr as (_ & _ & _ & _ & ?). }
    split; [by rewrite processSection_eq, processLocals_quiet|].
    rewrite app_assoc.
    apply (loadContent_titles (heading r ++ body r) rs st Hq Hrs).
Qed.

Lemma title_needs_line_feed_witness :
  processSection (H:=codeUnitOrder) (heading releaseB ++ body releaseB) initial
  = (Ok None, initial)
  ∧ ∃ out st',
      loadContent (H:=codeUnitOrder)
        (heading releaseB ++ body releaseB ++ concat (sectionText <$> [releaseA]))
        initial
      = (Ok out, st')
      ∧ docTitle <$> sections out = version <$> [releaseA].
Proof.
  apply (proj2 (title_needs_line_feed (H:=codeUnitOrder)) releaseB [releaseA] initial).
  - apply wellFormed_releaseB.
  - repeat constructor. apply wellFormed_releaseA.
Defined.

End ChangelogSections.

(** ** The changelog plugin: the split into sections *)

Module SectionSplit.
Import Regex Changelog StringFacts RegexFacts.

(** The section limit is a lookahead: where it matches, the match is empty
    and the text goes on with a line feed and a hash sign. *)
Lemma exec_limit_Some t m0 c :
  exec sectionLimitPattern t = Some (m0, c) → m0 = [] ∧ ∃ t', t = nl :: 35 :: t'.
Proof.
  unfold exec, sectionLimitPattern. cbn [m].
  destruct (m _ accept t []) as [[rest c']|] eqn:E; [|done].
  unfold accept at 1. rewrite Nat.sub_diag. intros [= <- <-]. split; [done|].
  destruct t as [|x t]; [done|]. cbn [cat foldr m] in E.
  destruct (N.eqb_spec x nl) as [->|]; [|done].
  unfold hashesPattern in E. cbn [m repExact] in E.
  destruct t as [|y t]; [done|]. unfold isChr in E.
  destruct (N.eqb_spec y 35) as [->|]; [|done]. eauto.
Qed.

Lemma exec_limit_hash t : exec sectionLimitPattern (35 :: t) = None.
Proof.
  destruct (exec sectionLimitPattern (35 :: t)) as [[m0 c]|] eqn:E; [|done].
  by apply exec_limit_Some in E as (_ & t' & [=]).
Qed.

Lemma splitFrom_concat cur s :
  concat (splitFrom sectionLimitPattern cur 0 s) = rev cur ++ s.
Proof.
  revert cur. induction s as [|x s IH]; intros cur; cbn [splitFrom].
  - by rewrite app_nil_r; simpl; rewrite app_nil_r.
  - destruct (exec sectionLimitPattern (x :: s)) as [[m0 c]|] eqn:E.
    + apply exec_limit_Some in E as [-> _]. cbn [isEmpty].
      destruct cur as [|y cur]; cbn [isEmpty]; [by rewrite IH|].
      cbn [concat]. by rewrite IH.
    + rewrite IH. cbn [rev]. by rewrite <- app_assoc.
Qed.

Lemma splitFrom_pieces_shape n s cur :
  (length s ≤ n)%nat →
  ∃ u ps, splitFrom sectionLimitPattern cur 0 s = (rev cur ++ u) :: ps
    ∧ (cur ≠ [] ∨ s ≠ [] → rev cur ++ u ≠ [])
    ∧ Forall (λ p, ∃ t, p = nl :: 35 :: t) ps.
Proof.
  revert s cur. induction n as [|n IH]; intros s cur Hn.
  { destruct s; [|simpl in Hn; lia]. exists [], []. cbn [splitFrom].
    rewrite app_nil_r. split; [done|]. split; [|done].
    intros [Hc|Hs]; [|done]. intros Hr. apply Hc.
    apply (f_equal (@rev N)) in Hr. by rewrite rev_involutive in Hr. }
  destruct s as [|x s].
  { exists [], []. cbn [splitFrom]. rewrite app_nil_r. split; [done|].
    split; [|done]. intros [Hc|Hs]; [|done]. intros Hr. apply Hc.
    apply (f_equal (@rev N)) in Hr. by rewrite rev_involutive in Hr. }
  simpl in Hn. cbn [splitFrom].
  destruct (exec sectionLimitPattern (x :: s)) as [[m0 c]|] eqn:E.
  - apply exec_limit_Some in E as [-> (t' & [= -> ->])]. cbn [isEmpty].
    cbn [splitFrom]. rewrite exec_limit_hash.
    destruct (IH t' [35; nl]) as (u & ps & -> & Hne & Hps); [simpl in Hn; lia|].
    destruct cur as [|y cur]; cbn [isEmpty].
    + exists (nl :: 35 :: u), ps. split; [done|]. split; [done|]. done.
    + exists [], ((nl :: 35 :: u) :: ps). rewrite app_nil_r. split; [done|].
      split.
      * intros _ Hr. apply (f_equal (@rev N)) in Hr.
        by rewrite rev_involutive in Hr.
      * constructor; [eauto | done].
  - destruct (IH s (x :: cur)) as (u & ps & -> & Hne & Hps); [lia|].
    exists (x :: u), ps. cbn [rev]. rewrite <- app_assoc. split; [done|].
    split; [|done]. intros _. destruct (rev cur); done.
Qed.

(** The split loses no character: the pieces, put together, are the text.
    No piece is empty unless the text is, and every piece after the first
    begins with a line feed and a hash sign. *)
Theorem split_sections s :
  concat (split sectionLimitPattern s) = s
  ∧ (s ≠ [] → Forall (λ p, p ≠ []) (split sectionLimitPattern s))
  ∧ ∃ p ps, split sectionLimitPattern s = p :: ps
      ∧ Forall (λ q, ∃ t, q = nl :: 35 :: t) ps.
Proof.
  destruct s as [|x s].
  { split; [done|]. split; [done|]. by exists [], []. }
  change (split sectionLimitPattern (x :: s))
    with (splitFrom sectionLimitPattern [] 0 (x :: s)).
  split; [apply splitFrom_concat|].
  destruct (splitFrom_pieces_shape (length (x :: s)) (x :: s) [] (le_n _))
    as (u & ps & -> & Hne & Hps).
  split.
  - intros _. constructor; [apply Hne; by right|].
    eapply Forall_impl; [exact Hps|]. by intros p (t & ->).
  - eauto.
Qed.

End SectionSplit.
(** ** The changelog plugin: the documents *)

Module Documents.
Import Regex Changelog StringFacts RegexFacts ChangelogState ChangelogSections.

(** *** The sub-headings of the body (line 89) *)

Lemma exec_sub_other x t : x ≠ 35 → exec subHeadingPattern (x :: t) = None.
Proof.
  intros Hx. unfold exec, subHeadingPattern. cbn [cat foldr Str m].
  apply N.eqb_neq in Hx. change (N_of_ascii "#") with 35. by rewrite Hx.
Qed.

Lemma exec_sub_one t : head t ≠ Some 35 → exec subHeadingPattern (35 :: t) = None.
Proof.
  intros Ht. unfold exec, subHeadingPattern. cbn [cat foldr Str m].
  change (N_of_ascii "#") with 35. cbn [N.eqb Pos.eqb].
  destruct t as [|y t]; [done|]. destruct (N.eqb_spec y 35) as [->|]; done.
Qed.

Lemma exec_sub_two t :
  head t ≠ Some 35 → exec subHeadingPattern (35 :: 35 :: t) = None.
Proof.
  intros Ht. unfold exec, subHeadingPattern. cbn [cat foldr Str m].
  change (N_of_ascii "#") with 35. cbn [N.eqb Pos.eqb].
  destruct t as [|y t]; [done|]. destruct (N.eqb_spec y 35) as [->|]; done.
Qed.

Lemma exec_sub_three t :
  head t ≠ Some 35 →
  exec subHeadingPattern (35 :: 35 :: 35 :: t) = Some ([35; 35; 35], []).
Proof.
  intros Ht. unfold exec, subHeadingPattern. cbn [cat foldr Str m].
  change (N_of_ascii "#") with 35. cbn [N.eqb Pos.eqb].
  destruct t as [|y t].
  - done.
  - destruct (N.eqb_spec y 35) as [->|]; [done|]. unfold accept.
    cbn [length]. replace (S (S (S (S (length t)))) - S (length t))%nat with 3%nat by lia.
    done.
Qed.

Lemma exec_sub_four t :
  exec subHeadingPattern (35 :: 35 :: 35 :: 35 :: t) = Some ([35; 35; 35; 35], []).
Proof.
  unfold exec, subHeadingPattern. cbn [cat foldr Str m].
  change (N_of_ascii "#") with 35. cbn [N.eqb Pos.eqb].
  rewrite bool_decide_eq_false_2 by (cbn [length]; lia). unfold accept.
  cbn [length]. replace (S (S (S (S (length t)))) - length t)%nat with 4%nat by lia.
  done.
Qed.

Lemma demoted_four n : demoted (4 + n) = (2 + demoted n)%nat.
Proof.
  unfold demoted. replace (4 + n)%nat with (n + 1 * 4)%nat by lia.
  rewrite Nat.div_add by done. rewrite Nat.Div0.mod_add. lia.
Qed.

Lemma replaceAll_hashes n t :
  head t ≠ Some 35 →
  replaceAll subHeadingPattern (lit "##") (hashes n ++ t)
  = hashes (demoted n) ++ replaceAll subHeadingPattern (lit "##") t.
Proof.
  intros Ht. induction (lt_wf n) as [n _ IH].
  destruct n as [|[|[|[|n]]]].
  - done.
  - unfold replaceAll. cbn [hashes repeat app replaceAllFrom].
    by rewrite exec_sub_one.
  - unfold replaceAll. cbn [hashes repeat app replaceAllFrom].
    rewrite exec_sub_two by done. destruct t as [|y t]; [done|].
    by rewrite exec_sub_one.
  - unfold replaceAll. cbn [hashes repeat app replaceAllFrom].
    rewrite exec_sub_three by done. done.
  - change (S (S (S (S n)))) with (4 + n)%nat. rewrite demoted_four.
    unfold replaceAll. cbn [hashes repeat app Nat.add replaceAllFrom].
    rewrite exec_sub_four. cbn [isEmpty length Nat.sub replaceAllFrom].
    fold (hashes n). fold (replaceAll subHeadingPattern (lit "##") (hashes n ++ t)).
    rewrite IH by lia. done.
Qed.

(** Line 89 on the body of a section: a character other than the hash sign
    stays, and a run of hash signs is demoted as a whole; so [###] and
    [####] become [##], and one or two hash signs stay. *)
Theorem subheadings_demoted :
  (∀ x t, x ≠ 35 →
     replaceAll subHeadingPattern (lit "##") (x :: t)
     = x :: replaceAll subHeadingPattern (lit "##") t)
  ∧ (∀ n t, head t ≠ Some 35 →
       replaceAll subHeadingPattern (lit "##") (hashes n ++ t)
       = hashes (demoted n) ++ replaceAll subHeadingPattern (lit "##") t)
  ∧ demoted 1 = 1%nat ∧ demoted 2 = 2%nat ∧ demoted 3 = 2%nat ∧ demoted 4 = 2%nat.
Proof.
  split; [|split; [apply replaceAll_hashes | done]].
  intros x t Hx. unfold replaceAll. cbn [replaceAllFrom].
  by rewrite exec_sub_other.
Qed.

Lemma subheadings_demoted_witness :
  replaceAll subHeadingPattern (lit "##") (lit "#### Committers: 1" ++ nl :: lit "### Fixes")
  = lit "## Committers: 1" ++ nl :: lit "## Fixes".
Proof.
  destruct subheadings_demoted as (Hc & Hh & _).
  change (lit "#### Committers: 1" ++ nl :: lit "### Fixes")
    with (hashes 4 ++ lit " Committers: 1" ++ nl :: hashes 3 ++ lit " Fixes").
  rewrite (Hh 4%nat) by (intros [=]).
  lits. cbn [app]. rewrite !Hc by (intros [=]).
  rewrite (Hh 3%nat (32 :: _)) by (intros [=]).
  rewrite !Hc by (intros [=]). done.
Defined.

(** *** The body is trimmed (lines 42 to 44) *)

Lemma dropWhile_head p s x : head (dropWhile p s) = Some x → p x = false.
Proof.
  induction s as [|y s IH]; simpl; [done|].
  destruct (p y) eqn:Hy; [done|]. by intros [= <-].
Qed.

Lemma dropWhile_last p s x :
  last (dropWhile p s) = Some x → last s = Some x.
Proof.
  induction s as [|y s IH]; simpl; [done|].
  destruct (p y) eqn:Hy; [|done]. intros Hx. specialize (IH Hx).
  destruct s; [done|]. done.
Qed.

Lemma head_rev (l : str) : head (rev l) = last l.
Proof. rewrite rev_alt. apply head_reverse. Qed.

Lemma last_rev (l : str) : last (rev l) = head l.
Proof. rewrite rev_alt. apply last_reverse. Qed.

Lemma trim_ends s x :
  (head (trim s) = Some x → isWhiteSpace x = false)
  ∧ (last (trim s) = Some x → isWhiteSpace x = false).
Proof.
  unfold trim. split.
  - rewrite head_rev. intros Hx%dropWhile_last. rewrite last_rev in Hx.
    by apply dropWhile_head in Hx.
  - rewrite last_rev. apply dropWhile_head.
Qed.

(** The body of a document is trimmed: it neither begins nor ends with
    white space (a blank, a tab, a line terminator). *)
Theorem content_trimmed `{Collation} section st v st' x :
  processLocals section st = (Ok (Some v), st') →
  (head (content v) = Some x → isWhiteSpace x = false)
  ∧ (last (content v) = Some x → isWhiteSpace x = false).
Proof.
  intros (tm & _ & _ & _ & _ & -> & _)%processLocals_Some. apply trim_ends.
Qed.

Lemma content_trimmed_witness :
  ∃ v st', processLocals (H:=codeUnitOrder) changelogExample initial = (Ok (Some v), st')
    ∧ content v = lit "some notes"
    ∧ (head (content v) = Some 115 → isWhiteSpace 115 = false)
    ∧ (last (content v) = Some 115 → isWhiteSpace 115 = false).
Proof.
  eexists _, _. split; [vm_compute; reflexivity|]. split; [reflexivity|].
  eapply (content_trimmed (H:=codeUnitOrder) changelogExample initial).
  vm_compute. reflexivity.
Defined.

(** *** The document of a section *)

Lemma render_lines v :
  docContent (render v) =
  join NL
    ([ lit "---"; lit "date: " ++ stampOf v; lit "title: " ++ title v ]
     ++ match authors v with
        | Some cs =>
            [ lit "authors:" ++ NL
              ++ join NL ((λ c, lit "  - '" ++ alias c ++ lit "'") <$> cs) ]
        | None => []
        end
     ++ [ lit "---"; lit "# " ++ title v; lit "<!-- truncate -->";
          lit "[code diff](" ++ diffLink v ++ lit ")" ]
     ++ (let text := replaceAll subHeadingPattern (lit "##") (content v) in
         if isEmpty text then [] else [text])).
Proof.
  unfold render, stampOf, stamp. cbn [docContent]. f_equal.
  cbn [List.filter]. lits. cbn [isEmpty negb app].
  destruct (authors v) as [cs|]; cbn [authorsMarkdown]; lits;
    cbn [isEmpty negb app];
    by destruct (replaceAll _ _ (content v)).
Qed.

(** [processSection] on a section that begins with a line feed and a
    well-formed heading: the document it returns, line by line, and what
    it writes to the module-level state.  [filter(Boolean)] drops the
    authors entry of a section without committers and the body of a
    section without text. *)
Theorem processSection_document `{Collation} n v l d b au st :
  (1 ≤ n ≤ 3)%nat → field v = true → field l = true → field d = true →
  parseAuthors (trim b) = Ok au →
  ∃ h,
    findHour (S (size (publishTimes st))) (publishTimes st) d 20 = Some h
    ∧ processSection (nl :: headingOf n v l d ++ b) st
      = (Ok (Some
           {| docTitle := v;
              docContent :=
                join NL
                  ([ lit "---"; lit "date: " ++ stamp d h; lit "title: " ++ v ]
                   ++ match au with
                      | Some cs =>
                          [ lit "authors:" ++ NL
                            ++ join NL ((λ c, lit "  - '" ++ alias c ++ lit "'") <$> cs) ]
                      | None => []
                      end
                   ++ [ lit "---"; lit "# " ++ v; lit "<!-- truncate -->";
                        lit "[code diff](" ++ l ++ lit ")" ]
                   ++ (let text := replaceAll subHeadingPattern (lit "##") (trim b) in
                       if isEmpty text then [] else [text])) |}),
         {| publishTimes := {[ stamp d h ]} ∪ publishTimes st;
            authorsMap := registered (authorsMap st) au |}).
Proof.
  intros Hn Hv Hl Hd Hau.
  destruct (findHour_total (publishTimes st) d 20) as [h Hh]. exists h.
  split; [done|]. rewrite processSection_eq. unfold processLocals.
  rewrite (search_here _ _ _ _ (exec_title n v l d b Hn Hv Hl Hd)).
  cbn [matched isEmpty].
  change (nl :: headingOf n v l d ++ b) with ((nl :: headingOf n v l d) ++ b).
  rewrite replaceStr_prefix, Hau.
  unfold mbind, M_bind, bind, registerAuthors, assignHour, ret.
  cbn [publishTimes authorsMap].
  change (groupOf _ "release_date") with d.
  change (groupOf _ "version") with v.
  change (groupOf _ "compare_link") with l.
  rewrite Hh. cbn [fmap option_fmap option_map]. do 3 f_equal.
  set (w := {| title := v; diffLink := l; content := trim b;
               authors := au; hour := h; date := d |}).
  change (render w)
    with {| docTitle := title w; docContent := docContent (render w) |}.
  by rewrite render_lines.
Qed.

Lemma processSection_document_witness :
  ∃ doc st,
    processSection (H:=codeUnitOrder) changelogAlice initial = (Ok (Some doc), st)
    ∧ docContent doc
      = lit "---" ++ lines [ "date: 2020-01-01T20:00"; "title: 1.0.0"; "authors:";
                               "  - 'alice'"; "---"; "# 1.0.0"; "<!-- truncate -->";
                               "[code diff](https://x/compare/a...b)";
                               "## Committers: 1";
                               "- [@alice](https://github.com/alice)" ].
Proof.
  destruct (processSection_document (H:=codeUnitOrder) 2 (lit "1.0.0")
              (lit "https://x/compare/a...b") (lit "2020-01-01")
              (lines [ EmptyString; "#### Committers: 1";
                       "- [@alice](https://github.com/alice)" ])
              (Some [ committer (lit "alice") (lit "alice")
                        (lit "https://github.com/alice") ])
              initial) as (h & Hh & Hrun);
    [lia | reflexivity | reflexivity | reflexivity | vm_compute; reflexivity |].
  vm_compute in Hh. injection Hh as <-.
  eexists _, _. split; [exact Hrun|]. vm_compute. reflexivity.
Defined.

(** Sanitising leaves no angle bracket, so that sanitising again changes
    nothing; and it works on a text part by part. *)
Theorem sanitise_twice :
  (∀ s, Forall (λ c, c ≠ 60 ∧ c ≠ 62) (sanitise s))
  ∧ (∀ s, sanitise (sanitise s) = sanitise s)
  ∧ (∀ a b, sanitise (a ++ b) = sanitise a ++ sanitise b).
Proof.
  assert (∀ s, Forall (λ c, c ≠ 60 ∧ c ≠ 62) (escape s)) as Hfree.
  { intros s. induction s as [|x s IH]; [done|]. unfold escape.
    cbn [flat_map]. fold (escape s). apply Forall_app. split; [|done].
    destruct (N.eqb_spec x 60); [lits; by repeat constructor|].
    destruct (N.eqb_spec x 62); [lits; by repeat constructor|].
    by repeat constructor. }
  split; [|split].
  - intros s. by rewrite sanitise_escape.
  - intros s. rewrite !sanitise_escape. apply escape_plain.
    intros x Hx. specialize (Hfree s). rewrite Forall_forall in Hfree.
    by apply Hfree.
  - intros a b. rewrite !sanitise_escape. apply escape_app.
Qed.

End Documents.

(** ** The changelog plugin: invariants of the module-level state *)

Module StateInvariants.
Import Regex Changelog StringFacts RegexFacts ChangelogState ChangelogSections.
Local Open Scope Z_scope.

(** *** Exceptions *)

Lemma processLocals_TypeError `{Collation} s st st' :
  processLocals s st = (TypeError, st') → st' = st.
Proof.
  unfold processLocals. destruct (search _ s) as [tm|]; [|by intros [=]].
  destruct (isEmpty (matched tm)); [by intros [=]|].
  destruct (parseAuthors _) as [au| |] eqn:Hau; [|by intros [= <-]..].
  unfold mbind, M_bind, bind, registerAuthors, assignHour, ret.
  cbn [publishTimes authorsMap].
  by destruct (findHour _ _ _ _).
Qed.

Lemma raise_keeps_state `{Collation} s st :
  (processSection s st).1 = TypeError → processSection s st = (TypeError, st).
Proof.
  rewrite processSection_eq.
  destruct (processLocals s st) as [[v| |] st'] eqn:E; [done| |done].
  intros _. by apply processLocals_TypeError in E as ->.
Qed.

Lemma mapM__app_raise {A B} (f : A → M B) l1 x l2 st ys st1 st2 :
  mapM_ f l1 st = (Ok ys, st1) → f x st1 = (TypeError, st2) →
  mapM_ f (l1 ++ x :: l2) st = (TypeError, st2).
Proof.
  revert st ys. induction l1 as [|y l1 IH]; intros st ys.
  - intros [= <- <-] Hx. cbn [app]. by rewrite mapM__cons, Hx.
  - intros (z & zs & st' & Hy & Hrest & ->)%mapM__cons_Ok Hx.
    cbn [app]. by rewrite mapM__cons, Hy, (IH _ _ Hrest Hx).
Qed.

(** When a section raises, [loadContent] raises: no document is returned
    and the sections after it are not read, but the module-level state is
    the one that the sections before it have left. *)
Theorem loadContent_stops `{Collation} fileContent l1 x l2 st ds st1 :
  split sectionLimitPattern (sanitise fileContent) = l1 ++ x :: l2 →
  mapM_ processSection l1 st = (Ok ds, st1) →
  (processSection x st1).1 = TypeError →
  loadContent fileContent st = (TypeError, st1).
Proof.
  intros Hsplit Hrun Hx%raise_keeps_state.
  unfold loadContent, mbind, M_bind, bind.
  by rewrite Hsplit, (mapM__app_raise _ _ _ _ _ _ _ _ Hrun Hx).
Qed.

Lemma loadContent_stops_witness :
  loadContent (H:=codeUnitOrder) (changelogNotes ++ changelogNoLines) initial
  = (TypeError,
     {| publishTimes := {[ stamp (lit "2021-01-01") 20 ]}; authorsMap := ∅ |}).
Proof.
  let r := eval vm_compute in
             (mapM_ (processSection (H:=codeUnitOrder)) [changelogNotes] initial) in
  match r with
  | (Ok ?ds, ?st1) =>
      rewrite (loadContent_stops (H:=codeUnitOrder)
                 (changelogNotes ++ changelogNoLines)
                 [changelogNotes] changelogNoLines [] initial ds st1)
  end.
  - vm_compute. reflexivity.
  - vm_compute. reflexivity.
  - vm_compute. reflexivity.
  - vm_compute. reflexivity.
Defined.

(** *** The publish times *)

Lemma run_size `{Collation} secs st rs st' :
  mapM_ processLocals secs st = (Ok rs, st') →
  size (publishTimes st') = (size (publishTimes st) + length (omap id rs))%nat.
Proof.
  revert st rs. induction secs as [|s secs IH]; intros st rs.
  { intros [= <- <-]. simpl. lia. }
  intros (y & rs' & st1 & Hy & Hrest & ->)%mapM__cons_Ok.
  rewrite (IH _ _ Hrest). destruct y as [v|]; csimpl.
  - apply processLocals_Some in Hy as (tm & _ & _ & _ & _ & _ & _ & Hf & Hpt & _).
    apply findHour_Some in Hf as (_ & Hnot & _).
    rewrite Hpt, size_union, size_singleton; [lia|].
    intros x ->%elem_of_singleton. done.
  - by apply processLocals_None in Hy as ->.
Qed.

Lemma loadContent_Ok `{Collation} fileContent st out st' :
  loadContent fileContent st = (Ok out, st') →
  ∃ rs, mapM_ processLocals (split sectionLimitPattern (sanitise fileContent)) st
        = (Ok rs, st')
    ∧ sections out = render <$> omap id rs
    ∧ authorsJson out = authorsMap st'.
Proof.
  rewrite loadContent_loadLocals.
  destruct (loadLocals fileContent st) as [[vs| |] st1] eqn:Hrun; [|done..].
  intros [= <- <-]. apply loadLocals_run in Hrun as (rs & Hrs & ->). eauto.
Qed.

(** Every document of a call takes one publish time that was free: the
    set grows by the number of documents, and nothing is ever removed. *)
Theorem publishTimes_grow `{Collation} fileContent st out st' :
  loadContent fileContent st = (Ok out, st') →
  publishTimes st ⊆ publishTimes st'
  ∧ size (publishTimes st')
    = (size (publishTimes st) + length (sections out))%nat.
Proof.
  intros (rs & Hrs & -> & _)%loadContent_Ok. split.
  - by apply run_hours in Hrs as (Hsub & _).
  - rewrite length_fmap. by eapply run_size.
Qed.

Lemma publishTimes_grow_witness :
  ∃ out st',
    loadContent (H:=codeUnitOrder) changelogSameDay initial = (Ok out, st')
    ∧ size (publishTimes st') = 3%nat.
Proof.
  eexists _, _. split; [vm_compute; reflexivity|].
  eapply eq_trans;
    [apply (publishTimes_grow (H:=codeUnitOrder) changelogSameDay initial);
     vm_compute; reflexivity|].
  vm_compute. reflexivity.
Defined.

Lemma run_countdown `{Collation} secs st rs st' d n :
  mapM_ processLocals secs st = (Ok rs, st') →
  (∀ h, stamp d h ∈ publishTimes st ↔ 20 - Z.of_nat n < h ≤ 20) →
  (∀ v, v ∈ omap id rs → date v = d) →
  ∀ i v, omap id rs !! i = Some v → hour v = 20 - Z.of_nat n - Z.of_nat i.
Proof.
  revert st rs n. induction secs as [|s secs IH]; intros st rs n.
  { by intros [= <- <-] _ _ i v. }
  intros (y & rs' & st1 & Hy & Hrest & ->)%mapM__cons_Ok Hst Hd.
  destruct y as [v0|]; csimpl in *.
  - apply processLocals_Some in Hy as (tm & _ & _ & _ & _ & _ & _ & Hf & Hpt & _).
    apply findHour_Some in Hf as (Hle & Hnot & Hall).
    assert (date v0 = d) as Hd0 by (apply Hd; by left). rewrite Hd0 in *.
    assert (hour v0 = 20 - Z.of_nat n) as Hh0.
    { destruct (decide (hour v0 ≤ 20 - Z.of_nat n)) as [Hlow|Hhigh].
      - destruct (decide (hour v0 = 20 - Z.of_nat n)) as [|Hne]; [done|].
        exfalso. assert (stamp d (20 - Z.of_nat n) ∈ publishTimes st) as Hin
          by (apply Hall; lia).
        apply Hst in Hin. lia.
      - exfalso. apply Hnot, Hst. lia. }
    intros [|i] v Hv; simpl in Hv.
    + injection Hv as <-. lia.
    + rewrite (IH st1 rs' (S n) Hrest) with (i := i) (v := v); [lia| |auto|done].
      * intros h. rewrite Hpt, elem_of_union, elem_of_singleton, Hst. split.
        -- intros [Heq%stamp_inj|?]; lia.
        -- intros Hh. destruct (decide (h = hour v0)) as [->|]; [by left|].
           right. lia.
      * intros w Hw. apply Hd. by right.
  - apply processLocals_None in Hy as ->. by eapply IH.
Qed.

(** The sections of one release date, read in a state that has no publish
    time for that date, get the hours 20, 19, 18 and so on without end:
    from the twenty-second on the hour is negative. *)
Theorem same_date_countdown `{Collation} fileContent st vs st' d :
  loadLocals fileContent st = (Ok vs, st') →
  (∀ h, stamp d h ∉ publishTimes st) →
  (∀ v, v ∈ vs → date v = d) →
  ∀ i v, vs !! i = Some v → hour v = 20 - Z.of_nat i.
Proof.
  intros (rs & Hrs & ->)%loadLocals_run Hfree Hd i v Hv.
  rewrite (run_countdown _ _ _ _ d 0 Hrs) with (i := i) (v := v); [lia| |done..].
  intros h. split; [by intros ?%Hfree | simpl; lia].
Qed.

Lemma same_date_countdown_witness :
  ∃ vs st', loadLocals (H:=codeUnitOrder) changelogSameDay initial = (Ok vs, st')
    ∧ hour <$> vs !! 2%nat = Some 18.
Proof.
  let r := eval vm_compute in
             (loadLocals (H:=codeUnitOrder) changelogSameDay initial) in
  match r with
  | (Ok [?v0; ?v1; ?v2], ?st') =>
      exists [v0; v1; v2], st'; split; [vm_compute; reflexivity|];
      refine (f_equal Some
                (same_date_countdown (H:=codeUnitOrder) changelogSameDay initial
                   [v0; v1; v2] st' (lit "2020-01-01") _ _ _ 2%nat v2 eq_refl))
  end.
  - vm_compute. reflexivity.
  - intros h Hh. by apply not_elem_of_empty in Hh.
  - intros v Hv. repeat (apply elem_of_cons in Hv as [->|Hv]; [reflexivity|]).
    by apply elem_of_nil in Hv.
Defined.




(** The key [__proto__] never gets an entry: what the registry has for it
    after a call is what it had before. *)
Lemma registry_proto_unchanged_witness :
  ∃ out st',
    loadContent (H:=codeUnitOrder) changelogProto initial = (Ok out, st')
    ∧ authorsJson out !! protoKey = None.
Proof.
  eexists _, _. split; [vm_compute; reflexivity|].
  eapply eq_trans;
    [eapply (registry_proto_unchanged (H:=codeUnitOrder) changelogProto initial);
     vm_compute; reflexivity|].
  reflexivity.
Defined.

End StateInvariants.
(** ** The changelog plugin: headings, sections and documents *)

Module Headings.
Import Regex Changelog StringFacts RegexFacts ChangelogState ChangelogSections SectionSplit StateInvariants.

(** *** What a match tells about the text *)

Lemma repGreedy_sound p hi k inp c res :
  repGreedy p hi k inp c = Some res →
  ∃ a rest, inp = a ++ rest ∧ forallb p a = true
    ∧ (∀ h, hi = Some h → (length a ≤ h)%nat) ∧ k rest c = Some res.
Proof.
  revert hi. induction inp as [|x xs IH]; intros hi; simpl.
  - intros Hk. exists [], []. repeat split; [|done]. intros h _. simpl. lia.
  - assert (k (x :: xs) c = Some res →
            ∃ a rest, x :: xs = a ++ rest ∧ forallb p a = true
              ∧ (∀ h, hi = Some h → (length a ≤ h)%nat) ∧ k rest c = Some res)
      as Hstop.
    { intros Hk. exists [], (x :: xs). repeat split; [|done].
      intros h _. simpl. lia. }
    destruct (more hi && p x) eqn:Hx; [|done].
    destruct (repGreedy p (less hi) k xs c) as [r|] eqn:E; [|done].
    intros [= <-]. destruct (IH _ E) as (a & rest & -> & Ha & Hlen & Hk).
    apply andb_true_iff in Hx as [Hmore Hx].
    exists (x :: a), rest. simpl. rewrite Hx. repeat split; [done| |done].
    intros h ->. destruct h as [|h]; [done|]. simpl in Hlen.
    specialize (Hlen h eq_refl). lia.
Qed.

Lemma repLazy_sound p hi k inp c res :
  repLazy p hi k inp c = Some res →
  ∃ a rest, inp = a ++ rest ∧ forallb p a = true ∧ k rest c = Some res.
Proof.
  revert hi. induction inp as [|x xs IH]; intros hi; simpl.
  - destruct (k [] c) as [r|] eqn:Hk; [|done]. intros [= <-]. by exists [], [].
  - destruct (k (x :: xs) c) as [r|] eqn:Hk.
    { intros [= <-]. by exists [], (x :: xs). }
    destruct (more hi && p x) eqn:Hx; [|done].
    intros (a & rest & -> & Ha & Hres)%IH.
    apply andb_true_iff in Hx as [_ Hx].
    exists (x :: a), rest. simpl. by rewrite Hx.
Qed.

Lemma m_Str_sound s k inp c res :
  m (Str s) k inp c = Some res → ∃ rest, inp = lit s ++ rest ∧ k rest c = Some res.
Proof.
  rewrite m_Str. destruct (stripPrefix (lit s) inp) as [rest|] eqn:E; [|done].
  apply stripPrefix_Some in E as ->. eauto.
Qed.

Lemma run_hashes a : forallb (isChr 35) a = true → a = hashes (length a).
Proof.
  induction a as [|x a IH]; [done|]. simpl. unfold isChr at 1.
  destruct (N.eqb_spec x 35) as [->|]; [|done]. intros Ha.
  unfold hashes in *. simpl. by rewrite <- IH.
Qed.

Lemma m_hashes_sound k t c res :
  m hashesPattern k t c = Some res →
  ∃ n u, (1 ≤ n ≤ 3)%nat ∧ t = hashes n ++ u ∧ k u c = Some res.
Proof.
  unfold hashesPattern. cbn [m repExact fmap option_fmap option_map].
  destruct t as [|x t]; [done|]. unfold isChr at 1.
  destruct (N.eqb_spec x 35) as [->|]; [|done].
  intros (a & u & -> & Ha & Hlen & Hk)%repGreedy_sound.
  specialize (Hlen _ eq_refl). exists (S (length a)), u.
  split; [simpl in Hlen; lia|]. split; [|done].
  rewrite (run_hashes a Ha) at 1. done.
Qed.

Lemma m_Grp_lazy_sound name p k inp c res :
  m (Grp name (Rep p 0 None false)) k inp c = Some res →
  ∃ a rest, inp = a ++ rest ∧ forallb p a = true
    ∧ k rest ((name, a) :: c) = Some res.
Proof.
  cbn [m]. change (repExact p 0 ?k) with k.
  intros (a & rest & -> & Ha & Hk)%repLazy_sound.
  rewrite take_app_length' in Hk. eauto.
Qed.

Lemma m_star_sound p g k inp c res :
  m (Rep p 0 None g) k inp c = Some res →
  ∃ a rest, inp = a ++ rest ∧ forallb p a = true ∧ k rest c = Some res.
Proof.
  rewrite m_star. destruct g.
  - intros (a & rest & -> & Ha & _ & Hk)%repGreedy_sound. eauto.
  - apply repLazy_sound.
Qed.

(** A match of the title pattern is a heading: the hash signs and three
    texts without line terminators, which are the groups. *)
Lemma title_sound inp rest c :
  m titlePattern accept inp [] = Some (rest, c) →
  ∃ n v l d, (1 ≤ n ≤ 3)%nat
    ∧ forallb dot v = true ∧ forallb dot l = true ∧ forallb dot d = true
    ∧ inp = headingOf n v l d ++ rest
    ∧ c = [("release_date", d); ("compare_link", l); ("version", v)].
Proof.
  unfold titlePattern. rewrite m_cat_cons.
  intros (n & u & Hn & -> & Hk)%m_hashes_sound.
  rewrite m_cat_cons in Hk. apply m_Str_sound in Hk as (u1 & -> & Hk).
  rewrite m_cat_cons in Hk. apply m_Grp_lazy_sound in Hk as (v & u2 & -> & Hv & Hk).
  rewrite m_cat_cons in Hk. apply m_Str_sound in Hk as (u3 & -> & Hk).
  rewrite m_cat_cons in Hk. apply m_Grp_lazy_sound in Hk as (l & u4 & -> & Hl & Hk).
  rewrite m_cat_cons in Hk. apply m_Str_sound in Hk as (u5 & -> & Hk).
  rewrite m_cat_cons in Hk. apply m_Grp_lazy_sound in Hk as (d & u6 & -> & Hd & Hk).
  rewrite m_cat_cons in Hk. apply m_Str_sound in Hk as (u7 & -> & Hk).
  injection Hk as <- <-. exists n, v, l, d. unfold headingOf.
  by rewrite <- !app_assoc.
Qed.

(** Where the section limit is found, the text goes on with a line feed
    and a heading. *)
Lemma limit_sound t m0 c :
  exec sectionLimitPattern t = Some (m0, c) →
  ∃ n v l d rest, (1 ≤ n ≤ 3)%nat
    ∧ forallb dot v = true ∧ forallb dot l = true ∧ forallb dot d = true
    ∧ t = nl :: headingOf n v l d ++ rest.
Proof.
  unfold exec, sectionLimitPattern. cbn [m].
  destruct (m _ accept t []) as [[rest c']|] eqn:E; [|done]. intros _.
  rewrite m_cat_cons in E. cbn [m] in E. destruct t as [|x t]; [done|].
  destruct (N.eqb_spec x nl) as [->|]; [|done].
  rewrite m_cat_cons in E. apply m_hashes_sound in E as (n & u & Hn & -> & Hk).
  rewrite m_cat_cons in Hk. apply m_Str_sound in Hk as (u1 & -> & Hk).
  rewrite m_cat_cons in Hk. apply m_star_sound in Hk as (v & u2 & -> & Hv & Hk).
  rewrite m_cat_cons in Hk. apply m_Str_sound in Hk as (u3 & -> & Hk).
  rewrite m_cat_cons in Hk. apply m_star_sound in Hk as (l & u4 & -> & Hl & Hk).
  rewrite m_cat_cons in Hk. apply m_Str_sound in Hk as (u5 & -> & Hk).
  rewrite m_cat_cons in Hk. apply m_star_sound in Hk as (d & u6 & -> & Hd & Hk).
  rewrite m_cat_cons in Hk. apply m_Str_sound in Hk as (u7 & -> & Hk).
  exists n, v, l, d, u7. unfold headingOf. by rewrite <- !app_assoc.
Qed.

(** *** What the text tells about a match *)

Lemma m_Grp_lazy_reach name p k a rest c :
  forallb p a = true → (∀ c', is_Some (k rest c')) →
  is_Some (m (Grp name (Rep p 0 None false)) k (a ++ rest) c).
Proof.
  intros Ha Hk. cbn [m]. change (repExact p 0 ?k) with k.
  by apply repLazy_reach.
Qed.

(** The title pattern finds a match at every heading, whatever its texts
    are made of: the lazy groups may divide the heading in another way
    than the greedy ones of the section limit, but they find a way. *)
Lemma title_reach n v l d rest :
  (1 ≤ n ≤ 3)%nat →
  forallb dot v = true → forallb dot l = true → forallb dot d = true →
  is_Some (m titlePattern accept (headingOf n v l d ++ rest) []).
Proof.
  intros Hn Hv Hl Hd. unfold titlePattern, headingOf. rewrite <- !app_assoc.
  rewrite m_cat_cons.
  match goal with |- is_Some (m _ ?k _ _) =>
    assert (is_Some (k (lit " [" ++ v ++ lit "](" ++ l ++ lit ") ("
                        ++ d ++ lit ")" ++ rest) [])) as [res Hres] end.
  2: { erewrite (m_hashes n); [done | done | exact Hres]. }
  rewrite m_cat_cons, m_Str_app, m_cat_cons.
  apply m_Grp_lazy_reach; [done|]. intros c1.
  rewrite m_cat_cons, m_Str_app, m_cat_cons.
  apply m_Grp_lazy_reach; [done|]. intros c2.
  rewrite m_cat_cons, m_Str_app, m_cat_cons.
  apply m_Grp_lazy_reach; [done|]. intros c3.
  by rewrite m_cat_cons, m_Str_app.
Qed.

Lemma searchFrom_Some r i s tm :
  searchFrom r i s = Some tm →
  ∃ pre suf, s = pre ++ suf ∧ exec r suf = Some (matched tm, groups tm)
    ∧ ∀ p1 p2, pre = p1 ++ p2 → p2 ≠ [] → exec r (p2 ++ suf) = None.
Proof.
  revert i. induction s as [|x s IH]; intros i; simpl.
  - destruct (exec r []) as [[m0 c]|] eqn:E; [|done]. intros [= <-].
    exists [], []. split; [done|]. split; [done|]. by intros [|] [|].
  - destruct (exec r (x :: s)) as [[m0 c]|] eqn:E.
    + intros [= <-]. exists [], (x :: s). split; [done|]. split; [done|].
      by intros [|] [|].
    + intros (pre & suf & -> & Hs & Hfirst)%IH. exists (x :: pre), suf.
      split; [done|]. split; [done|]. intros [|y p1] p2 Hp Hne.
      * simpl in Hp. by subst p2.
      * injection Hp as -> ->. by apply (Hfirst p1).
Qed.


Lemma exec_title_Some t m0 c :
  exec (Seq (Chr nl) titlePattern) t = Some (m0, c) →
  ∃ n v l d rest, (1 ≤ n ≤ 3)%nat
    ∧ forallb dot v = true ∧ forallb dot l = true ∧ forallb dot d = true
    ∧ t = nl :: headingOf n v l d ++ rest
    ∧ m0 = nl :: headingOf n v l d
    ∧ c = [("release_date", d); ("compare_link", l); ("version", v)].
Proof.
  unfold exec. cbn [m]. destruct t as [|x t]; [done|].
  destruct (N.eqb_spec x nl) as [->|]; [|done].
  destruct (m titlePattern accept t []) as [[rest c']|] eqn:E; [|done].
  intros [= <- <-].
  apply title_sound in E as (n & v & l & d & Hn & Hv & Hl & Hd & -> & ->).
  exists n, v, l, d, rest. do 5 (split; [done|]). split; [|done].
  apply (take_app_length' (nl :: headingOf n v l d) rest).
Qed.



(** *** One document for every section limit *)

Lemma processLocals_titled `{Collation} n v l d rest st :
  (1 ≤ n ≤ 3)%nat →
  forallb dot v = true → forallb dot l = true → forallb dot d = true →
  (processLocals (nl :: headingOf n v l d ++ rest) st).1 ≠ Ok None.
Proof.
  intros Hn Hv Hl Hd.
  destruct (title_reach n v l d rest Hn Hv Hl Hd) as [[rest' c] Hm].
  assert (exec (Seq (Chr nl) titlePattern) (nl :: headingOf n v l d ++ rest)
          = Some (take (length (nl :: headingOf n v l d ++ rest) - length rest')
                    (nl :: headingOf n v l d ++ rest), c)) as Hex.
  { unfold exec. cbn [m]. by rewrite N.eqb_refl, Hm. }
  pose proof Hex as Hshape.
  apply exec_title_Some in Hshape as (n' & v' & l' & d' & r' & _ & _ & _ & _ & _ & Hm0 & _).
  unfold processLocals. rewrite (search_here _ _ _ _ Hex). cbn [matched].
  rewrite Hm0. cbn [isEmpty].
  destruct (parseAuthors _) as [au| |]; [|done..].
  unfold mbind, M_bind, bind, registerAuthors, assignHour, ret.
  cbn [publishTimes authorsMap].
  by destruct (findHour_total (publishTimes st)
                 (groupOf {| matched := nl :: headingOf n' v' l' d';
                             groups := c; index := 0 |} "release_date") 20)
    as [h ->].
Qed.

Lemma splitFrom_line t rest cur :
  (∀ x, x ∈ t → x ≠ nl) →
  splitFrom sectionLimitPattern cur 0 (t ++ rest)
  = splitFrom sectionLimitPattern (rev t ++ cur) 0 rest.
Proof.
  revert cur. induction t as [|x t IH]; intros cur Ht; [done|].
  cbn [app splitFrom].
  destruct (exec sectionLimitPattern (x :: t ++ rest)) as [[m0 c]|] eqn:E.
  { apply exec_limit_Some in E as (_ & t' & [= -> _]).
    by destruct (Ht nl); [left|]. }
  rewrite IH by (intros y Hy; apply Ht; by right).
  cbn [rev]. by rewrite <- app_assoc.
Qed.

Lemma heading_no_line_feed n v l d x :
  forallb dot v = true → forallb dot l = true → forallb dot d = true →
  x ∈ headingOf n v l d → x ≠ nl.
Proof.
  intros Hv Hl Hd. unfold headingOf, hashes. rewrite !elem_of_app.
  assert (∀ s, forallb dot s = true → x ∈ s → x ≠ nl) as Hdot.
  { intros s Hs Hx ->. rewrite forallb_forall in Hs.
    by specialize (Hs nl (proj1 (list_elem_of_In _ _) Hx)). }
  assert (∀ s, x ∈ lit s → nl ∉ lit s → x ≠ nl) as Hlit.
  { by intros s Hx Hs ->. }
  intros [Hx|[Hx|[Hx|[Hx|[Hx|[Hx|[Hx|Hx]]]]]]].
  - by apply list_elem_of_In, repeat_spec in Hx as ->.
  - apply (Hlit _ Hx). clear; lits; intros Hin;
      repeat (apply elem_of_cons in Hin as [Hin|Hin]; [discriminate Hin|]);
      by apply elem_of_nil in Hin.
  - by apply (Hdot v).
  - apply (Hlit _ Hx). clear; lits; intros Hin;
      repeat (apply elem_of_cons in Hin as [Hin|Hin]; [discriminate Hin|]);
      by apply elem_of_nil in Hin.
  - by apply (Hdot l).
  - apply (Hlit _ Hx). clear; lits; intros Hin;
      repeat (apply elem_of_cons in Hin as [Hin|Hin]; [discriminate Hin|]);
      by apply elem_of_nil in Hin.
  - by apply (Hdot d).
  - apply (Hlit _ Hx). clear; lits; intros Hin;
      repeat (apply elem_of_cons in Hin as [Hin|Hin]; [discriminate Hin|]);
      by apply elem_of_nil in Hin.
Qed.

(** The pieces of the split, from the second on: each is a line feed, a
    heading, and the text up to the next piece. *)
Lemma splitFrom_headed k s cur :
  (length s ≤ k)%nat →
  ∃ u ps, splitFrom sectionLimitPattern cur 0 s = (rev cur ++ u) :: ps
    ∧ Forall (λ p, ∃ n v l d rest, (1 ≤ n ≤ 3)%nat
                ∧ forallb dot v = true ∧ forallb dot l = true
                ∧ forallb dot d = true
                ∧ p = nl :: headingOf n v l d ++ rest) ps.
Proof.
  revert s cur. induction k as [|k IH]; intros s cur Hk.
  { destruct s; [|simpl in Hk; lia]. exists [], []. cbn [splitFrom].
    by rewrite app_nil_r. }
  destruct s as [|x s].
  { exists [], []. cbn [splitFrom]. by rewrite app_nil_r. }
  simpl in Hk. cbn [splitFrom].
  destruct (exec sectionLimitPattern (x :: s)) as [[m0 c]|] eqn:E.
  - pose proof E as Hm0. apply exec_limit_Some in Hm0 as [-> _].
    apply limit_sound in E as (n & v & l & d & rest & Hn & Hv & Hl & Hd & [= -> ->]).
    cbn [isEmpty].
    rewrite splitFrom_line by (intros y; by apply heading_no_line_feed).
    destruct (IH rest (rev (headingOf n v l d) ++ [nl])) as (u & ps & -> & Hps).
    { rewrite length_app in Hk. lia. }
    rewrite rev_app_distr, rev_involutive. cbn [rev app].
    assert (∃ n v l d rest0, (1 ≤ n ≤ 3)%nat
              ∧ forallb dot v = true ∧ forallb dot l = true
              ∧ forallb dot d = true
              ∧ nl :: headingOf n v l d ++ u = nl :: headingOf n v l d ++ rest0)
      as Hthis by (exists n, v, l, d, u; done).
    destruct cur as [|y cur]; cbn [isEmpty].
    + exists (nl :: headingOf n v l d ++ u), ps. split; [done|]. done.
    + exists [], ((nl :: headingOf n v l d ++ u) :: ps). rewrite app_nil_r.
      split; [done|]. constructor; [|done]. by exists n, v, l, d, u.
  - destruct (IH s (x :: cur)) as (u & ps & -> & Hps); [lia|].
    exists (x :: u), ps. cbn [rev]. by rewrite <- app_assoc.
Qed.

Lemma mapM__Forall2 {A B} (f : A → M B) l st ys st' :
  mapM_ f l st = (Ok ys, st') →
  Forall2 (λ x y, ∃ st1 st2, f x st1 = (Ok y, st2)) l ys.
Proof.
  revert st ys. induction l as [|x l IH]; intros st ys.
  - intros [= <- <-]. constructor.
  - intros (y & ys' & st1 & Hy & Hrest & ->)%mapM__cons_Ok.
    constructor; [eauto | by eapply IH].
Qed.

(** The section limit and the title pattern agree: every piece of the
    split from the second on gives a document (or raises); only the text
    before the first section limit can be left without one.  So a call
    returns as many documents as the split has pieces, or one less. *)
Theorem limits_give_documents `{Collation} fileContent :
  (∀ i piece st,
     split sectionLimitPattern (sanitise fileContent) !! S i = Some piece →
     (processSection piece st).1 ≠ Ok None)
  ∧ (∀ st out st',
       loadContent fileContent st = (Ok out, st') →
       (length (split sectionLimitPattern (sanitise fileContent)) - 1
        ≤ length (sections out)
        ≤ length (split sectionLimitPattern (sanitise fileContent)))%nat).
Proof.
  assert (∃ p ps, split sectionLimitPattern (sanitise fileContent) = p :: ps
            ∧ Forall (λ piece, ∀ st, (processLocals piece st).1 ≠ Ok None) ps)
    as (p & ps & Hsplit & Hps).
  { destruct (sanitise fileContent) as [|x s] eqn:Hs.
    { by exists [], []. }
    change (split sectionLimitPattern (x :: s))
      with (splitFrom sectionLimitPattern [] 0 (x :: s)).
    destruct (splitFrom_headed (length (x :: s)) (x :: s) [] (le_n _))
      as (u & ps & -> & Hps).
    exists (rev [] ++ u), ps. split; [done|].
    eapply Forall_impl; [exact Hps|].
    intros piece (n & v & l & d & rest & Hn & Hv & Hl & Hd & ->) st.
    by apply processLocals_titled. }
  rewrite Hsplit. split.
  - intros i piece st Hi. cbn [lookup list_lookup] in Hi.
    rewrite Forall_forall in Hps.
    pose proof (Hps piece (list_elem_of_lookup_2 _ _ _ Hi) st) as Hpiece.
    rewrite processSection_eq.
    by destruct (processLocals piece st) as [[[v|]| |] st1].
  - intros st out st' (rs & Hrs & -> & _)%loadContent_Ok.
    rewrite Hsplit in Hrs. apply mapM__Forall2 in Hrs.
    rewrite length_fmap.
    apply Forall2_cons_inv_l in Hrs as (r & rs' & _ & Hrs' & ->).
    assert (length (omap id rs') = length ps) as Hlen.
    { clear Hsplit. revert rs' Hrs'. induction Hps as [|q ps Hq _ IH];
        intros rs' Hrs'.
      - by apply Forall2_nil_inv_l in Hrs' as ->.
      - apply Forall2_cons_inv_l in Hrs' as (y & ys & (st1 & st2 & Hy) & Hys & ->).
        specialize (Hq st1). rewrite Hy in Hq. destruct y as [w|]; [|done].
        csimpl. by rewrite (IH ys). }
    cbn [length]. destruct r as [w|]; csimpl; lia.
Qed.

Lemma limits_give_documents_witness :
  ∃ out st',
    loadContent (H:=codeUnitOrder) changelogNoLineFeed initial = (Ok out, st')
    ∧ length (split sectionLimitPattern (sanitise changelogNoLineFeed)) = 2%nat
    ∧ (1 ≤ length (sections out) ≤ 2)%nat.
Proof.
  eexists _, _. split; [vm_compute; reflexivity|]. split; [vm_compute; reflexivity|].
  destruct (limits_give_documents (H:=codeUnitOrder) changelogNoLineFeed) as [_ Hn].
  refine (Hn initial _ _ _). vm_compute. reflexivity.
Defined.

End Headings.
(** ** The changelog plugin: the authors of a section *)

Module Authors.
Import Regex Changelog StringFacts RegexFacts ChangelogState CommitterLines ChangelogSections StateInvariants Headings.

(** *** The sort *)

Lemma insertBy_perm `{Collation} x l : insertBy x l ≡ₚ x :: l.
Proof.
  induction l as [|y l IH]; [done|]. cbn [insertBy].
  destruct (localeCompare (url x) (url y)); [done..|].
  rewrite IH. apply perm_swap.
Qed.

Lemma sortByUrl_perm `{Collation} l : sortByUrl l ≡ₚ l.
Proof.
  induction l as [|x l IH]; [done|]. unfold sortByUrl in *. cbn [foldr].
  by rewrite insertBy_perm, IH.
Qed.

Lemma insertBy_sorted `{Collation} x l :
  (∀ a b, localeCompare a b = Gt → localeCompare b a ≠ Gt) →
  Sorted (λ a b, localeCompare (url a) (url b) ≠ Gt) l →
  Sorted (λ a b, localeCompare (url a) (url b) ≠ Gt) (insertBy x l).
Proof.
  intros Htot. induction 1 as [|y l Hl IH Hy]; cbn [insertBy].
  { by repeat constructor. }
  destruct (localeCompare (url x) (url y)) eqn:E.
  - constructor; [by constructor|]. constructor. by rewrite E.
  - constructor; [by constructor|]. constructor. by rewrite E.
  - constructor; [done|]. destruct Hy as [|z l Hz]; cbn [insertBy].
    + constructor. by apply Htot.
    + destruct (localeCompare (url x) (url z)); constructor;
        first [done | by apply Htot].
Qed.

(** [authors.sort(...)] keeps the committers of the block, each as often
    as the block names it; for a comparison that never puts each of two
    texts after the other, neighbours in the result are in order. *)
Theorem sortByUrl_sorted `{Collation} l :
  (∀ a b, localeCompare a b = Gt → localeCompare b a ≠ Gt) →
  sortByUrl l ≡ₚ l
  ∧ Sorted (λ a b, localeCompare (url a) (url b) ≠ Gt) (sortByUrl l).
Proof.
  intros Htot. split; [apply sortByUrl_perm|].
  induction l as [|x l IH]; [constructor|].
  unfold sortByUrl in *. cbn [foldr]. by apply insertBy_sorted.
Qed.

Lemma compareStr_opp a b : compareStr b a = CompOpp (compareStr a b).
Proof.
  revert b. induction a as [|x a IH]; intros [|y b]; simpl; try done.
  rewrite (N.compare_antisym x y). destruct (x ?= y); simpl; [apply IH | done..].
Qed.

Lemma sortByUrl_sorted_witness :
  let bob := committer (lit "Bob") (lit "bob") (lit "https://github.com/bob") in
  let alice := committer (lit "alice") (lit "alice") (lit "https://github.com/alice") in
  sortByUrl (H:=codeUnitOrder) [bob; alice; bob] = [alice; bob; bob]
  ∧ sortByUrl (H:=codeUnitOrder) [bob; alice; bob] ≡ₚ [bob; alice; bob]
  ∧ Sorted (λ a b, compareStr (url a) (url b) ≠ Gt)
      (sortByUrl (H:=codeUnitOrder) [bob; alice; bob]).
Proof.
  intros bob alice. split; [vm_compute; reflexivity|].
  apply (sortByUrl_sorted (H:=codeUnitOrder)).
  intros a b Hab. unfold localeCompare, codeUnitOrder in *.
  rewrite compareStr_opp, Hab. done.
Defined.

(** *** The committers block *)

Lemma parseAuthors_Some `{Collation} content cs :
  parseAuthors content = Ok (Some cs) →
  ∃ block ls ps,
    search committersPattern content = Some block
    ∧ matchAll bulletPattern (matched block) = Some ls
    ∧ ls ≠ []
    ∧ Forall2 (λ l c, parseCommitter l = Some c) ls ps
    ∧ cs = sortByUrl ps.
Proof.
  unfold parseAuthors. destruct (search committersPattern content) as [block|]; [|done].
  destruct (matchAll bulletPattern (matched block)) as [ls|] eqn:Hls; [|done].
  destruct (mapM parseCommitter ls) as [ps|] eqn:Hps; [|done].
  intros [= <-]. exists block, ls, ps. split; [done|]. split; [done|].
  split; [|split; [by apply mapM_Some_1 | done]].
  unfold matchAll in Hls. by destruct (matchAllFrom _ _ _); simplify_eq.
Qed.

(** A section has either no authors or at least one: the list is never
    empty, and it has one committer for each bullet line that follows the
    committers heading. *)
Theorem authors_not_empty `{Collation} content cs :
  parseAuthors content = Ok (Some cs) →
  cs ≠ []
  ∧ ∃ block ls, search committersPattern content = Some block
      ∧ matchAll bulletPattern (matched block) = Some ls
      ∧ length cs = length ls.
Proof.
  intros (block & ls & ps & Hb & Hls & Hne & Hps & ->)%parseAuthors_Some.
  assert (length (sortByUrl ps) = length ls) as Hlen.
  { rewrite (Permutation_length (sortByUrl_perm ps)).
    symmetry. by eapply Forall2_length. }
  split; [|eauto]. intros Hnil. rewrite Hnil in Hlen. by destruct ls.
Qed.

Lemma authors_not_empty_witness :
  ∃ cs, parseAuthors (H:=codeUnitOrder)
          (committersBlock 50
             [ lit "- Bob Builder ([@bob](https://github.com/bob))";
               lit "- [@alice](https://github.com/alice)" ]) = Ok (Some cs)
    ∧ cs ≠ [].
Proof.
  eexists. split; [vm_compute; reflexivity|].
  refine (proj1 (authors_not_empty (H:=codeUnitOrder)
                   (committersBlock 50
                      [ lit "- Bob Builder ([@bob](https://github.com/bob))";
                        lit "- [@alice](https://github.com/alice)" ]) _ _)).
  vm_compute. reflexivity.
Defined.

(** The committers heading where the pattern of line 46 finds it. *)
Lemma exec_committers_Some t m0 c :
  exec committersPattern t = Some (m0, c) →
  ∃ d rest, t = lit "## Committers: " ++ d :: rest ∧ digit d = true.
Proof.
  unfold exec, committersPattern. rewrite m_cat_cons, m_Str.
  destruct (stripPrefix (lit "## Committers: ") t) as [r|] eqn:E; [|done].
  apply stripPrefix_Some in E as ->. rewrite m_cat_cons. cbn [m].
  destruct r as [|d rest]; [done|]. destruct (digit d) eqn:Hd; [|done].
  intros _. eauto.
Qed.

(** A section has no authors exactly when its text nowhere has the
    committers heading followed by a digit. *)
Theorem authors_absent `{Collation} content :
  parseAuthors content = Ok None
  ↔ ∀ pre d rest, digit d = true →
      content ≠ pre ++ lit "## Committers: " ++ d :: rest.
Proof.
  split.
  - intros Hau pre d rest Hd ->. unfold parseAuthors in Hau.
    destruct (search_app committersPattern pre
                (lit "## Committers: " ++ d :: rest)) as [block Hb].
    { rewrite exec_committers by done. eauto. }
    rewrite Hb in Hau. destruct (matchAll _ _); [|done].
    by destruct (mapM _ _).
  - intros Hno. unfold parseAuthors.
    destruct (search committersPattern content) as [block|] eqn:Hb; [|done].
    exfalso. destruct (search committersPattern content) eqn:Hs; [|done].
    assert (¬ ∀ pre suf, content = pre ++ suf → exec committersPattern suf = None)
      as Hex by (intros Hn%search_None; by rewrite Hn in Hs).
    apply Hex. intros pre suf ->.
    destruct (exec committersPattern suf) as [[m1 c]|] eqn:E; [|done].
    apply exec_committers_Some in E as (d & rest & -> & Hd).
    by destruct (Hno pre d rest Hd).
Qed.

(** A committers block without a bullet line, or with a bullet line that
    is not in the format of line 53: reading [.map] or [.groups] of [null]
    raises. *)
Theorem committers_malformed `{Collation} d ls :
  digit d = true → Forall bullet ls →
  ls = [] ∨ Exists (λ l, parseCommitter l = None) ls →
  parseAuthors (committersBlock d ls) = TypeError.
Proof.
  intros Hd Hls Hbad. unfold parseAuthors.
  assert (search committersPattern (committersBlock d ls)
          = Some {| matched := committersBlock d ls; groups := []; index := 0 |})
    as -> by (by apply search_here, exec_committers).
  cbn [matched].
  destruct (decide (ls = [])) as [->|Hne].
  { unfold committersBlock. cbn [fmap list_fmap concat].
    rewrite <- (app_nil_r (lit "## Committers: " ++ [d])).
    unfold matchAll. rewrite matchAllFrom_other; [done|].
    apply Forall_app. split; [lits; by repeat constructor|].
    apply Forall_singleton. intros ->. done. }
  rewrite matchAll_block by done.
  destruct Hbad as [->|Hex]; [done|].
  destruct (mapM parseCommitter ls) as [ps|] eqn:Hps; [|done].
  exfalso. apply mapM_Some_1 in Hps. apply Exists_exists in Hex as (l & Hl & Hnone).
  apply list_elem_of_lookup in Hl as [i Hi].
  destruct (Forall2_lookup_l _ _ _ _ _ Hps Hi) as (c & _ & Hc). congruence.
Qed.

Lemma committers_malformed_witness :
  parseAuthors (H:=codeUnitOrder)
    (committersBlock 50 [ lit "- [@alice](https://github.com/alice)";
                          lit "- see the release notes" ])
  = TypeError.
Proof.
  apply (committers_malformed (H:=codeUnitOrder)).
  - reflexivity.
  - repeat constructor; eexists; (split; [reflexivity|]); reflexivity.
  - right. apply Exists_cons_tl, Exists_cons_hd. vm_compute. reflexivity.
Defined.

(** *** The registry *)

Lemma parseCommitter_image l c :
  parseCommitter l = Some c →
  imageURL c = lit "https://github.com/" ++ alias c ++ lit ".png".
Proof.
  unfold parseCommitter. destruct (search committerPattern l); [|done].
  by intros [= <-].
Qed.

Lemma parseAuthors_image `{Collation} content cs c :
  parseAuthors content = Ok (Some cs) → c ∈ cs →
  imageURL c = lit "https://github.com/" ++ alias c ++ lit ".png".
Proof.
  intros (block & ls & ps & _ & _ & _ & Hps & ->)%parseAuthors_Some Hc.
  rewrite sortByUrl_perm in Hc. apply list_elem_of_lookup in Hc as [i Hi].
  destruct (Forall2_lookup_r _ _ _ _ _ Hps Hi) as (l & _ & Hl).
  by eapply parseCommitter_image.
Qed.

Lemma registered_keyed o au :
  keyed o →
  (∀ c, c ∈ default [] au →
     imageURL c = lit "https://github.com/" ++ alias c ++ lit ".png") →
  keyed (registered o au).
Proof.
  unfold registered. generalize (default [] au). intros l. revert o.
  induction l as [|c l IH]; intros o Ho Hl; [done|]. cbn [foldl].
  apply IH; [|intros c' Hc'; apply Hl; by right].
  intros k c'. rewrite setProp_lookup. case_bool_decide; [apply Ho|].
  case_bool_decide as Hk; [|apply Ho]. intros [= <-]. split; [done|].
  rewrite <- Hk. apply Hl. by left.
Qed.

Lemma processLocals_keyed `{Collation} s st :
  keyed (authorsMap st) → keyed (authorsMap (processLocals s st).2).
Proof.
  intros Hst. unfold processLocals. destruct (search _ s) as [tm|]; [|done].
  destruct (isEmpty (matched tm)); [done|].
  destruct (parseAuthors _) as [au| |] eqn:Hau; [|done..].
  unfold mbind, M_bind, bind, registerAuthors, assignHour, ret.
  cbn [publishTimes authorsMap].
  assert (keyed (registered (authorsMap st) au)) as Hk.
  { apply registered_keyed; [done|]. destruct au as [cs|]; simpl.
    - intros c Hc. by eapply parseAuthors_image.
    - by intros c ?%elem_of_nil. }
  by destruct (findHour _ _ _ _).
Qed.

Lemma mapM__invariant {A B} (P : State → Prop) (f : A → M B) l st :
  (∀ x st, P st → P (f x st).2) → P st → P (mapM_ f l st).2.
Proof.
  intros Hf. revert st. induction l as [|x l IH]; intros st Hst; [done|].
  rewrite mapM__cons. specialize (Hf x st Hst).
  destruct (f x st) as [[y| |] st1]; [|done..]. specialize (IH st1 Hf).
  by destruct (mapM_ f l st1) as [[ys| |] st2].
Qed.

(** Whatever a call does, returning or raising, the registry keeps its
    shape: every entry stands under its own alias and carries the address
    of the picture of that alias. *)
Theorem registry_keyed `{Collation} fileContent st :
  keyed (authorsMap st) →
  keyed (authorsMap (loadContent fileContent st).2)
  ∧ ∀ out st', loadContent fileContent st = (Ok out, st') → keyed (authorsJson out).
Proof.
  intros Hst.
  assert (keyed (authorsMap (loadContent fileContent st).2)) as Hk.
  { unfold loadContent, mbind, M_bind, bind.
    pose proof (mapM__invariant (λ st, keyed (authorsMap st)) processSection
                  (split sectionLimitPattern (sanitise fileContent)) st) as Hinv.
    destruct (mapM_ processSection _ st) as [[ds| |] st1]; apply Hinv; try done;
      intros x st0 H0; rewrite processSection_eq;
      pose proof (processLocals_keyed x st0 H0) as Hx;
      by destruct (processLocals x st0) as [[v| |] st2]. }
  split; [done|]. intros out st' Hrun. rewrite Hrun in Hk.
  by apply loadContent_Ok in Hrun as (rs & _ & _ & ->).
Qed.

Lemma registry_keyed_witness :
  keyed (authorsMap (loadContent (H:=codeUnitOrder) changelogCommitters initial).2).
Proof.
  apply (registry_keyed (H:=codeUnitOrder) changelogCommitters initial).
  intros k c Hk. cbn [initial authorsMap] in Hk. by rewrite lookup_empty in Hk.
Defined.

(** *** Where a committer comes from *)

Lemma m_Grp_greedy_sound name p k inp c res :
  m (Grp name (Rep p 0 None true)) k inp c = Some res →
  ∃ a rest, inp = a ++ rest ∧ forallb p a = true
    ∧ k rest ((name, a) :: c) = Some res.
Proof.
  cbn [m]. change (repExact p 0 ?k) with k.
  intros (a & rest & -> & Ha & _ & Hk)%repGreedy_sound.
  rewrite take_app_length' in Hk. eauto.
Qed.

(** The part of the committer pattern after the optional name. *)
Lemma committer_alias_sound inp c0 rest c :
  m (cat [Str "[@"; Grp "alias" (Rep dot 0 None true); Str "](";
          Grp "url" (Rep dot 0 None false); Str ")"; Opt (Chr 41)])
    accept inp c0 = Some (rest, c) →
  ∃ A U tail, inp = lit "[@" ++ A ++ lit "](" ++ U ++ lit ")" ++ tail
    ∧ forallb dot A = true ∧ forallb dot U = true
    ∧ c = ("url", U) :: ("alias", A) :: c0.
Proof.
  rewrite m_cat_cons. intros (u1 & -> & Hk)%m_Str_sound.
  rewrite m_cat_cons in Hk. apply m_Grp_greedy_sound in Hk as (A & u2 & -> & HA & Hk).
  rewrite m_cat_cons in Hk. apply m_Str_sound in Hk as (u3 & -> & Hk).
  rewrite m_cat_cons in Hk. apply m_Grp_lazy_sound in Hk as (U & u4 & -> & HU & Hk).
  rewrite m_cat_cons in Hk. apply m_Str_sound in Hk as (u5 & -> & Hk).
  exists A, U, u5. do 3 (split; [done|]).
  rewrite m_cat_cons, m_Opt in Hk. cbn [m cat foldr] in Hk.
  destruct u5 as [|y u5]; [by injection Hk as _ <-|].
  destruct (y =? 41); [|by injection Hk as _ <-].
  case_bool_decide; by injection Hk as _ <-.
Qed.

Lemma exec_committer_Some suf m0 c :
  exec committerPattern suf = Some (m0, c) →
  ∃ np A U tail,
    suf = lit "- " ++ np ++ lit "[@" ++ A ++ lit "](" ++ U ++ lit ")" ++ tail
    ∧ forallb dot A = true ∧ forallb dot U = true
    ∧ (np = [] ∧ c = [("url", U); ("alias", A)]
       ∨ ∃ N, np = N ++ lit " (" ∧ forallb dot N = true
           ∧ c = [("url", U); ("alias", A); ("name", N)]).
Proof.
  unfold exec.
  destruct (m committerPattern accept suf []) as [[rest c']|] eqn:E; [|done].
  intros [= _ <-]. unfold committerPattern in E.
  rewrite m_cat_cons in E. apply m_Str_sound in E as (u1 & -> & Hk).
  rewrite m_cat_cons, m_Opt in Hk.
  match type of Hk with
  | match ?named with _ => _ end = _ => destruct named as [res|] eqn:Hnamed
  end.
  - injection Hk as ->.
    rewrite m_cat_cons in Hnamed.
    apply m_Grp_lazy_sound in Hnamed as (N & u2 & -> & HN & Hk).
    rewrite m_cat_cons in Hk. apply m_Str_sound in Hk as (u3 & -> & Hk).
    rewrite m_cat_nil in Hk. case_bool_decide; [done|].
    apply committer_alias_sound in Hk as (A & U & tail & -> & HA & HU & ->).
    exists (N ++ lit " ("), A, U, tail. rewrite <- !app_assoc.
    do 3 (split; [done|]). right. by exists N.
  - apply committer_alias_sound in Hk as (A & U & tail & -> & HA & HU & ->).
    exists [], A, U, tail. do 3 (split; [done|]). by left.
Qed.

(** Every committer comes from a line of the format: somewhere the line
    has [- ], optionally a name and [ (], then [[@], the alias, [](], the
    url and [)]; the name is the alias where the line gives none; and no
    text of the committer has a line terminator. *)
Theorem committer_from_line line c :
  parseCommitter line = Some c →
  ∃ pre np rest,
    line = pre ++ lit "- " ++ np ++ lit "[@" ++ alias c ++ lit "]("
               ++ url c ++ lit ")" ++ rest
    ∧ (np = [] ∧ name c = alias c ∨ np = name c ++ lit " (")
    ∧ forallb dot (name c) = true
    ∧ forallb dot (alias c) = true
    ∧ forallb dot (url c) = true
    ∧ imageURL c = lit "https://github.com/" ++ alias c ++ lit ".png".
Proof.
  unfold parseCommitter.
  destruct (search committerPattern line) as [r|] eqn:Hs; [|done].
  intros [= <-]. cbn [name alias url imageURL].
  apply searchFrom_Some in Hs as (pre & suf & -> & Hex & _).
  apply exec_committer_Some in Hex
    as (np & A & U & tail & -> & HA & HU & [[-> Hc]|(N & -> & HN & Hc)]);
    unfold groupOf; rewrite Hc; cbn.
  - exists pre, [], tail. do 1 (split; [done|]). split; [by left|]. done.
  - exists pre, (N ++ lit " ("), tail. split; [done|]. split; [by right|]. done.
Qed.

Lemma committer_from_line_witness :
  ∃ c, parseCommitter (lit "- Bob Builder ([@bob](https://github.com/bob))") = Some c
    ∧ name c = lit "Bob Builder"
    ∧ ∃ pre np rest,
        lit "- Bob Builder ([@bob](https://github.com/bob))"
        = pre ++ lit "- " ++ np ++ lit "[@" ++ alias c ++ lit "]("
              ++ url c ++ lit ")" ++ rest
        ∧ (np = [] ∧ name c = alias c ∨ np = name c ++ lit " (")
        ∧ forallb dot (name c) = true
        ∧ forallb dot (alias c) = true
        ∧ forallb dot (url c) = true
        ∧ imageURL c = lit "https://github.com/" ++ alias c ++ lit ".png".
Proof.
  eexists. split; [vm_compute; reflexivity|]. split; [reflexivity|].
  apply committer_from_line. vm_compute. reflexivity.
Defined.

End Authors.
(** ** The changelog plugin: the hours and the registry over the life of the process *)

Module ProcessLife.
Import Regex Changelog StringFacts RegexFacts ChangelogState ChangelogSections
  SectionSplit StateInvariants Headings.
Local Open Scope Z_scope.

(** *** Hours for the sections of a changelog *)

Lemma pieces_titled `{Collation} s :
  ∃ p ps, split sectionLimitPattern s = p :: ps
    ∧ Forall (λ piece, ∀ st, (processLocals piece st).1 ≠ Ok None) ps.
Proof.
  destruct s as [|x s]; [by exists [], []|].
  change (split sectionLimitPattern (x :: s))
    with (splitFrom sectionLimitPattern [] 0 (x :: s)).
  destruct (splitFrom_headed (length (x :: s)) (x :: s) [] (le_n _))
    as (u & ps & -> & Hps).
  exists (rev [] ++ u), ps. split; [done|].
  eapply Forall_impl; [exact Hps|].
  intros piece (n & v & l & d & rest & Hn & Hv & Hl & Hd & ->) st.
  by apply processLocals_titled.
Qed.

Lemma documents_count `{Collation} s st rs st' :
  mapM_ processLocals (split sectionLimitPattern s) st = (Ok rs, st') →
  (length (split sectionLimitPattern s) - 1 ≤ length (omap id rs))%nat.
Proof.
  destruct (pieces_titled s) as (p & ps & -> & Hps).
  intros Hrs%mapM__Forall2.
  apply Forall2_cons_inv_l in Hrs as (r & rs' & _ & Hrs' & ->).
  assert (length (omap id rs') = length ps) as Hlen.
  { revert rs' Hrs'. induction Hps as [|q ps Hq _ IH]; intros rs' Hrs'.
    - by apply Forall2_nil_inv_l in Hrs' as ->.
    - apply Forall2_cons_inv_l in Hrs' as (y & ys & (st1 & st2 & Hy) & Hys & ->).
      specialize (Hq st1). rewrite Hy in Hq. destruct y as [w|]; [|done].
      csimpl. by rewrite (IH ys). }
  cbn [length]. destruct r as [w|]; csimpl; lia.
Qed.

Lemma processLocals_cause `{Collation} s st st' :
  processLocals s st = (TypeError, st') →
  ∃ tm, search (Seq (Chr nl) titlePattern) s = Some tm
    ∧ parseAuthors (trim (replaceStr (matched tm) [] s)) = TypeError.
Proof.
  unfold processLocals. destruct (search _ s) as [tm|]; [|by intros [=]].
  destruct (isEmpty (matched tm)); [by intros [=]|].
  destruct (parseAuthors _) as [au| |] eqn:Hau.
  - unfold mbind, M_bind, bind, registerAuthors, assignHour, ret.
    cbn [publishTimes authorsMap]. by destruct (findHour _ _ _ _).
  - eauto.
  - by destruct (parseAuthors_fuel _ Hau).
Qed.

Lemma mapM__cause {A B} (f : A → M B) l st st' :
  mapM_ f l st = (TypeError, st') →
  ∃ x st1 st2, x ∈ l ∧ f x st1 = (TypeError, st2).
Proof.
  revert st st'. induction l as [|x l IH]; intros st st'; [done|].
  rewrite mapM__cons. destruct (f x st) as [[y| |] st1] eqn:Hx.
  - destruct (mapM_ f l st1) as [[ys| |] st2] eqn:Hl; [done| |done].
    intros _. destruct (IH _ _ Hl) as (x' & s1 & s2 & Hin & Hx').
    exists x', s1, s2. split; [by right | done].
  - intros _. exists x, st, st1. split; [by left | done].
  - done.
Qed.

(** C2: a call of [loadContent] never runs out of fuel in the loop of the
    hours, and raises only for the committers block of a section.  When
    it returns, every section after the first piece of the split has its
    document; every document has a time stamp with an hour of at most 20
    that was free before the call, is taken after it and stands in the
    date line of the document; two documents never have the same time
    stamp, and of two with the same release date the one met first has
    the higher hour, by at least one.  For a changelog of well-formed
    releases the call returns, with one document for each release under
    the date of the release: so two releases of the same date get
    distinct time stamps, the upper one the higher hour. *)
Theorem same_day_hours `{Collation} :
  (∀ fileContent st,
     match loadContent fileContent st with
     | (Ok out, st') =>
         ∃ vs, loadLocals fileContent st = (Ok vs, st')
           ∧ sections out = render <$> vs
           ∧ (length (split sectionLimitPattern (sanitise fileContent)) - 1
              ≤ length vs)%nat
           ∧ (∀ v, v ∈ vs →
                hour v ≤ 20
                ∧ (stampOf v ∉ publishTimes st)
                ∧ (stampOf v ∈ publishTimes st')
                ∧ ∃ rest, docContent (render v)
                          = lit "---" ++ NL ++ lit "date: " ++ stampOf v ++ NL ++ rest)
           ∧ ∀ i j v w, (i < j)%nat → vs !! i = Some v → vs !! j = Some w →
               (stampOf v ≠ stampOf w) ∧ (date v = date w → hour w + 1 ≤ hour v)
     | (TypeError, _) =>
         ∃ section tm,
           section ∈ split sectionLimitPattern (sanitise fileContent)
           ∧ search (Seq (Chr nl) titlePattern) section = Some tm
           ∧ parseAuthors (trim (replaceStr (matched tm) [] section)) = TypeError
     | (OutOfFuel, _) => False
     end)
  ∧ (∀ P rs st,
       quiet P = true → Forall wellFormed rs →
       ∃ out st' ws,
         loadContent (P ++ concat (sectionText <$> rs)) st = (Ok out, st')
         ∧ sections out = render <$> ws
         ∧ Forall2 (λ r w, date w = released r) rs ws
         ∧ ∀ i j v w, (i < j)%nat → ws !! i = Some v → ws !! j = Some w →
             hour v ≤ 20 ∧ hour w ≤ 20
             ∧ (stampOf v ≠ stampOf w)
             ∧ (date v = date w → hour w + 1 ≤ hour v)).
Proof.
  split.
  - intros fileContent st. rewrite loadContent_loadLocals.
    pose proof (loadLocals_fuel fileContent st) as Hfuel.
    destruct (loadLocals fileContent st) as [[vs| |] st'] eqn:Hrun; [| |done].
    + exists vs. split; [done|]. split; [done|].
      apply loadLocals_run in Hrun as (rs & Hrs & ->).
      split; [by eapply documents_count|].
      apply run_hours in Hrs as (_ & Hin & Hord). split; [|done].
      intros v Hv. destruct (Hin v Hv) as (H20 & Hfree & Htaken).
      do 3 (split; [done|]). apply render_stamp.
    + rewrite loadLocals_eq in Hrun.
      destruct (mapM_ processLocals _ st) as [[rs| |] st1] eqn:Hrs; [done| |done].
      apply mapM__cause in Hrs as (x & st2 & st3 & Hin & Hx).
      apply processLocals_cause in Hx as (tm & Hs & Hau). eauto.
  - intros P rs st HP Hrs.
    destruct (loadLocals_releases P rs st HP Hrs) as (ws & st' & Hrun & Hreads).
    eexists _, st', ws. rewrite loadContent_loadLocals, Hrun.
    split; [done|]. split; [done|]. split.
    { eapply Forall2_impl; [exact Hreads|]. by intros r w (_ & _ & ? & _). }
    apply loadLocals_run in Hrun as (rs0 & Hrs0 & ->).
    apply run_hours in Hrs0 as (_ & Hin & Hord).
    intros i j v w Hij Hv Hw.
    destruct (Hin v (list_elem_of_lookup_2 _ _ _ Hv)) as (Hv20 & _).
    destruct (Hin w (list_elem_of_lookup_2 _ _ _ Hw)) as (Hw20 & _).
    destruct (Hord i j v w Hij Hv Hw) as [Hne Hlt]. done.
Qed.

Lemma wellFormed_releaseSameDay : wellFormed (H:=codeUnitOrder) releaseSameDay.
Proof.
  split; [by repeat split; try reflexivity; repeat constructor|].
  intros Heq. vm_compute in Heq. discriminate Heq.
Defined.

Lemma same_day_hours_witness :
  ∃ out st' ws,
    loadContent (H:=codeUnitOrder)
      (lit "Changelog" ++ concat (sectionText <$> [releaseSameDay; releaseA]))
      initial
    = (Ok out, st')
    ∧ sections out = render <$> ws
    ∧ Forall2 (λ r w, date w = released r) [releaseSameDay; releaseA] ws
    ∧ ∀ i j v w, (i < j)%nat → ws !! i = Some v → ws !! j = Some w →
        hour v ≤ 20 ∧ hour w ≤ 20
        ∧ (stampOf v ≠ stampOf w)
        ∧ (date v = date w → hour w + 1 ≤ hour v).
Proof.
  apply (proj2 (same_day_hours (H:=codeUnitOrder)) (lit "Changelog")
           [releaseSameDay; releaseA] initial); [reflexivity|].
  repeat constructor; [apply wellFormed_releaseSameDay | apply wellFormed_releaseA].
Defined.

(** *** The registry over the life of the process *)

Lemma mapM__steps {A B} (R : State → State → Prop) (f : A → M B) l st :
  (∀ st, R st st) → (∀ s1 s2 s3, R s1 s2 → R s2 s3 → R s1 s3) →
  (∀ x st, x ∈ l → R st (f x st).2) →
  R st (mapM_ f l st).2.
Proof.
  intros Hrefl Htrans. revert st. induction l as [|x l IH]; intros st Hf.
  { apply Hrefl. }
  rewrite mapM__cons. pose proof (Hf x st ltac:(by left)) as Hx.
  destruct (f x st) as [[y| |] st1]; [|done..].
  assert (R st1 (mapM_ f l st1).2) as Hl.
  { apply IH. intros x' st' Hin. apply Hf. by right. }
  destruct (mapM_ f l st1) as [[ys| |] st2]; by eapply Htrans.
Qed.

Lemma processLocals_dom `{Collation} s st :
  dom (authorsMap st) ⊆ dom (authorsMap (processLocals s st).2).
Proof.
  pose proof (processLocals_fuel s st) as Hfuel.
  destruct (processLocals s st) as [[[v|]| |] st'] eqn:E; [| | |done];
    cbn [snd].
  - apply processLocals_Some in E as (tm & _ & _ & _ & _ & _ & _ & _ & _ & ->).
    apply registered_dom.
  - by apply processLocals_None in E as ->.
  - by apply processLocals_TypeError in E as ->.
Qed.

Lemma processLocals_other `{Collation} a s st :
  ¬ sectionNames a s →
  authorsMap (processLocals s st).2 !! a = authorsMap st !! a.
Proof.
  intros Hno. pose proof (processLocals_fuel s st) as Hfuel.
  destruct (processLocals s st) as [[[v|]| |] st'] eqn:E; [| | |done];
    cbn [snd].
  - pose proof E as Hv.
    apply processLocals_Some in Hv as (tm & _ & _ & _ & _ & _ & _ & _ & _ & ->).
    apply registered_other. intros c Hc Hal. apply Hno.
    exists st, v, st'. split; [done|]. by exists c.
  - by apply processLocals_None in E as ->.
  - by apply processLocals_TypeError in E as ->.
Qed.

Lemma loadContent_state `{Collation} fileContent st :
  (loadContent fileContent st).2
  = (mapM_ processLocals (split sectionLimitPattern (sanitise fileContent)) st).2.
Proof.
  rewrite loadContent_loadLocals, loadLocals_eq.
  by destruct (mapM_ processLocals _ st) as [[rs| |] st'].
Qed.

Lemma loadContent_dom `{Collation} fileContent st :
  dom (authorsMap st) ⊆ dom (authorsMap (loadContent fileContent st).2).
Proof.
  rewrite loadContent_state.
  apply (mapM__steps (λ s1 s2, dom (authorsMap s1) ⊆ dom (authorsMap s2))).
  - done.
  - intros s1 s2 s3 H12 H23. by etrans.
  - intros x st0 _. apply processLocals_dom.
Qed.

Lemma loadContent_other `{Collation} a fileContent st :
  ¬ mentions a fileContent →
  authorsMap (loadContent fileContent st).2 !! a = authorsMap st !! a.
Proof.
  intros Hno. rewrite loadContent_state. symmetry.
  apply (mapM__steps (λ s1 s2, authorsMap s1 !! a = authorsMap s2 !! a)).
  - done.
  - intros s1 s2 s3 H12 H23. by etrans.
  - intros x st0 Hin. symmetry. apply processLocals_other.
    intros Hx. apply Hno. by exists x.
Qed.

Lemma calls_dom `{Collation} files st :
  dom (authorsMap st) ⊆ dom (authorsMap (calls files st)).
Proof.
  revert st. induction files as [|f files IH]; intros st; [done|].
  unfold calls in *. cbn [foldl]. etrans; [apply (loadContent_dom f st) | apply IH].
Qed.

Lemma calls_other `{Collation} a files st :
  (∀ file, file ∈ files → ¬ mentions a file) →
  authorsMap (calls files st) !! a = authorsMap st !! a.
Proof.
  revert st. induction files as [|f files IH]; intros st Hno; [done|].
  unfold calls in *. cbn [foldl].
  rewrite IH by (intros f' Hf'; apply Hno; by right).
  apply loadContent_other, Hno. by left.
Qed.

(** C6, amended: the registry is never reset.  Every alias in the registry
    persisted by one call is in the registry persisted by any later call
    in the same process, whatever calls, returning or raising, come in
    between; and it has the same entry unless a section of a changelog
    read after the first call, in between or by the later call, names the
    alias. *)
Theorem registry_never_reset `{Collation} file1 between file2 st0 out1 st1 out2 st2 :
  loadContent file1 st0 = (Ok out1, st1) →
  loadContent file2 (calls between st1) = (Ok out2, st2) →
  dom (authorsJson out1) ⊆ dom (authorsJson out2)
  ∧ ∀ a, (∀ file, file ∈ between ++ [file2] → ¬ mentions a file) →
      authorsJson out2 !! a = authorsJson out1 !! a.
Proof.
  intros (rs1 & _ & _ & ->)%loadContent_Ok Hrun2.
  pose proof (loadContent_dom file2 (calls between st1)) as Hdom.
  pose proof (λ a, loadContent_other a file2 (calls between st1)) as Hother.
  rewrite Hrun2 in Hdom, Hother. cbn [snd] in Hdom, Hother.
  apply loadContent_Ok in Hrun2 as (rs2 & _ & _ & ->). split.
  - etrans; [apply (calls_dom between st1) | done].
  - intros a Hno. rewrite Hother by (apply Hno, elem_of_app; right; by left).
    apply calls_other. intros f Hf. apply Hno, elem_of_app. by left.
Qed.

Lemma registry_never_reset_witness :
  ∃ out1 st1 out2 st2,
    loadContent (H:=codeUnitOrder) changelogAlice initial = (Ok out1, st1)
    ∧ (loadContent (H:=codeUnitOrder) changelogNoLines st1).1 = TypeError
    ∧ loadContent (H:=codeUnitOrder) changelogNotes
        (calls (H:=codeUnitOrder) [changelogNoLines] st1) = (Ok out2, st2)
    ∧ dom (authorsJson out1) ⊆ dom (authorsJson out2).
Proof.
  eexists _, _, _, _. split; [vm_compute; reflexivity|].
  split; [vm_compute; reflexivity|]. split; [vm_compute; reflexivity|].
  eapply (registry_never_reset (H:=codeUnitOrder) changelogAlice
            [changelogNoLines] changelogNotes initial);
    vm_compute; reflexivity.
Defined.

End ProcessLife.
(** ** The changelog plugin: the list pages *)

Module ListPages.
Import Changelog StringFacts.

Lemma showZ_inj a b : showZ a = showZ b → a = b.
Proof. unfold showZ. intros Hab%lit_inj. by apply (inj pretty) in Hab. Qed.

Lemma listPagePath_Count i p :
  p ≠ 0 →
  listPagePath i (Count p)
  = if i / p =? 0 then lit "/" else lit "/page/" ++ showZ (Z.of_N (i / p + 1)).
Proof.
  intros Hp. unfold listPagePath, pageIndex.
  rewrite (proj2 (N.eqb_neq p 0) Hp). by destruct (i / p).
Qed.

(** The list page of a post, for a positive number of posts per page: the
    first page has the path [/]; the others are numbered from 2; two posts
    have the same path exactly when they are in the same run of
    [postsPerPage] posts. *)
Theorem listPagePath_pages index p :
  p ≠ 0 →
  (listPagePath index (Count p) = lit "/" ↔ index < p)
  ∧ (p ≤ index →
     ∃ k, 2 ≤ k ∧ (k - 1) * p ≤ index < k * p
       ∧ listPagePath index (Count p) = lit "/page/" ++ showZ (Z.of_N k))
  ∧ (∀ j, listPagePath index (Count p) = listPagePath j (Count p)
          ↔ index / p = j / p).
Proof.
  intros Hp. split; [|split].
  - rewrite listPagePath_Count by done.
    destruct (N.eqb_spec (index / p) 0) as [H0|H0].
    + split; [|done]. intros _. by apply N.div_small_iff.
    + split; [done|]. intros Hlt. by apply N.div_small_iff in Hlt.
  - intros Hle. exists (index / p + 1). rewrite listPagePath_Count by done.
    assert (index / p ≠ 0) as H0.
    { intros H0. apply N.div_small_iff in H0; [lia | done]. }
    rewrite (proj2 (N.eqb_neq _ _) H0).
    pose proof (N.Div0.mul_div_le index p).
    pose proof (N.mul_succ_div_gt index p Hp).
    split; [lia|]. split; [|done]. nia.
  - intros j. rewrite !listPagePath_Count by done.
    destruct (N.eqb_spec (index / p) 0) as [H0|H0],
             (N.eqb_spec (j / p) 0) as [H1|H1].
    + split; [congruence | done].
    + split; [done | congruence].
    + split; [done | congruence].
    + split; [|by intros ->].
      intros Heq%app_inv_head%showZ_inj. lia.
Qed.

Lemma listPagePath_pages_witness :
  listPagePath 9 (Count 10) = lit "/"
  ∧ listPagePath 10 (Count 10) = lit "/page/2"
  ∧ (listPagePath 10 (Count 10) = listPagePath 19 (Count 10)).
Proof.
  destruct (listPagePath_pages 9 10) as (H1 & _ & _); [done|].
  destruct (listPagePath_pages 10 10) as (_ & _ & H3); [done|].
  split; [by apply H1|]. split; [reflexivity|]. by apply H3.
Defined.

End ListPages.

(** ** The API index *)

Module ApiIndexFacts.
Import Regex ApiIndex StringFacts RegexFacts.

Lemma versionedPattern_here c rest :
  digitOrDot c = true → is_Some (exec versionedPattern (lit "api/" ++ c :: rest)).
Proof.
  intros Hc. unfold exec, versionedPattern. simpl.
  fold (digitOrDot c). rewrite Hc.
  match goal with |- is_Some (match ?g with _ => _ end) =>
    assert (is_Some g) as [[??] ->]; [|done] end.
  by apply repGreedy_total.
Qed.

Lemma versioned_digit b c rest :
  digitOrDot c = true → versioned (b ++ lit "api/" ++ c :: rest) = true.
Proof.
  intros Hc. unfold versioned. rewrite bool_decide_eq_true_2; [done|].
  apply search_app. by apply versionedPattern_here.
Qed.

Lemma versioned_next b rest :
  versioned (b ++ lit "api/next" ++ rest) = true.
Proof. unfold versioned. by rewrite includes_app, orb_true_r. Qed.

Lemma addVersionToUrl_unfold url latest preferred :
  addVersionToUrl url latest preferred =
  match preferred with
  | Some p =>
      if versioned url || bool_decide (name p = version latest) then url
      else if endsWith (lit "/api") url then url ++ lit "/" ++ segment p
      else replaceStr (lit "/api/") (lit "/api/" ++ segment p ++ lit "/") url
  | None => url
  end.
Proof.
  unfold addVersionToUrl, versioned, segment. destruct preferred as [p|]; [|done].
  destruct (bool_decide (is_Some _)), (includes _ url), (bool_decide (name p = _));
    done.
Qed.

(** An address that already names a version is left as it is. *)
Lemma addVersionToUrl_versioned url latest preferred :
  versioned url = true → addVersionToUrl url latest preferred = url.
Proof.
  intros Hv. rewrite addVersionToUrl_unfold, Hv. by destruct preferred.
Qed.

(** Without a preferred version, or with the latest one preferred, the
    address is left as it is. *)
Lemma addVersionToUrl_latest url latest preferred :
  (∀ p, preferred = Some p → name p = version latest) →
  addVersionToUrl url latest preferred = url.
Proof.
  intros Hp. rewrite addVersionToUrl_unfold. destruct preferred as [p|]; [|done].
  by rewrite (bool_decide_eq_true_2 _ (Hp p eq_refl)), orb_true_r.
Qed.

(** Otherwise the segment is appended to an address that ends in [/api]. *)
Lemma addVersionToUrl_append url latest p :
  versioned url = false → name p ≠ version latest →
  endsWith (lit "/api") url = true →
  addVersionToUrl url latest (Some p) = url ++ lit "/" ++ segment p.
Proof.
  intros Hv Hp He. rewrite addVersionToUrl_unfold, Hv, He.
  by rewrite bool_decide_eq_false_2.
Qed.

(** And it is put after the first [/api/] of any other address, when the
    segment has no dollar sign. *)
Lemma addVersionToUrl_insert url latest p b a :
  versioned url = false → name p ≠ version latest →
  endsWith (lit "/api") url = false →
  findSub (lit "/api/") url = Some (b, a) →
  Forall (λ x, x ≠ 36) (segment p) →
  addVersionToUrl url latest (Some p)
  = b ++ lit "/api/" ++ segment p ++ lit "/" ++ a.
Proof.
  intros Hv Hp He Hf Hd. rewrite addVersionToUrl_unfold, Hv, He.
  rewrite bool_decide_eq_false_2 by done. unfold replaceStr. rewrite Hf.
  rewrite getSubstitution_plain; [by rewrite <- !app_assoc|].
  apply Forall_app. split; [by repeat constructor|].
  apply Forall_app. split; [done | by repeat constructor].
Qed.

Lemma addVersionToUrl_no_api url latest p :
  endsWith (lit "/api") url = false →
  findSub (lit "/api/") url = None →
  addVersionToUrl url latest (Some p) = url.
Proof.
  intros He Hf. rewrite addVersionToUrl_unfold, He. unfold replaceStr.
  rewrite Hf. by destruct (_ || _).
Qed.

(** What [addVersionToUrl] returns, case by case, for a preferred version
    whose segment has no dollar sign: the address as it is when it already
    names a version or when the preferred version is the latest one; the
    address with the segment appended when it ends in [/api]; otherwise
    the address with the segment put after its first [/api/], if it has
    one. *)
Theorem addVersionToUrl_cases url latest p :
  Forall (λ x, x ≠ 36) (segment p) →
  addVersionToUrl url latest (Some p) =
  if versioned url || bool_decide (name p = version latest) then url
  else if endsWith (lit "/api") url then url ++ lit "/" ++ segment p
  else match findSub (lit "/api/") url with
       | Some (b, a) => b ++ lit "/api/" ++ segment p ++ lit "/" ++ a
       | None => url
       end.
Proof.
  intros Hd. destruct (versioned url) eqn:Hv.
  { by apply addVersionToUrl_versioned. }
  case_bool_decide as Hp.
  { apply addVersionToUrl_latest. by intros ? [= <-]. }
  cbn [orb]. destruct (endsWith (lit "/api") url) eqn:He.
  { by apply addVersionToUrl_append. }
  destruct (findSub (lit "/api/") url) as [[b a]|] eqn:Hf.
  - by apply addVersionToUrl_insert.
  - by apply addVersionToUrl_no_api.
Qed.

Lemma addVersionToUrl_cases_witness :
  addVersionToUrl (lit "/docs/api/core") {| version := lit "3.0" |}
    (Some {| name := lit "2.0" |})
  = lit "/docs/api/2.0/core".
Proof.
  rewrite (addVersionToUrl_cases (lit "/docs/api/core") {| version := lit "3.0" |}
             {| name := lit "2.0" |}).
  - vm_compute. reflexivity.
  - vm_compute. by repeat constructor.
Defined.

(** C7, at a version name with a replacement pattern: [String.replace]
    expands [$&] in the replacement text to the matched [/api/], so the
    address does not get the version name as its segment. *)
Example addVersionToUrl_dollar :
  addVersionToUrl (lit "/docs/api/core") {| version := lit "3.0" |}
    (Some {| name := lit "$&" |})
  = lit "/docs/api//api//core".
Proof. vm_compute. reflexivity. Qed.

(** C8 as stated fails: with the preferred version [beta] and the latest
    version [3.0], the address [/docs/api] becomes [/docs/api/beta], and that
    one becomes [/docs/api/beta/beta]. *)
Example addVersionToUrl_twice_differs :
  let latest := {| version := lit "3.0" |} in
  let preferred := Some {| name := lit "beta" |} in
  addVersionToUrl (lit "/docs/api") latest preferred = lit "/docs/api/beta"
  ∧ addVersionToUrl (addVersionToUrl (lit "/docs/api") latest preferred)
      latest preferred = lit "/docs/api/beta/beta".
Proof. split; vm_compute; reflexivity. Qed.

Lemma recognised_versioned b v rest :
  recognised v = true → versioned (b ++ lit "api/" ++ v ++ rest) = true.
Proof.
  unfold recognised. intros [Hc|Hn]%orb_true_iff.
  - destruct v as [|c v]; [done|]. by apply versioned_digit.
  - apply bool_decide_eq_true in Hn as [r Hr].
    apply stripPrefix_Some in Hr as ->.
    rewrite <- (app_assoc (lit "next")), (app_assoc (lit "api/")).
    apply versioned_next.
Qed.

Lemma recognised_getSubstitution v matched before after rest :
  recognised v = true →
  ∃ v' rest', recognised v' = true
    ∧ getSubstitution matched before after (v ++ rest) = v' ++ rest'.
Proof.
  unfold recognised at 1. intros [Hc|Hn]%orb_true_iff.
  - destruct v as [|c v]; [done|]. exists [c]. eexists. split.
    + unfold recognised. by rewrite Hc.
    + simpl. destruct (N.eqb_spec c 36) as [->|_]; [done | reflexivity].
  - apply bool_decide_eq_true in Hn as [r Hr].
    apply stripPrefix_Some in Hr as ->. exists (lit "next"). eexists.
    split; [done|]. rewrite <- app_assoc.
    apply getSubstitution_app_plain. by repeat constructor.
Qed.

(** C8, amended: applying [addVersionToUrl] to its own result changes
    nothing when the segment of the preferred version begins with a digit, a
    dot or [next] (and when there is no preferred version). *)
Theorem addVersionToUrl_idempotent url latest preferred :
  recognisable preferred = true →
  addVersionToUrl (addVersionToUrl url latest preferred) latest preferred
  = addVersionToUrl url latest preferred.
Proof.
  intros Hrec. destruct preferred as [p|]; [|done]. simpl in Hrec.
  rewrite (addVersionToUrl_unfold url).
  destruct (versioned url || bool_decide (name p = version latest)) eqn:Hg.
  { by rewrite addVersionToUrl_unfold, Hg. }
  destruct (endsWith (lit "/api") url) eqn:He.
  - apply endsWith_true in He as [w ->].
    apply addVersionToUrl_versioned.
    rewrite <- (app_nil_r (segment p)) at 1.
    replace ((w ++ lit "/api") ++ lit "/" ++ segment p ++ [])
      with ((w ++ lit "/") ++ lit "api/" ++ segment p ++ [])
      by (by rewrite <- !app_assoc).
    by apply recognised_versioned.
  - unfold replaceStr. destruct (findSub (lit "/api/") url) as [[b a]|] eqn:Hf.
    + apply addVersionToUrl_versioned.
      rewrite getSubstitution_app_plain by (by repeat constructor).
      destruct (recognised_getSubstitution (segment p) (lit "/api/") b a
                  (lit "/") Hrec) as (v' & rest' & Hv' & ->).
      replace (b ++ (lit "/api/" ++ v' ++ rest') ++ a)
        with ((b ++ lit "/") ++ lit "api/" ++ v' ++ (rest' ++ a))
        by (by rewrite <- !app_assoc).
      by apply recognised_versioned.
    + rewrite addVersionToUrl_unfold, Hg, He. unfold replaceStr. by rewrite Hf.
Qed.

Lemma addVersionToUrl_idempotent_witness :
  recognisable (Some {| name := lit "current" |}) = true
  ∧ addVersionToUrl
      (addVersionToUrl (lit "/docs/api/core") {| version := lit "3.0" |}
         (Some {| name := lit "current" |}))
      {| version := lit "3.0" |} (Some {| name := lit "current" |})
    = addVersionToUrl (lit "/docs/api/core") {| version := lit "3.0" |}
        (Some {| name := lit "current" |}).
Proof.
  split; [reflexivity|].
  apply (addVersionToUrl_idempotent (lit "/docs/api/core")
           {| version := lit "3.0" |} (Some {| name := lit "current" |})).
  reflexivity.
Defined.

(** C9: with exactly one package, the effect calls [history.replace] once,
    with the permalink of the reflection of the first entry point of that
    package, adjusted by [addVersionToUrl]; with more than one package it
    calls [history.replace] with the adjusted current path when there is a
    preferred version, and does not call it when there is none. *)
Theorem effect_redirects packages latest preferred history :
  (∀ pkg entryPoint rest,
     packages = [pkg] → entryPoints pkg = entryPoint :: rest →
     ∃ history', effect packages latest preferred history = Some history'
       ∧ replaced history' = replaced history ++
           [addVersionToUrl (permalink (reflection entryPoint)) latest preferred])
  ∧ ((1 < length packages)%nat →
     ∃ history', effect packages latest preferred history = Some history'
       ∧ replaced history' = replaced history ++
           match preferred with
           | Some _ => [addVersionToUrl (pathname history) latest preferred]
           | None => []
           end).
Proof.
  split.
  - intros pkg e rest -> He. unfold effect. rewrite He. eauto.
  - intros Hlen. destruct packages as [|p1 [|p2 ps]]; simpl in Hlen; try lia.
    unfold effect. destruct preferred; eexists; split; try reflexivity.
    simpl. by rewrite app_nil_r.
Qed.

Lemma effect_redirects_witness :
  let pkg := {| entryPoints := [ {| reflection := {| permalink := lit "/api/core" |} |} ] |} in
  let latest := {| version := lit "3.0" |} in
  let history := {| pathname := lit "/api"; replaced := [];
                    moved := λ _ path, path |} in
  (∃ history', effect [pkg] latest (Some {| name := lit "2.0" |}) history = Some history'
     ∧ replaced history' = [lit "/api/2.0/core"])
  ∧ (∃ history', effect [pkg; pkg] latest (Some {| name := lit "2.0" |}) history = Some history'
     ∧ replaced history' = [lit "/api/2.0"]).
Proof.
  intros pkg latest history. split.
  - destruct (effect_redirects [pkg] latest (Some {| name := lit "2.0" |}) history)
      as [H _].
    destruct (H pkg _ [] eq_refl eq_refl) as (h' & Hh & Hr).
    exists h'. split; [exact Hh|]. rewrite Hr. vm_compute. reflexivity.
  - destruct (effect_redirects [pkg; pkg] latest (Some {| name := lit "2.0" |}) history)
      as [_ H].
    destruct H as (h' & Hh & Hr); [simpl; lia|].
    exists h'. split; [exact Hh|]. rewrite Hr. vm_compute. reflexivity.
Defined.

End ApiIndexFacts.
(** ** The API index: heading identifiers, and more on the redirect *)

Module HeadingIds.
Import Regex ApiIndex StringFacts RegexFacts.

Lemma exec_space_None x s :
  isWhiteSpace x = false → exec whiteSpacePattern (x :: s) = None.
Proof.
  intros Hx. unfold exec, whiteSpacePattern. cbn [m repExact]. by rewrite Hx.
Qed.

Lemma exec_space_nil : exec whiteSpacePattern [] = None.
Proof. done. Qed.

Lemma exec_space_run x g rest :
  isWhiteSpace x = true → forallb isWhiteSpace g = true →
  match rest with [] => true | y :: _ => negb (isWhiteSpace y) end = true →
  exec whiteSpacePattern (x :: g ++ rest) = Some (x :: g, []).
Proof.
  intros Hx Hg Hrest. unfold exec, whiteSpacePattern. cbn [m repExact].
  rewrite Hx. cbn [fmap option_fmap option_map].
  rewrite (repGreedy_stop isWhiteSpace accept g rest [] (rest, [])); [|done..|].
  - change (x :: g ++ rest) with ((x :: g) ++ rest). by rewrite take_app_length'.
  - intros e r' -> He Hp. exfalso. destruct e as [|y e]; [done|].
    simpl in Hrest, Hp. by destruct (isWhiteSpace y).
Qed.

Lemma replaceAllFrom_skip r repl a s :
  replaceAllFrom r repl (length a) (a ++ s) = replaceAllFrom r repl 0 s.
Proof. induction a as [|x a IH]; [done|]. simpl. apply IH. Qed.

(** The longest run of white space at the start of a text. *)
Lemma space_run s :
  ∃ g rest, s = g ++ rest ∧ forallb isWhiteSpace g = true
    ∧ match rest with [] => true | y :: _ => negb (isWhiteSpace y) end = true.
Proof.
  induction s as [|x s (g & rest & -> & Hg & Hrest)]; [by exists [], []|].
  destruct (isWhiteSpace x) eqn:Hx.
  - exists (x :: g), rest. simpl. by rewrite Hx.
  - exists [], (x :: g ++ rest). simpl. by rewrite Hx.
Qed.

Lemma dashed_run g rest :
  forallb isWhiteSpace g = true →
  match rest with [] => true | y :: _ => negb (isWhiteSpace y) end = true →
  dashed true (g ++ rest) = dashed false rest.
Proof.
  intros Hg Hrest. induction g as [|x g IH]; simpl.
  - destruct rest as [|y rest]; [done|]. simpl in *.
    by destruct (isWhiteSpace y).
  - simpl in Hg. apply andb_true_iff in Hg as [-> Hg]. by apply IH.
Qed.

Lemma replaceAll_dashed s :
  replaceAll whiteSpacePattern (lit "-") s = dashed false s.
Proof.
  remember (length s) as n eqn:Hn. revert s Hn.
  induction (lt_wf n) as [n _ IH]. intros s ->.
  destruct s as [|x s]; [done|].
  unfold replaceAll. cbn [replaceAllFrom dashed].
  destruct (isWhiteSpace x) eqn:Hx.
  - destruct (space_run s) as (g & rest & -> & Hg & Hrest).
    rewrite (exec_space_run x g rest) by done. cbn [isEmpty length Nat.sub].
    rewrite Nat.sub_0_r, replaceAllFrom_skip, dashed_run by done.
    fold (replaceAll whiteSpacePattern (lit "-") rest).
    rewrite (IH (length rest)) with (s := rest); [done| |done].
    cbn [length]. rewrite length_app. lia.
  - rewrite exec_space_None by done.
    fold (replaceAll whiteSpacePattern (lit "-") s).
    rewrite (IH (length s)) with (s := s); [done| |done]. cbn [length]. lia.
Qed.

Lemma dashed_no_space b s : Forall (λ c, isWhiteSpace c = false) (dashed b s).
Proof.
  revert b. induction s as [|x s IH]; intros b; simpl; [done|].
  destruct (isWhiteSpace x) eqn:Hx.
  - destruct b; [done|]. by constructor.
  - by constructor.
Qed.

Lemma dashed_plain s :
  Forall (λ c, isWhiteSpace c = false) s → dashed false s = s.
Proof. induction 1 as [|x s Hx _ IH]; simpl; [done|]. by rewrite Hx, IH. Qed.

(** [headingId]: the text in lower case, with every run of white space
    (blanks, tabs, line terminators) turned into a single dash; white
    space at either end is not trimmed. *)
Theorem headingId_dashed `{Casing} text :
  headingId text = dashed false (toLocaleLowerCase text).
Proof. apply replaceAll_dashed. Qed.

(** An identifier has no white space, and a text whose lower case has none
    is only put to lower case. *)
Theorem headingId_no_space `{Casing} text :
  Forall (λ c, isWhiteSpace c = false) (headingId text)
  ∧ (Forall (λ c, isWhiteSpace c = false) (toLocaleLowerCase text) →
     headingId text = toLocaleLowerCase text).
Proof.
  unfold headingId. rewrite replaceAll_dashed.
  split; [apply dashed_no_space | apply dashed_plain].
Qed.

Example headingId_example :
  headingId (H:=asciiLowerCase) (lit " Web  Testing" ++ [9; 10] ++ lit "Tools ")
  = lit "-web-testing-tools-".
Proof. vm_compute. reflexivity. Qed.

End HeadingIds.

Module ApiIndexMore.
Import Regex ApiIndex StringFacts RegexFacts ApiIndexFacts.

(** An address that has [api/] followed by a digit or a dot, or
    [api/next], anywhere (also inside a longer word) comes back as it
    is, whatever the versions are. *)
Theorem addVersionToUrl_keeps_versioned b c rest latest preferred :
  digitOrDot c = true →
  addVersionToUrl (b ++ lit "api/" ++ c :: rest) latest preferred
  = b ++ lit "api/" ++ c :: rest
  ∧ addVersionToUrl (b ++ lit "api/next" ++ rest) latest preferred
    = b ++ lit "api/next" ++ rest.
Proof.
  intros Hc. split; apply addVersionToUrl_versioned.
  - by apply versioned_digit.
  - apply versioned_next.
Qed.

Lemma addVersionToUrl_keeps_versioned_witness :
  addVersionToUrl (lit "/docs/myapi/2/core") {| version := lit "3.0" |}
    (Some {| name := lit "1.0" |})
  = lit "/docs/myapi/2/core"
  ∧ addVersionToUrl (lit "/api/nextgen") {| version := lit "3.0" |}
      (Some {| name := lit "1.0" |})
    = lit "/api/nextgen".
Proof.
  destruct (addVersionToUrl_keeps_versioned (lit "/docs/my") 50 (lit "/core")
              {| version := lit "3.0" |} (Some {| name := lit "1.0" |}) eq_refl)
    as [H1 _].
  destruct (addVersionToUrl_keeps_versioned (lit "/") 50 (lit "gen")
              {| version := lit "3.0" |} (Some {| name := lit "1.0" |}) eq_refl)
    as [_ H2].
  split; [exact H1 | exact H2].
Defined.


End ApiIndexMore.
